(** * myphysicslab: collision records, broad-phase test, SimList, Clock and SimRunner

    A shallow embedding of the parts of the JavaScript sources that the
    specification speaks about:

    - [lab/engine2D/StraightStraight] and [lab/engine2D/AbstractEdge]
      (module [Engine2D]),
    - [lab/model/SimList] (module [SimListModel]),
    - [lab/util/Clock] and [lab/app/SimRunner] (module [Runner]).

    JavaScript numbers are IEEE 754 binary64 values; they are modelled by
    Rocq's primitive floats, whose operations are exactly the ones the
    JavaScript operators [+ - * / < <= ==] perform.  Objects are records,
    methods are functions that return the updated receiver, exceptions are
    the [Throw] completion.

    The sources are read as they stand, uncompiled: [goog.DEBUG] is true and
    [goog.asserts.assert] throws when its argument is false.  The timing
    log of [SimRunner] is behind [debugTiming_], which is false, and is left
    out. *)

From Stdlib Require Import List Bool Arith ZArith Lia Floats.
From Stdlib Require String.
Import String.StringSyntax.
Delimit Scope string_scope with string.
From Equations Require Import Equations.
From Equations.Prop Require Logic.
Import ListNotations.

Set Warnings "-inexact-float".

(* ------------------------------------------------------------------ *)
(** * JavaScript values shared by all the modules                       *)
(* ------------------------------------------------------------------ *)

Module JS.

(** The JavaScript [number] type. *)
Definition number : Set := float.
Bind Scope float_scope with number.

(** [UtilityCore.POSITIVE_INFINITY] and [UtilityCore.NaN]. *)
Definition POSITIVE_INFINITY : number := infinity.
Definition NaN : number := nan.

(** The global functions [isNaN] and [isFinite] on a number. *)
Definition isNaN (x : number) : bool := is_nan x.
Definition isFinite (x : number) : bool := is_finite x.

(** [a > b] and [a >= b] are [b < a] and [b <= a]. *)
Definition gtb (a b : number) : bool := (b <? a)%float.
Definition geb (a b : number) : bool := (b <=? a)%float.

(** An [Error] object, identified by its message. *)
Inductive Error : Set :=
| mkError (message : String.string).

(** How a call completes: normally with a value, or by throwing.
    [Unfinished] is the answer of a model of a loop that was given too few
    iterations to complete (the JavaScript loop itself has no bound). *)
Inductive Completion (A : Type) : Type :=
| Normal (a : A)
| Throw (e : Error)
| Unfinished.

Arguments Normal {A} a.
Arguments Throw {A} e.
Arguments Unfinished {A}.

Definition isThrow {A : Type} (c : Completion A) : bool :=
  match c with
  | Throw _ => true
  | _ => false
  end.

(** ** Statements: state passing with exceptions

    A method that reads and writes the state [S] of the objects it can
    reach and completes with a value of type [A]. *)

Definition M (S A : Type) : Type := S -> Completion A * S.

Definition ret {S A : Type} (a : A) : M S A := fun s => (Normal a, s).

Definition bind {S A B : Type} (m : M S A) (k : A -> M S B) : M S B :=
  fun s =>
    match m s with
    | (Normal a, s') => k a s'
    | (Throw e, s') => (Throw e, s')
    | (Unfinished, s') => (Unfinished, s')
    end.

Definition throw {S A : Type} (e : Error) : M S A := fun s => (Throw e, s).

(** Reading and changing the state. *)
Definition gets {S A : Type} (f : S -> A) : M S A := fun s => (Normal (f s), s).

Definition modify {S : Type} (f : S -> S) : M S unit := fun s => (Normal tt, f s).

Definition unfinished {S A : Type} : M S A := fun s => (Unfinished, s).

(** [try { body } catch (ex) { handler ex }]. *)
Definition tryCatch {S A : Type} (body : M S A) (handler : Error -> M S A) : M S A :=
  fun s =>
    match body s with
    | (Throw ex, s') => handler ex s'
    | other => other
    end.

(** [goog.array.forEach(arr, f)]. *)
Fixpoint forEach {S A : Type} (arr : list A) (f : A -> M S unit) : M S unit :=
  match arr with
  | [] => ret tt
  | a :: rest => bind (f a) (fun _ => forEach rest f)
  end.

End JS.

Import JS.

Notation "x <- m ;; k" := (bind m (fun x => k))
  (at level 61, m at next level, right associativity).
Notation "m ;; k" := (bind m (fun _ => k))
  (at level 61, right associativity).

Infix ">?" := gtb (at level 70, no associativity) : float_scope.
Infix ">=?" := geb (at level 70, no associativity) : float_scope.

(* ------------------------------------------------------------------ *)
(** * The order and the infinities of IEEE doubles                      *)
(* ------------------------------------------------------------------ *)

Module FloatFacts.

Lemma SFcompare_Lt_trans (a b c : spec_float) :
  SFcompare a b = Some Lt -> SFcompare b c = Some Lt -> SFcompare a c = Some Lt.
Proof.
  destruct a as [sa|sa| |sa ma ea], b as [sb|sb| |sb mb eb], c as [sc|sc| |sc mc ec];
    simpl; try discriminate; try reflexivity;
    repeat match goal with s : bool |- _ => destruct s end;
    try discriminate; try reflexivity; intros Hab Hbc.
  all: change (Pos.compare_cont Eq) with Pos.compare in *.
  all: destruct (Z.compare_spec ea eb), (Z.compare_spec eb ec), (Z.compare_spec ea ec);
    try discriminate; try reflexivity; try lia; subst.
  all: destruct (Pos.compare_spec ma mb), (Pos.compare_spec mb mc), (Pos.compare_spec ma mc);
    simpl in *; try discriminate; try reflexivity; try lia.
Qed.

Lemma SFcompare_Lt_irrefl (a : spec_float) : SFcompare a a <> Some Lt.
Proof.
  destruct a as [sa|sa| |sa ma ea]; simpl; try discriminate.
  - destruct sa; discriminate.
  - change (Pos.compare_cont Eq) with Pos.compare.
    rewrite Z.compare_refl, Pos.compare_refl. destruct sa; discriminate.
Qed.

(** [<] on doubles is transitive and irreflexive (NaN is below and above
    nothing). *)
Lemma ltb_trans (x y z : float) :
  (x <? y)%float = true -> (y <? z)%float = true -> (x <? z)%float = true.
Proof.
  rewrite !ltb_spec. unfold SFltb.
  destruct (SFcompare (Prim2SF x) (Prim2SF y)) as [[| |]|] eqn:Hxy; try discriminate.
  destruct (SFcompare (Prim2SF y) (Prim2SF z)) as [[| |]|] eqn:Hyz; try discriminate.
  intros _ _. rewrite (SFcompare_Lt_trans _ _ _ Hxy Hyz). reflexivity.
Qed.

Lemma ltb_irrefl (x : float) : (x <? x)%float = false.
Proof.
  rewrite ltb_spec. unfold SFltb.
  pose proof (SFcompare_Lt_irrefl (Prim2SF x)) as H.
  destruct (SFcompare (Prim2SF x) (Prim2SF x)) as [[| |]|]; congruence.
Qed.

Lemma Prim2SF_infinity : Prim2SF infinity = S754_infinity false.
Proof. reflexivity. Qed.

Lemma Prim2SF_neg_infinity : Prim2SF neg_infinity = S754_infinity true.
Proof. reflexivity. Qed.

(** Adding [+Infinity] to a number that is neither NaN nor [-Infinity]
    gives [+Infinity]. *)
Lemma add_infinity_r (x : float) :
  (neg_infinity <? x)%float = true -> (x + infinity)%float = infinity.
Proof.
  rewrite ltb_spec, Prim2SF_neg_infinity. intros Hx.
  apply Prim2SF_inj. rewrite add_spec, Prim2SF_infinity.
  destruct (Prim2SF x) as [s|s| |s m e]; try destruct s; try discriminate; reflexivity.
Qed.

(** Nothing is above [+Infinity]. *)
Lemma ltb_infinity_l (x : float) : (infinity <? x)%float = false.
Proof.
  rewrite ltb_spec, Prim2SF_infinity. unfold SFltb.
  destruct (Prim2SF x) as [s|s| |s m e]; try destruct s; reflexivity.
Qed.

(** NaN is the one number that is not equal to itself, and it is below
    nothing. *)
Lemma is_nan_spec (x : float) : is_nan x = true -> Prim2SF x = S754_nan.
Proof.
  unfold is_nan. rewrite eqb_spec. unfold SFeqb.
  destruct (Prim2SF x) as [s|s| |s m e]; simpl; try reflexivity.
  - discriminate.
  - destruct s; discriminate.
  - change (Pos.compare_cont Eq) with Pos.compare.
    rewrite Z.compare_refl, Pos.compare_refl. destruct s; discriminate.
Qed.

Lemma ltb_nan_l (x y : float) : is_nan x = true -> (x <? y)%float = false.
Proof.
  intros Hnan. rewrite ltb_spec, (is_nan_spec x Hnan). reflexivity.
Qed.

(** A finite number is a zero or has a mantissa and an exponent. *)
Lemma is_finite_spec (x : float) :
  is_finite x = true ->
  (exists s, Prim2SF x = S754_zero s) \/ (exists s m e, Prim2SF x = S754_finite s m e).
Proof.
  unfold is_finite, is_nan, is_infinity. rewrite !eqb_spec, abs_spec, Prim2SF_infinity.
  destruct (Prim2SF x) as [s|s| |s m e]; simpl; try discriminate.
  - intros _. left. exists s. reflexivity.
  - destruct s; discriminate.
  - intros _. right. exists s, m, e. reflexivity.
Qed.

(** For a finite [x], [x - x] is zero, and therefore [abs (x - x) < 0.002]. *)
Lemma abs_sub_diag (x : float) :
  is_finite x = true -> (abs (x - x) <? 2E-3)%float = true.
Proof.
  intros Hfinite. rewrite ltb_spec, abs_spec, sub_spec.
  destruct (is_finite_spec x Hfinite) as [[s ->] | (s & m & e & ->)].
  - destruct s; reflexivity.
  - unfold SF64sub, SFsub. cbv zeta. rewrite Z.sub_diag. reflexivity.
Qed.

(** Addition is commutative, and the square of a difference does not
    depend on the order of the two numbers: a rounded result changes at
    most its sign when the exact result does. *)
Lemma SFadd_comm (prec emax : Z) (x y : spec_float) :
  SFadd prec emax x y = SFadd prec emax y x.
Proof.
  destruct x as [sx|sx| |sx mx ex], y as [sy|sy| |sy my ey]; simpl; try reflexivity;
    try (destruct sx, sy; reflexivity).
  rewrite Z.min_comm, Z.add_comm. reflexivity.
Qed.

Lemma add_comm (x y : float) : (x + y = y + x)%float.
Proof.
  apply Prim2SF_inj. rewrite !add_spec. apply SFadd_comm.
Qed.

Lemma SFabs_binary_round (prec emax : Z) (m : positive) (e : Z) :
  SFabs (binary_round prec emax true m e) = SFabs (binary_round prec emax false m e).
Proof.
  unfold binary_round.
  destruct (shl_align m e (fexp prec emax (Z.pos (digits2_pos m) + e))) as [mz ez].
  unfold binary_round_aux.
  destruct (shr_fexp prec emax (Z.pos mz) ez loc_Exact) as [mrs' e'].
  destruct (shr_fexp prec emax (round_nearest_even (shr_m mrs') (loc_of_shr_record mrs')) e'
              loc_Exact) as [mrs'' e''].
  destruct (shr_m mrs''); try reflexivity.
  destruct (e'' <=? emax - prec)%Z; reflexivity.
Qed.

Lemma SFabs_binary_normalize_opp (prec emax m e : Z) :
  SFabs (binary_normalize prec emax (- m) e false)
  = SFabs (binary_normalize prec emax m e false).
Proof.
  destruct m as [|m|m]; simpl; try reflexivity.
  - apply SFabs_binary_round.
  - symmetry. apply SFabs_binary_round.
Qed.

Lemma SFabs_sub_swap (prec emax : Z) (x y : spec_float) :
  SFabs (SFsub prec emax x y) = SFabs (SFsub prec emax y x).
Proof.
  destruct x as [sx|sx| |sx mx ex], y as [sy|sy| |sy my ey]; simpl; try reflexivity;
    try (destruct sx, sy; reflexivity).
  rewrite (Z.min_comm ey ex), <- SFabs_binary_normalize_opp.
  f_equal. f_equal. lia.
Qed.

Lemma SFmul_square_abs (prec emax : Z) (z : spec_float) :
  SFmul prec emax z z = SFmul prec emax (SFabs z) (SFabs z).
Proof.
  destruct z as [s|s| |s m e]; simpl; try reflexivity; destruct s; reflexivity.
Qed.

Lemma square_sub_swap (x y : float) :
  ((x - y) * (x - y) = (y - x) * (y - x))%float.
Proof.
  apply Prim2SF_inj. rewrite !mul_spec, !sub_spec.
  unfold SF64mul, SF64sub.
  rewrite SFmul_square_abs, (SFmul_square_abs _ _ (SFsub prec emax (Prim2SF y) (Prim2SF x))).
  rewrite (SFabs_sub_swap prec emax (Prim2SF x) (Prim2SF y)). reflexivity.
Qed.

(** A positive number that is not below [+Infinity] is [+Infinity]. *)
Lemma positive_not_finite (z : float) :
  (0 <? z)%float = true -> (z <? infinity)%float = false -> z = infinity.
Proof.
  rewrite !ltb_spec, Prim2SF_infinity. intros Hpos Hinf.
  apply Prim2SF_inj. rewrite Prim2SF_infinity.
  change (Prim2SF 0) with (S754_zero false) in Hpos.
  destruct (Prim2SF z) as [s|s| |s m e]; try destruct s; try discriminate; reflexivity.
Qed.

Lemma SFcompare_Lt_not_Lt_trans (a b c z : spec_float) :
  SFcompare a b = Some Lt ->
  SFcompare c b <> Some Lt ->
  SFcompare z c = Some Lt ->
  SFcompare a c = Some Lt.
Proof.
  destruct a as [sa|sa| |sa ma ea], b as [sb|sb| |sb mb eb], c as [sc|sc| |sc mc ec];
    simpl; try discriminate; try reflexivity;
    repeat match goal with s : bool |- _ => destruct s end;
    try discriminate; try reflexivity; try congruence;
    try (intros _ _; destruct z as [sz|sz| |sz mz ez]; simpl; try destruct sz; discriminate).
  all: change (Pos.compare_cont Eq) with Pos.compare in *.
  all: intros Hab Hcb _.
  all: destruct (Z.compare_spec ea eb), (Z.compare_spec ec eb), (Z.compare_spec ea ec);
    try discriminate; try reflexivity; try congruence; try lia; subst.
  all: destruct (Pos.compare_spec ma mb), (Pos.compare_spec mc mb), (Pos.compare_spec ma mc);
    simpl in *; try discriminate; try reflexivity; try congruence; try lia.
Qed.

Lemma ltb_not_ltb_trans (x y z : float) :
  (x <? y)%float = true -> (z <? y)%float = false -> (0 <? z)%float = true ->
  (x <? z)%float = true.
Proof.
  rewrite !ltb_spec. unfold SFltb.
  destruct (SFcompare (Prim2SF x) (Prim2SF y)) as [[| |]|] eqn:Hxy; try discriminate.
  destruct (SFcompare (Prim2SF 0) (Prim2SF z)) as [[| |]|] eqn:Hz; try discriminate.
  intros _ Hzy _.
  rewrite (SFcompare_Lt_not_Lt_trans _ _ (Prim2SF z) (Prim2SF 0) Hxy);
    [reflexivity | | exact Hz].
  intros Hlt. rewrite Hlt in Hzy. discriminate.
Qed.

End FloatFacts.

(* ------------------------------------------------------------------ *)
(** * goog.array: the Closure library functions the sources call        *)
(* ------------------------------------------------------------------ *)

Module goog_array.

Section Arrays.

Variable A : Type.
Variable eq_dec : forall a b : A, {a = b} + {a <> b}.

(** [goog.array.contains(arr, obj)]: whether [obj] is an element ([===]). *)
Definition contains (arr : list A) (obj : A) : bool :=
  if in_dec eq_dec obj arr then true else false.

(** [goog.array.remove(arr, obj)]: removes the first occurrence of [obj];
    returns whether an element was removed, and the array afterwards. *)
Fixpoint remove (arr : list A) (obj : A) : bool * list A :=
  match arr with
  | [] => (false, [])
  | a :: rest =>
      if eq_dec a obj then (true, rest)
      else let (found, rest') := remove rest obj in (found, a :: rest')
  end.

(** [goog.array.indexOf(arr, obj)]: the index of the first occurrence of
    [obj], or -1. *)
Fixpoint indexOf (arr : list A) (obj : A) : Z :=
  match arr with
  | [] => (-1)%Z
  | a :: rest =>
      if eq_dec a obj then 0%Z
      else let i := indexOf rest obj in
           if (i =? -1)%Z then (-1)%Z else (i + 1)%Z
  end.

(** [goog.array.find(arr, f)]: the first element satisfying [f], or null. *)
Definition find (arr : list A) (f : A -> bool) : option A :=
  List.find f arr.

(** [arr.splice(i, 1)]: the array without its element at index [i]. *)
Fixpoint splice1 (arr : list A) (i : nat) : list A :=
  match arr, i with
  | [], _ => []
  | _ :: rest, O => rest
  | a :: rest, S j => a :: splice1 rest j
  end.

End Arrays.

Arguments contains {A} eq_dec arr obj.
Arguments indexOf {A} eq_dec arr obj.
Arguments remove {A} eq_dec arr obj.
Arguments find {A} arr f.
Arguments splice1 {A} arr i.

(** An array without duplicates stays so when an object is removed, and
    when an object that it does not contain is pushed. *)
Section Facts.

Variable A : Type.
Variable eq_dec : forall a b : A, {a = b} + {a <> b}.

Lemma contains_In (arr : list A) (x : A) :
  contains eq_dec arr x = true <-> In x arr.
Proof.
  unfold contains. destruct (in_dec eq_dec x arr); split; intros; try easy.
Qed.

Lemma removed_from (arr : list A) (x y : A) :
  In y (snd (remove eq_dec arr x)) -> In y arr.
Proof.
  induction arr as [|a rest IH]; simpl.
  - tauto.
  - destruct (eq_dec a x) as [->|Hne]; simpl.
    + auto.
    + destruct (remove eq_dec rest x) as [found rest'].
      simpl in *. intros [H|H]; [left; exact H | right; exact (IH H)].
Qed.

Lemma removed_once (arr : list A) (x : A) :
  NoDup arr ->
  NoDup (snd (remove eq_dec arr x)) /\ ~ In x (snd (remove eq_dec arr x)).
Proof.
  induction 1 as [|a rest Hnotin Hnodup [IH1 IH2]]; simpl.
  - split; [constructor | tauto].
  - destruct (eq_dec a x) as [->|Hne]; simpl.
    + split; assumption.
    + pose proof (removed_from rest x a) as Hsub.
      destruct (remove eq_dec rest x) as [found rest'].
      simpl in *. split; [constructor; tauto | tauto].
Qed.

Lemma push_NoDup (arr : list A) (x : A) :
  NoDup arr -> contains eq_dec arr x = false -> NoDup (arr ++ [x]).
Proof.
  intros Hnodup Hin. unfold contains in Hin.
  destruct (in_dec eq_dec x arr) as [|Hnot]; [discriminate|].
  apply NoDup_app; [exact Hnodup | repeat constructor; simpl; tauto |].
  intros y Hy [<-|[]]. exact (Hnot Hy).
Qed.

End Facts.

End goog_array.

(* ------------------------------------------------------------------ *)
(** * lab/engine2D: AbstractEdge and StraightStraight                   *)
(* ------------------------------------------------------------------ *)

Module Engine2D.

(** Modelled from the spec: [lab.util.Vector] is not among the sources.  A
    Vector is an immutable point of the plane; [subtract], [add] and
    [multiply] work on the coordinates and [lengthSquared] is the squared
    length. *)
Record Vector : Set := mkVector {
  getX : number;
  getY : number
}.

Definition subtract (a b : Vector) : Vector :=
  mkVector (getX a - getX b) (getY a - getY b).

Definition add (a b : Vector) : Vector :=
  mkVector (getX a + getX b) (getY a + getY b).

Definition multiply (a : Vector) (factor : number) : Vector :=
  mkVector (getX a * factor) (getY a * factor).

Definition lengthSquared (a : Vector) : number :=
  (getX a * getX a + getY a * getY a)%float.

(** Modelled from the spec: [UtilEngine.square] is not among the sources. *)
Definition square (x : number) : number := (x * x)%float.

(** A [Vertex]: a point in body coordinates. *)
Record Vertex : Set := mkVertex {
  locBody : Vector
}.

(** Modelled from the spec: [Polygon] (a RigidBody) is not among the
    sources.  It is given as far as edges use it: its position and its two
    coordinate maps are taken as they are at the moment of the call;
    [getEdges_] lists the edges by their identity; [getEdgeCentroidWorld]
    is its cache of the centroids of its edges in world coordinates, by
    edge index. *)
Record Polygon : Type := mkPolygon {
  body_id : nat;
  getPosition : Vector;
  bodyToWorld : Vector -> Vector;
  rotateBodyToWorld : Vector -> Vector;
  getEdges_ : list nat;
  getEdgeCentroidWorld : Z -> option Vector
}.

Definition setEdgeCentroidWorld (index : Z) (v : Vector) (body : Polygon) : Polygon :=
  mkPolygon (body_id body) (getPosition body) (bodyToWorld body) (rotateBodyToWorld body)
    (getEdges_ body)
    (fun i => if (i =? index)%Z then Some v else getEdgeCentroidWorld body i).

(** Two references to bodies are [==] when they are the same object. *)
Definition same_body (a b : Polygon) : bool := Nat.eqb (body_id a) (body_id b).

(** An edge: the fields of [AbstractEdge], and the methods that
    [AbstractEdge] leaves abstract and that its subclasses (which are not
    among the sources) implement. *)
Record Edge : Type := mkEdge {
  edge_id : nat;
  v1_ : Vertex;
  v2_ : Vertex;
  centroid_body_ : Vector;
  centroidRadius_ : number;
  body_ : Polygon;
  index_ : Z;
  distanceToLine : Vector -> number;
  getNormalBody : Vector -> Vector;
  maxDistanceTo : Vector -> number
}.

(** The constructor of [AbstractEdge]; the three abstract methods come from
    the subclass. *)
Definition AbstractEdge (id : nat) (body : Polygon) (vertex1 vertex2 : Vertex)
    (distanceToLine : Vector -> number) (getNormalBody : Vector -> Vector)
    (maxDistanceTo : Vector -> number) : Edge :=
  mkEdge id vertex1 vertex2
    (multiply (add (locBody vertex1) (locBody vertex2)) 0.5)
    NaN body (-1) distanceToLine getNormalBody maxDistanceTo.

Definition set_centroidRadius (value : number) (e : Edge) : Edge :=
  mkEdge (edge_id e) (v1_ e) (v2_ e) (centroid_body_ e) value (body_ e) (index_ e)
    (distanceToLine e) (getNormalBody e) (maxDistanceTo e).

Definition set_index (value : Z) (e : Edge) : Edge :=
  mkEdge (edge_id e) (v1_ e) (v2_ e) (centroid_body_ e) (centroidRadius_ e) (body_ e) value
    (distanceToLine e) (getNormalBody e) (maxDistanceTo e).

Definition set_body (body : Polygon) (e : Edge) : Edge :=
  mkEdge (edge_id e) (v1_ e) (v2_ e) (centroid_body_ e) (centroidRadius_ e) body (index_ e)
    (distanceToLine e) (getNormalBody e) (maxDistanceTo e).

Definition getBody (this : Edge) : Polygon := body_ this.
Definition getVertex1 (this : Edge) : Vertex := v1_ this.
Definition getVertex2 (this : Edge) : Vertex := v2_ this.
Definition getCentroidBody (this : Edge) : Vector := centroid_body_ this.

(** ** AbstractEdge: the methods with a body

    A method is a statement on its receiver: it returns a value and the
    receiver with its caches filled. *)

Definition getCentroidRadius : M Edge number :=
  fun this =>
    if isNaN (centroidRadius_ this)
    then
      (* increase the max distance ... *)
      let this' :=
        set_centroidRadius (1.25 * maxDistanceTo this (centroid_body_ this))%float this in
      (Normal (centroidRadius_ this'), this')
    else (Normal (centroidRadius_ this), this).

Definition setCentroidRadius (value : number) : M Edge unit :=
  modify (set_centroidRadius value).

Definition getIndex : M Edge Z :=
  fun this =>
    if (index_ this =? -1)%Z
    then
      let this' :=
        set_index (goog_array.indexOf Nat.eq_dec (getEdges_ (body_ this)) (edge_id this)) this in
      if (index_ this' =? -1)%Z
      then (Throw (mkError ""%string), this')
      else (Normal (index_ this'), this')
    else (Normal (index_ this), this).

Definition getCentroidWorld : M Edge Vector :=
  i <- getIndex ;;
  cached <- gets (fun this => getEdgeCentroidWorld (body_ this) i) ;;
  match cached with
  | Some v => ret v
  | None =>
      v <- gets (fun this => bodyToWorld (body_ this) (centroid_body_ this)) ;;
      (* store the centroid in world coords in an array on the body *)
      j <- getIndex ;;
      modify (fun this => set_body (setEdgeCentroidWorld j v (body_ this)) this) ;;
      ret v
  end.

(** [this.intersectionPossible(edge, swellage)].  The state is the pair of
    the receiver [this] and the argument [edge]; both are only changed by
    the filling of their caches. *)
Definition onThis {A : Type} (m : M Edge A) : M (Edge * Edge) A :=
  fun s => let (r, this') := m (fst s) in (r, (this', snd s)).

Definition onEdge {A : Type} (m : M Edge A) : M (Edge * Edge) A :=
  fun s => let (r, edge') := m (snd s) in (r, (fst s, edge')).

Definition intersectionPossible (swellage : number) : M (Edge * Edge) bool :=
  c1 <- onThis getCentroidWorld ;;
  c2 <- onEdge getCentroidWorld ;;
  let dist := lengthSquared (subtract c1 c2) in
  r_edge <- onEdge getCentroidRadius ;;
  r_this <- onThis getCentroidRadius ;;
  let dist2 := square (r_edge + r_this + swellage) in
  ret (dist <? dist2)%float.

Definition pointOffset (this : Edge) (p_body : Vector) (length : number) : Vector :=
  let n := getNormalBody this p_body in
  add p_body (multiply n length).

(** ** StraightStraight *)

(** Modelled from the spec: [EdgeEdgeCollision] is not among the sources.
    It is given with the fields that [StraightStraight] reads and writes.
    [primaryBody] and [normalBody] are what [getPrimaryBody()] and
    [getNormalBody()] return. *)
Record EdgeEdgeCollision : Type := mkEdgeEdgeCollision {
  primaryBody : Polygon;
  normalBody : Polygon;
  ballNormal : bool;
  ballObject : bool;
  radius1 : number;
  radius2 : number;
  distance : number;
  impact1 : Vector;
  r1 : Vector;
  r2 : Vector;
  creator : String.string;
  normal : Vector;
  normalVelocity : number;
  detectedTime : number
}.

(** The record [rbc] after the assignments to [impact1], [r1], [r2] and
    [normal]. *)
Definition set_impact (pt r1' r2' normal' : Vector) (rbc : EdgeEdgeCollision)
    : EdgeEdgeCollision :=
  mkEdgeEdgeCollision (primaryBody rbc) (normalBody rbc) (ballNormal rbc) (ballObject rbc)
    (radius1 rbc) (radius2 rbc) (distance rbc) pt r1' r2' (creator rbc) normal'
    (normalVelocity rbc) (detectedTime rbc).

Definition set_distance (d : number) (rbc : EdgeEdgeCollision) : EdgeEdgeCollision :=
  mkEdgeEdgeCollision (primaryBody rbc) (normalBody rbc) (ballNormal rbc) (ballObject rbc)
    (radius1 rbc) (radius2 rbc) d (impact1 rbc) (r1 rbc) (r2 rbc) (creator rbc) (normal rbc)
    (normalVelocity rbc) (detectedTime rbc).

Definition set_normalVelocity (v : number) (rbc : EdgeEdgeCollision) : EdgeEdgeCollision :=
  mkEdgeEdgeCollision (primaryBody rbc) (normalBody rbc) (ballNormal rbc) (ballObject rbc)
    (radius1 rbc) (radius2 rbc) (distance rbc) (impact1 rbc) (r1 rbc) (r2 rbc) (creator rbc)
    (normal rbc) v (detectedTime rbc).

Definition setDetectedTime (time : number) (rbc : EdgeEdgeCollision) : EdgeEdgeCollision :=
  mkEdgeEdgeCollision (primaryBody rbc) (normalBody rbc) (ballNormal rbc) (ballObject rbc)
    (radius1 rbc) (radius2 rbc) (distance rbc) (impact1 rbc) (r1 rbc) (r2 rbc) (creator rbc)
    (normal rbc) (normalVelocity rbc) time.

(** The candidate kept so far by the search of [improveAccuracy] for the
    closest endpoint: the variables [e], [pt] and [dist]. *)
Definition Closest : Type := (option Edge * option Vector * number)%type.

(** [d = edge.distanceToLine(p); if (d > 0 && d < dist) { e = edge; pt = p; dist = d; }] *)
Definition consider (edge : Edge) (p : Vector) (s : Closest) : Closest :=
  let '(e, pt, dist) := s in
  let d := distanceToLine edge p in
  if (d >? 0)%float && (d <? dist)%float
  then (Some edge, Some p, d)
  else (e, pt, dist).

Section StraightStraight.

(** [UtilEngine.linesIntersect(p1, p2, p3, p4)], [UtilityCollision.addCollision]
    and the flag [UtilityCollision.DISABLE_EDGE_EDGE] are not among the
    sources, nor is the method [calcNormalVelocity] of a collision. *)
Variable linesIntersect : Vector -> Vector -> Vector -> Vector -> option Vector.
Variable UtilityCollision_addCollision :
  list EdgeEdgeCollision -> EdgeEdgeCollision -> list EdgeEdgeCollision.
Variable DISABLE_EDGE_EDGE : bool.
Variable calcNormalVelocity : EdgeEdgeCollision -> number.

(** Modelled from the spec: [new EdgeEdgeCollision(edge1, edge2)], the
    collision between the bodies of the two edges.  Every other field is
    assigned by [addCollision] before it is read. *)
Definition EdgeEdgeCollision_new (edge1 edge2 : Edge) : EdgeEdgeCollision :=
  mkEdgeEdgeCollision (getBody edge1) (getBody edge2) false false NaN NaN NaN
    (mkVector 0 0) (mkVector 0 0) (mkVector 0 0) ""%string (mkVector 0 0) NaN NaN.

Definition intersect (edge1 edge2 : Edge) : option Vector :=
  let body1 := getBody edge1 in
  let body2 := getBody edge2 in
  let e1v1 := getVertex1 edge1 in
  let e1v2 := getVertex2 edge1 in
  let e2v1 := getVertex1 edge2 in
  let e2v2 := getVertex2 edge2 in
  linesIntersect (bodyToWorld body1 (locBody e1v1))
    (bodyToWorld body1 (locBody e1v2))
    (bodyToWorld body2 (locBody e2v1))
    (bodyToWorld body2 (locBody e2v2)).

(** The four endpoints in world coordinates, each with the edge whose
    [distanceToLine] it is handed to, in the order of the source. *)
Definition endpoints (edge1 edge2 : Edge) : list (Edge * Vector) :=
  let body1 := getBody edge1 in
  let body2 := getBody edge2 in
  let e1v1 := bodyToWorld body1 (locBody (getVertex1 edge1)) in
  let e1v2 := bodyToWorld body1 (locBody (getVertex2 edge1)) in
  let e2v1 := bodyToWorld body2 (locBody (getVertex1 edge2)) in
  let e2v2 := bodyToWorld body2 (locBody (getVertex2 edge2)) in
  [(edge1, e2v1); (edge1, e2v2); (edge2, e1v1); (edge2, e1v2)].

(** The search of [improveAccuracy] for the endpoint that is closest to
    the other line: the declarations and the four [if]s of its [else]
    branch. *)
Definition closestEndpoint (edge1 edge2 : Edge) : Closest :=
  let dist := POSITIVE_INFINITY in
  let body1 := getBody edge1 in
  let body2 := getBody edge2 in
  let e1v1 := bodyToWorld body1 (locBody (getVertex1 edge1)) in
  let e1v2 := bodyToWorld body1 (locBody (getVertex2 edge1)) in
  let e2v1 := bodyToWorld body2 (locBody (getVertex1 edge2)) in
  let e2v2 := bodyToWorld body2 (locBody (getVertex2 edge2)) in
  let s := (None, None, dist) in
  let s := consider edge1 e2v1 s in
  let s := consider edge1 e2v2 s in
  let s := consider edge2 e1v1 s in
  let s := consider edge2 e1v2 s in
  s.

Definition improveAccuracy (rbc : EdgeEdgeCollision) (edge1 edge2 : Edge)
    : Completion EdgeEdgeCollision :=
  let edge1Body := getBody edge1 in
  let edge2Body := getBody edge2 in
  if negb (same_body (primaryBody rbc) edge1Body)
  then Throw (mkError "Assertion failed"%string)
  else if negb (same_body (normalBody rbc) edge2Body)
  then Throw (mkError "Assertion failed"%string)
  else
    (* The scenario is:  collision between a edge1 and edge2 happened,
       it was detected by the two lines intersecting. *)
    match intersect edge1 edge2 with
    | Some pt =>
        (* If the lines are still intersecting, then use the current point of intersection. *)
        Normal (set_impact pt
                  (subtract pt (getPosition (getBody edge1)))
                  (subtract pt (getPosition (getBody edge2)))
                  (rotateBodyToWorld (getBody edge2) (getNormalBody edge2 pt))
                  rbc)
    | None =>
        (* If lines are not intersecting, then use endpoint that is closest to other line.
           This will be the endpoint with smallest positive distance. *)
        match closestEndpoint edge1 edge2 with
        | (Some e, Some pt, dist) =>
            Normal (set_impact pt
                      (subtract pt (getPosition (getBody edge1)))
                      (subtract pt (getPosition (getBody edge2)))
                      (rotateBodyToWorld (getBody e) (getNormalBody e pt))
                      (set_distance dist rbc))
        | _ => Throw (mkError "StraightStraight.improveAccuracy failed"%string)
        end
    end.

Definition addCollision (collisions : list EdgeEdgeCollision) (edge1 edge2 : Edge)
    (pt : Vector) (time : number) : list EdgeEdgeCollision :=
  let rbc := EdgeEdgeCollision_new edge1 edge2 in
  let rbc :=
    mkEdgeEdgeCollision (primaryBody rbc) (normalBody rbc)
      false                       (* rbc.ballNormal = false *)
      false                       (* rbc.ballObject = false *)
      POSITIVE_INFINITY           (* rbc.radius1 *)
      POSITIVE_INFINITY           (* rbc.radius2 *)
      (-0.1)%float                (* distance is meaningless for edge/edge collision *)
      pt                          (* rbc.impact1 = pt *)
      (subtract pt (getPosition (getBody edge1)))
      (subtract pt (getPosition (getBody edge2)))
      "StraightStraight"%string   (* goog.DEBUG *)
      (rotateBodyToWorld (getBody edge2) (getNormalBody edge2 pt))
      (normalVelocity rbc) (detectedTime rbc) in
  let rbc := set_normalVelocity (calcNormalVelocity rbc) rbc in
  let rbc := setDetectedTime time rbc in
  UtilityCollision_addCollision collisions rbc.

Definition testCollision (collisions : list EdgeEdgeCollision) (edge1 edge2 : Edge)
    (time : number) : list EdgeEdgeCollision :=
  if DISABLE_EDGE_EDGE
  then collisions
  else
    match intersect edge1 edge2 with
    | Some pt => addCollision collisions edge1 edge2 pt time
    | None => collisions
    end.

(** ** The closest endpoint *)

(** The distance that [consider] computes for a candidate. *)
Definition distanceOf (c : Edge * Vector) : number := distanceToLine (fst c) (snd c).

(** [Best seen s]: what the variables [e], [pt] and [dist] hold after the
    candidates [seen] were considered.  Either none of them had a positive
    distance below [POSITIVE_INFINITY] and the variables are as initialised,
    or they hold a candidate of positive distance that no candidate of
    positive distance undercuts. *)
Definition Best (seen : list (Edge * Vector)) (s : Closest) : Prop :=
  (s = (None, None, POSITIVE_INFINITY) /\
   forall c, In c seen ->
     (distanceOf c >? 0)%float && (distanceOf c <? POSITIVE_INFINITY)%float = false) \/
  (exists c, In c seen /\
     s = (Some (fst c), Some (snd c), distanceOf c) /\
     (distanceOf c >? 0)%float = true /\
     (distanceOf c <? POSITIVE_INFINITY)%float = true /\
     forall c', In c' seen -> (distanceOf c' >? 0)%float = true ->
                (distanceOf c' <? distanceOf c)%float = false).

Lemma Best_consider (seen : list (Edge * Vector)) (s : Closest) (c : Edge * Vector) :
  Best seen s -> Best (seen ++ [c]) (consider (fst c) (snd c) s).
Proof.
  intros [[-> Hnone] | (b & Hin & -> & Hpos & Hfin & Hmin)]; unfold consider;
    fold (distanceOf c).
  - destruct ((distanceOf c >? 0)%float && (distanceOf c <? POSITIVE_INFINITY)%float) eqn:Htest.
    + right. exists c. apply andb_true_iff in Htest. destruct Htest as [Hpos Hfin].
      split; [apply in_or_app; right; now left|].
      split; [reflexivity|]. split; [exact Hpos|]. split; [exact Hfin|].
      intros c' Hc' Hpos'. apply in_app_or in Hc'. destruct Hc' as [Hc'|[<-|[]]].
      * destruct (distanceOf c' <? distanceOf c)%float eqn:Hlt; [|reflexivity].
        specialize (Hnone c' Hc'). rewrite Hpos' in Hnone. simpl in Hnone.
        rewrite (FloatFacts.ltb_trans _ _ _ Hlt Hfin) in Hnone. discriminate.
      * apply FloatFacts.ltb_irrefl.
    + left. split; [reflexivity|].
      intros c' Hc'. apply in_app_or in Hc'. destruct Hc' as [Hc'|[<-|[]]]; auto.
  - destruct ((distanceOf c >? 0)%float && (distanceOf c <? distanceOf b)%float) eqn:Htest.
    + right. exists c. apply andb_true_iff in Htest. destruct Htest as [Hposc Hltc].
      split; [apply in_or_app; right; now left|].
      split; [reflexivity|]. split; [exact Hposc|].
      split; [exact (FloatFacts.ltb_trans _ _ _ Hltc Hfin)|].
      intros c' Hc' Hpos'. apply in_app_or in Hc'. destruct Hc' as [Hc'|[<-|[]]].
      * destruct (distanceOf c' <? distanceOf c)%float eqn:Hlt; [|reflexivity].
        rewrite <- (Hmin c' Hc' Hpos'). symmetry.
        exact (FloatFacts.ltb_trans _ _ _ Hlt Hltc).
      * apply FloatFacts.ltb_irrefl.
    + right. exists b.
      split; [apply in_or_app; now left|].
      split; [reflexivity|]. split; [exact Hpos|]. split; [exact Hfin|].
      intros c' Hc' Hpos'. apply in_app_or in Hc'. destruct Hc' as [Hc'|[<-|[]]].
      * exact (Hmin c' Hc' Hpos').
      * rewrite Hpos' in Htest. exact Htest.
Qed.

Lemma closestEndpoint_Best (edge1 edge2 : Edge) :
  Best (endpoints edge1 edge2) (closestEndpoint edge1 edge2).
Proof.
  unfold closestEndpoint, endpoints. cbv zeta.
  set (c1 := (edge1, bodyToWorld (getBody edge2) (locBody (getVertex1 edge2)))).
  set (c2 := (edge1, bodyToWorld (getBody edge2) (locBody (getVertex2 edge2)))).
  set (c3 := (edge2, bodyToWorld (getBody edge1) (locBody (getVertex1 edge1)))).
  set (c4 := (edge2, bodyToWorld (getBody edge1) (locBody (getVertex2 edge1)))).
  assert (H0 : Best [] (None, None, POSITIVE_INFINITY)).
  { left. split; [reflexivity | intros c []]. }
  pose proof (Best_consider [] _ c1 H0) as H1.
  pose proof (Best_consider _ _ c2 H1) as H2.
  pose proof (Best_consider _ _ c3 H2) as H3.
  pose proof (Best_consider _ _ c4 H3) as H4.
  exact H4.
Qed.



(** C6 (amended).  When [intersect] finds no intersection of the two edges,
    [testCollision] leaves the array of collisions as it is, however close
    the edges are: it makes no contact record. *)
Theorem testCollision_without_intersection
    (collisions : list EdgeEdgeCollision) (edge1 edge2 : Edge) (time : number) :
  intersect edge1 edge2 = None ->
  testCollision collisions edge1 edge2 time = collisions.
Proof.
  intros Hintersect. unfold testCollision. rewrite Hintersect.
  destruct DISABLE_EDGE_EDGE; reflexivity.
Qed.

(** ** What [improveAccuracy] leaves as it is *)

(** X15.  When [improveAccuracy] returns, the record is consistent: [r1]
    and [r2] are the impact point minus the positions of the two bodies.
    Only the impact point, [r1], [r2], the normal and (when the edges no
    longer intersect) the distance have been assigned: the bodies, the two
    radii, the flags, the creator, the detection time and also the normal
    velocity are as before.  When the edges intersect the distance is as
    before; when they do not, the new distance is positive and below
    [POSITIVE_INFINITY]. *)
Theorem improveAccuracy_keeps_the_record_consistent
    (rbc rbc' : EdgeEdgeCollision) (edge1 edge2 : Edge) :
  improveAccuracy rbc edge1 edge2 = Normal rbc' ->
  r1 rbc' = subtract (impact1 rbc') (getPosition (getBody edge1)) /\
  r2 rbc' = subtract (impact1 rbc') (getPosition (getBody edge2)) /\
  (primaryBody rbc', normalBody rbc', ballNormal rbc', ballObject rbc',
   radius1 rbc', radius2 rbc', creator rbc', normalVelocity rbc', detectedTime rbc')
  = (primaryBody rbc, normalBody rbc, ballNormal rbc, ballObject rbc,
     radius1 rbc, radius2 rbc, creator rbc, normalVelocity rbc, detectedTime rbc) /\
  match intersect edge1 edge2 with
  | Some pt => impact1 rbc' = pt /\ distance rbc' = distance rbc
  | None =>
      (distance rbc' >? 0)%float = true /\
      (distance rbc' <? POSITIVE_INFINITY)%float = true
  end.
Proof.
  unfold improveAccuracy.
  destruct (negb (same_body (primaryBody rbc) (getBody edge1))); [discriminate|].
  destruct (negb (same_body (normalBody rbc) (getBody edge2))); [discriminate|].
  destruct (intersect edge1 edge2) as [pt|].
  - intros H. injection H as <-. repeat split.
  - destruct (closestEndpoint_Best edge1 edge2)
      as [[-> _] | ([e p] & _ & -> & Hpos & Hfin & _)]; [discriminate|].
    intros H. injection H as <-. simpl in *. repeat split; assumption.
Qed.

(** ** Which endpoint wins a tie *)

(** [FirstBest seen s]: what the variables [e], [pt] and [dist] hold after
    the candidates [seen] were considered, with the order of the candidates
    taken into account: the candidate they hold is strictly closer than
    every candidate of positive distance before it, and no candidate of
    positive distance after it is strictly closer. *)
Definition FirstBest (seen : list (Edge * Vector)) (s : Closest) : Prop :=
  (s = (None, None, POSITIVE_INFINITY) /\
   forall c, In c seen ->
     (distanceOf c >? 0)%float && (distanceOf c <? POSITIVE_INFINITY)%float = false) \/
  (exists before c after,
     seen = before ++ c :: after /\
     s = (Some (fst c), Some (snd c), distanceOf c) /\
     (distanceOf c >? 0)%float = true /\
     (distanceOf c <? POSITIVE_INFINITY)%float = true /\
     (forall c', In c' before -> (distanceOf c' >? 0)%float = true ->
                 (distanceOf c <? distanceOf c')%float = true) /\
     (forall c', In c' after -> (distanceOf c' >? 0)%float = true ->
                 (distanceOf c' <? distanceOf c)%float = false)).

Lemma FirstBest_consider (seen : list (Edge * Vector)) (s : Closest) (c : Edge * Vector) :
  FirstBest seen s -> FirstBest (seen ++ [c]) (consider (fst c) (snd c) s).
Proof.
  intros [[-> Hnone] | (before & b & after & -> & -> & Hpos & Hfin & Hbefore & Hafter)];
    unfold consider; fold (distanceOf c).
  - destruct ((distanceOf c >? 0)%float && (distanceOf c <? POSITIVE_INFINITY)%float) eqn:Htest.
    + right. exists seen, c, []. apply andb_true_iff in Htest. destruct Htest as [Hpos Hfin].
      split; [reflexivity|]. split; [reflexivity|]. split; [exact Hpos|].
      split; [exact Hfin|]. split; [|intros c' []].
      intros c' Hc' Hpos'. specialize (Hnone c' Hc'). rewrite Hpos' in Hnone.
      simpl in Hnone. unfold gtb in Hpos'.
      rewrite (FloatFacts.positive_not_finite _ Hpos' Hnone). exact Hfin.
    + left. split; [reflexivity|].
      intros c' Hc'. apply in_app_or in Hc'. destruct Hc' as [Hc'|[<-|[]]]; auto.
  - destruct ((distanceOf c >? 0)%float && (distanceOf c <? distanceOf b)%float) eqn:Htest.
    + right. exists (before ++ b :: after), c, [].
      apply andb_true_iff in Htest. destruct Htest as [Hposc Hltc].
      split; [reflexivity|]. split; [reflexivity|]. split; [exact Hposc|].
      split; [exact (FloatFacts.ltb_trans _ _ _ Hltc Hfin)|]. split; [|intros c' []].
      intros c' Hc' Hpos'. apply in_app_or in Hc'. destruct Hc' as [Hc'|[<-|Hc']].
      * exact (FloatFacts.ltb_trans _ _ _ Hltc (Hbefore c' Hc' Hpos')).
      * exact Hltc.
      * exact (FloatFacts.ltb_not_ltb_trans _ _ _ Hltc (Hafter c' Hc' Hpos') Hpos').
    + right. exists before, b, (after ++ [c]).
      split; [rewrite <- app_assoc; reflexivity|].
      split; [reflexivity|]. split; [exact Hpos|]. split; [exact Hfin|].
      split; [exact Hbefore|].
      intros c' Hc' Hpos'. apply in_app_or in Hc'. destruct Hc' as [Hc'|[<-|[]]].
      * exact (Hafter c' Hc' Hpos').
      * rewrite Hpos' in Htest. exact Htest.
Qed.

Lemma closestEndpoint_FirstBest (edge1 edge2 : Edge) :
  FirstBest (endpoints edge1 edge2) (closestEndpoint edge1 edge2).
Proof.
  unfold closestEndpoint, endpoints. cbv zeta.
  set (c1 := (edge1, bodyToWorld (getBody edge2) (locBody (getVertex1 edge2)))).
  set (c2 := (edge1, bodyToWorld (getBody edge2) (locBody (getVertex2 edge2)))).
  set (c3 := (edge2, bodyToWorld (getBody edge1) (locBody (getVertex1 edge1)))).
  set (c4 := (edge2, bodyToWorld (getBody edge1) (locBody (getVertex2 edge1)))).
  assert (H0 : FirstBest [] (None, None, POSITIVE_INFINITY)).
  { left. split; [reflexivity | intros c []]. }
  pose proof (FirstBest_consider [] _ c1 H0) as H1.
  pose proof (FirstBest_consider _ _ c2 H1) as H2.
  pose proof (FirstBest_consider _ _ c3 H2) as H3.
  pose proof (FirstBest_consider _ _ c4 H3) as H4.
  exact H4.
Qed.


End StraightStraight.

(** ** The helpers that are not among the sources *)

(** Modelled from the spec: [UtilEngine.linesIntersect] is not among the
    sources.  "Straight edges compute intersection via standard 2D
    line-segment intersection math"; the result is "a point lying within
    both segments' parameter range [0,1]", and there is none "for
    non-intersecting, non-collinear segments".  [segmentParameters] are the
    parameters [t] and [u] of the point where the line through [p1] and [p2]
    meets the line through [p3] and [p4]: that point is
    [p1 + t (p2 - p1) = p3 + u (p4 - p3)]. *)
Definition segmentParameters (p1 p2 p3 p4 : Vector) : number * number :=
  let rx := (getX p2 - getX p1)%float in
  let ry := (getY p2 - getY p1)%float in
  let sx := (getX p4 - getX p3)%float in
  let sy := (getY p4 - getY p3)%float in
  let qx := (getX p3 - getX p1)%float in
  let qy := (getY p3 - getY p1)%float in
  let d := (rx * sy - ry * sx)%float in
  ((qx * sy - qy * sx) / d, (qx * ry - qy * rx) / d)%float.

Definition inRange01 (t : number) : bool := ((0 <=? t) && (t <=? 1))%float.

Definition linesIntersect (p1 p2 p3 p4 : Vector) : option Vector :=
  let (t, u) := segmentParameters p1 p2 p3 p4 in
  if inRange01 t && inRange01 u
  then Some (add p1 (multiply (subtract p2 p1) t))
  else None.

(** Modelled from the spec: [UtilityCollision.addCollision] is not among
    the sources.  "If found, record a collision candidate at that point":
    the record is appended to the array. *)
Definition UtilityCollision_addCollision
    (collisions : list EdgeEdgeCollision) (rbc : EdgeEdgeCollision)
    : list EdgeEdgeCollision :=
  collisions ++ [rbc].


(** ** What [intersectionPossible] computes *)

(** An edge knows its index, or finds itself among the edges of its body. *)
Definition registered (e : Edge) : Prop :=
  index_ e <> (-1)%Z \/
  goog_array.indexOf Nat.eq_dec (getEdges_ (body_ e)) (edge_id e) <> (-1)%Z.

(** The index, the centroid in world coordinates and the centroid radius
    that the getters return for a registered edge. *)
Definition indexValue (e : Edge) : Z :=
  if (index_ e =? -1)%Z
  then goog_array.indexOf Nat.eq_dec (getEdges_ (body_ e)) (edge_id e)
  else index_ e.

Definition centroidWorldValue (e : Edge) : Vector :=
  match getEdgeCentroidWorld (body_ e) (indexValue e) with
  | Some v => v
  | None => bodyToWorld (body_ e) (centroid_body_ e)
  end.

Definition centroidRadiusValue (e : Edge) : number :=
  if isNaN (centroidRadius_ e)
  then (1.25 * maxDistanceTo e (centroid_body_ e))%float
  else centroidRadius_ e.

Lemma getCentroidRadius_value (e : Edge) :
  fst (getCentroidRadius e) = Normal (centroidRadiusValue e).
Proof.
  unfold getCentroidRadius, centroidRadiusValue.
  destruct (isNaN (centroidRadius_ e)); reflexivity.
Qed.

Lemma getIndex_value (e : Edge) :
  registered e ->
  exists e', getIndex e = (Normal (indexValue e), e') /\
             index_ e' = indexValue e /\ index_ e' <> (-1)%Z /\
             body_ e' = body_ e /\ centroid_body_ e' = centroid_body_ e /\
             centroidRadius_ e' = centroidRadius_ e /\ maxDistanceTo e' = maxDistanceTo e.
Proof.
  intros Hreg. unfold getIndex, indexValue.
  destruct (index_ e =? -1)%Z eqn:Hidx.
  - apply Z.eqb_eq in Hidx.
    destruct Hreg as [Hreg|Hreg]; [contradiction|].
    cbn [index_ set_index].
    destruct (goog_array.indexOf Nat.eq_dec (getEdges_ (body_ e)) (edge_id e) =? -1)%Z eqn:Hfound.
    + apply Z.eqb_eq in Hfound. contradiction.
    + eexists. split; [reflexivity|]. repeat split; assumption.
  - apply Z.eqb_neq in Hidx. exists e. repeat split; assumption.
Qed.

Lemma getCentroidWorld_value (e : Edge) :
  registered e ->
  exists e', getCentroidWorld e = (Normal (centroidWorldValue e), e') /\
             centroidRadiusValue e' = centroidRadiusValue e.
Proof.
  intros Hreg. unfold getCentroidWorld, centroidWorldValue.
  destruct (getIndex_value e Hreg) as (e1 & Hget & Hidx & Hne & Hbody & Hcen & Hrad & Hmax).
  unfold bind at 1. rewrite Hget.
  unfold bind at 1, gets at 1. rewrite Hbody.
  destruct (getEdgeCentroidWorld (body_ e) (indexValue e)) as [v|].
  - exists e1. split; [reflexivity|].
    unfold centroidRadiusValue. rewrite Hrad, Hmax, Hcen. reflexivity.
  - assert (Hreg1 : registered e1) by (left; exact Hne).
    destruct (getIndex_value e1 Hreg1) as (e2 & Hget2 & _ & _ & Hbody2 & Hcen2 & Hrad2 & Hmax2).
    unfold bind at 1, gets at 1. unfold bind at 1. rewrite Hget2.
    unfold bind, modify, ret. eexists. split.
    + rewrite Hbody, Hcen. reflexivity.
    + unfold centroidRadiusValue. cbn. rewrite Hrad2, Hmax2, Hcen2, Hrad, Hmax, Hcen.
      reflexivity.
Qed.

(** The boolean that [this.intersectionPossible(edge, swellage)] returns. *)
Lemma intersectionPossible_value (this edge : Edge) (swellage : number) :
  registered this -> registered edge ->
  fst (intersectionPossible swellage (this, edge)) =
    Normal (lengthSquared (subtract (centroidWorldValue this) (centroidWorldValue edge))
              <? square (centroidRadiusValue edge + centroidRadiusValue this + swellage))%float.
Proof.
  intros Hthis Hedge.
  destruct (getCentroidWorld_value this Hthis) as (this1 & Hc1 & Hr1).
  destruct (getCentroidWorld_value edge Hedge) as (edge1 & Hc2 & Hr2).
  pose proof (getCentroidRadius_value edge1) as Hre.
  pose proof (getCentroidRadius_value this1) as Hrt.
  unfold intersectionPossible.
  unfold bind at 1. unfold onThis at 1. cbn [fst snd]. rewrite Hc1.
  unfold bind at 1. unfold onEdge at 1. cbn [fst snd]. rewrite Hc2.
  unfold bind at 1. unfold onEdge at 1. cbn [fst snd].
  destruct (getCentroidRadius edge1) as [re edge2]. cbn [fst] in Hre. subst re.
  unfold bind at 1. unfold onThis at 1. cbn [fst snd].
  destruct (getCentroidRadius this1) as [rt this2]. cbn [fst] in Hrt. subst rt.
  unfold ret. cbn [fst]. rewrite Hr1, Hr2. reflexivity.
Qed.

(** C2 (amended).  For two registered edges, [intersectionPossible] returns
    true exactly when the squared distance of the two centroids in world
    coordinates is below the square of the sum of the two centroid radii
    and the swell; a centroid radius that is not yet cached is computed as
    1.25 times [maxDistanceTo] of the centroid.  When that squared distance
    is a finite number and the sum of the radii is a number other than
    [-Infinity], there is a swell [>= 0] for which the test returns true. *)
Theorem intersectionPossible_test (this edge : Edge) :
  registered this -> registered edge ->
  let dist := lengthSquared (subtract (centroidWorldValue this) (centroidWorldValue edge)) in
  let radii := (centroidRadiusValue edge + centroidRadiusValue this)%float in
  (forall swellage,
     fst (intersectionPossible swellage (this, edge)) =
       Normal (dist <? square (radii + swellage))%float) /\
  (forall e : Edge,
     isNaN (centroidRadius_ e) = true ->
     fst (getCentroidRadius e) = Normal (1.25 * maxDistanceTo e (centroid_body_ e))%float) /\
  ((dist <? POSITIVE_INFINITY)%float = true ->
   (neg_infinity <? radii)%float = true ->
   exists swell,
     (swell >=? 0)%float = true /\
     fst (intersectionPossible swell (this, edge)) = Normal true).
Proof.
  intros Hthis Hedge dist radii. split; [|split].
  - intros swellage. apply intersectionPossible_value; assumption.
  - intros e Hnan. rewrite getCentroidRadius_value. unfold centroidRadiusValue.
    rewrite Hnan. reflexivity.
  - intros Hfinite Hradii. exists POSITIVE_INFINITY. split; [reflexivity|].
    rewrite intersectionPossible_value by assumption.
    fold dist radii. unfold POSITIVE_INFINITY in *.
    rewrite (FloatFacts.add_infinity_r radii Hradii).
    unfold square. change (infinity * infinity)%float with infinity.
    rewrite Hfinite. reflexivity.
Qed.

(** ** The broad-phase test, whichever edge is asked *)

(** X16.  [intersectionPossible] gives the same answer whichever of the
    two edges it is called on: [this.intersectionPossible(edge, swellage)]
    and [edge.intersectionPossible(this, swellage)] return the same boolean,
    in floating-point arithmetic as it is. *)
Theorem intersectionPossible_symmetric (this edge : Edge) (swellage : number) :
  registered this -> registered edge ->
  fst (intersectionPossible swellage (this, edge)) =
  fst (intersectionPossible swellage (edge, this)).
Proof.
  intros Hthis Hedge.
  rewrite (intersectionPossible_value this edge swellage Hthis Hedge).
  rewrite (intersectionPossible_value edge this swellage Hedge Hthis).
  unfold lengthSquared, subtract. cbn [getX getY].
  rewrite (FloatFacts.square_sub_swap (getX (centroidWorldValue this))
             (getX (centroidWorldValue edge))).
  rewrite (FloatFacts.square_sub_swap (getY (centroidWorldValue this))
             (getY (centroidWorldValue edge))).
  rewrite (FloatFacts.add_comm (centroidRadiusValue edge) (centroidRadiusValue this)).
  reflexivity.
Qed.

(** X17.  An edge that does not know its index and is not among the edges
    of its body cannot be tested: [getIndex], [getCentroidWorld] and
    [intersectionPossible] (on either side) throw an [Error] without
    message, and the index of the edge stays -1. *)
Theorem intersectionPossible_needs_registered_edges (this edge : Edge) (swellage : number) :
  (~ registered this ->
   fst (getIndex this) = Throw (mkError ""%string) /\
   index_ (snd (getIndex this)) = (-1)%Z /\
   fst (getCentroidWorld this) = Throw (mkError ""%string) /\
   fst (intersectionPossible swellage (this, edge)) = Throw (mkError ""%string)) /\
  (registered this -> ~ registered edge ->
   fst (intersectionPossible swellage (this, edge)) = Throw (mkError ""%string)).
Proof.
  assert (Hindex : forall e, ~ registered e ->
            getIndex e = (Throw (mkError ""%string), set_index (-1) e)).
  { intros e Hnot. unfold registered in Hnot. unfold getIndex.
    destruct (Z.eq_dec (index_ e) (-1)) as [Heq|Hne]; [|tauto].
    destruct (Z.eq_dec (goog_array.indexOf Nat.eq_dec (getEdges_ (body_ e)) (edge_id e)) (-1))
      as [Hfound|Hfound]; [|tauto].
    rewrite Heq. cbn [Z.eqb]. cbn [index_ set_index]. rewrite Hfound. reflexivity. }
  assert (Hcentroid : forall e, ~ registered e ->
            fst (getCentroidWorld e) = Throw (mkError ""%string)).
  { intros e Hnot. unfold getCentroidWorld. unfold bind at 1.
    rewrite (Hindex e Hnot). reflexivity. }
  split.
  - intros Hnot. rewrite (Hindex this Hnot). split; [reflexivity|]. split; [reflexivity|].
    split; [exact (Hcentroid this Hnot)|].
    unfold intersectionPossible. unfold bind at 1. unfold onThis at 1. cbn [fst snd].
    pose proof (Hcentroid this Hnot) as H.
    destruct (getCentroidWorld this) as [c this']. cbn [fst] in H. subst c. reflexivity.
  - intros Hthis Hnot.
    destruct (getCentroidWorld_value this Hthis) as (this1 & Hc1 & _).
    unfold intersectionPossible. unfold bind at 1. unfold onThis at 1. cbn [fst snd].
    rewrite Hc1. unfold bind at 1. unfold onEdge at 1. cbn [fst snd].
    pose proof (Hcentroid edge Hnot) as H.
    destruct (getCentroidWorld edge) as [c edge']. cbn [fst] in H. subst c. reflexivity.
Qed.

(** ** Concrete edges

    Straight segments of bodies that rest at the origin without rotation,
    so that body and world coordinates agree.  A segment from [a] to [b]
    with outward unit normal [n] measures the distance of [p] to its line
    along [n], and its largest distance to [p] is reached at an end. *)

Definition atRest (id : nat) (edges : list nat) : Polygon :=
  mkPolygon id (mkVector 0 0) (fun p => p) (fun p => p) edges (fun _ => None).

Definition dot (a b : Vector) : number := (getX a * getX b + getY a * getY b)%float.

Definition larger (a b : number) : number := if (a <? b)%float then b else a.

Definition segment (id : nat) (body : Polygon) (a b n : Vector) : Edge :=
  AbstractEdge id body (mkVertex a) (mkVertex b)
    (fun p => dot (subtract p a) n)
    (fun _ => n)
    (fun p => sqrt (larger (lengthSquared (subtract p a)) (lengthSquared (subtract p b)))).

(** The top of a floor, from (0,0) to (10,0), facing up. *)
Definition floorTop : Edge :=
  segment 0 (atRest 1 [0]) (mkVector 0 0) (mkVector 10 0) (mkVector 0 1).

(** The left side of a block, from (4,1.875) down to (4,-0.125): it crosses
    the floor in (4,0). *)
Definition blockSide : Edge :=
  segment 0 (atRest 2 [0]) (mkVector 4 1.875) (mkVector 4 (-0.125)) (mkVector (-1) 0).

(** The bottom of a block that hovers 1/1024 above the floor, facing down. *)
Definition hovering : Edge :=
  segment 0 (atRest 2 [0]) (mkVector 4 0x1p-10) (mkVector 6 0x1p-10) (mkVector 0 (-1)).

(** The bottom of a block that sank below the floor, facing down. *)
Definition sunken : Edge :=
  segment 0 (atRest 2 [0]) (mkVector 4 (-1)) (mkVector 6 (-1)) (mkVector 0 (-1)).

(** A very long edge from (0,0) to (2^513,0), and a short one from (0,-1)
    to (0,1) that crosses it in the origin; their abstract methods are left
    open. *)
Definition longEdge (distanceToLine : Vector -> number) (getNormalBody : Vector -> Vector)
    (maxDistanceTo : Vector -> number) : Edge :=
  AbstractEdge 0 (atRest 1 [0]) (mkVertex (mkVector 0 0)) (mkVertex (mkVector 0x1p513 0))
    distanceToLine getNormalBody maxDistanceTo.

Definition shortEdge (distanceToLine : Vector -> number) (getNormalBody : Vector -> Vector)
    (maxDistanceTo : Vector -> number) : Edge :=
  AbstractEdge 0 (atRest 2 [0]) (mkVertex (mkVector 0 (-1))) (mkVertex (mkVector 0 1))
    distanceToLine getNormalBody maxDistanceTo.

Definition noVelocity (rbc : EdgeEdgeCollision) : number := 0%float.

(** The floor and the hovering block do not intersect; the closest endpoint
    is the block's corner (4,1/1024), at distance 1/1024 from the floor's
    line, and the normal is the floor's. *)
Example improveAccuracy_hovering :
  improveAccuracy linesIntersect (EdgeEdgeCollision_new floorTop hovering) floorTop hovering =
    Normal (set_impact (mkVector 4 0x1p-10) (mkVector 4 0x1p-10) (mkVector 4 0x1p-10)
              (mkVector 0 1)
              (set_distance 0x1p-10 (EdgeEdgeCollision_new floorTop hovering))).
Proof. vm_compute. reflexivity. Qed.


(** The top of a floor that lies at height -2^1023, and the bottom of a
    block at height 2^1023: the edges are parallel, and the difference of
    the heights is beyond the largest number. *)
Definition deepFloor : Edge :=
  segment 0 (atRest 1 [0]) (mkVector 0 (-0x1p1023)) (mkVector 10 (-0x1p1023)) (mkVector 0 1).

Definition highBlock : Edge :=
  segment 0 (atRest 2 [0]) (mkVector 4 0x1p1023) (mkVector 6 0x1p1023) (mkVector 0 (-1)).



(** Witness of [testCollision_without_intersection]. *)
Lemma testCollision_without_intersection_witness :
  testCollision linesIntersect UtilityCollision_addCollision false noVelocity
    [] floorTop hovering 0 = [].
Proof.
  apply (testCollision_without_intersection linesIntersect UtilityCollision_addCollision
           false noVelocity [] floorTop hovering 0%float).
  vm_compute. reflexivity.
Defined.

(** C6 as stated fails: the bottom of the block hovers 1/1024 above the
    floor, nearer than a contact distance tolerance of 0.01; the closest
    endpoint is at that distance from the floor's line; the edges do not
    intersect; and [testCollision] adds no record at all. *)
Lemma testCollision_near_miss_counterexample :
  intersect linesIntersect floorTop hovering = None /\
  snd (closestEndpoint floorTop hovering) = 0x1p-10%float /\
  (0x1p-10 <=? 0.01)%float = true /\
  testCollision linesIntersect UtilityCollision_addCollision false noVelocity
    [] floorTop hovering 0 = [].
Proof.
  repeat split; vm_compute; reflexivity.
Qed.


(** The bottom of a block that lies on the floor, from (5,0) to (15,0). *)
Definition lying : Edge :=
  segment 0 (atRest 2 [0]) (mkVector 5 0) (mkVector 15 0) (mkVector 0 (-1)).


(** Witness of [intersectionPossible_test]: the floor and the side of the
    block pass the test without any swell. *)
Lemma intersectionPossible_test_witness :
  fst (intersectionPossible 0 (floorTop, blockSide)) = Normal true.
Proof.
  destruct (intersectionPossible_test floorTop blockSide
              ltac:(right; vm_compute; discriminate) ltac:(right; vm_compute; discriminate))
    as [Hvalue _].
  rewrite Hvalue. vm_compute. reflexivity.
Defined.

(** C2 as stated fails when the arithmetic overflows: the long and the
    short edge cross in the origin, and [linesIntersect] finds that point;
    but their centroids are 2^512 apart, the square of which is
    [Infinity], and no number is above [Infinity]: the test returns false
    for every swell, whatever the abstract methods of the two edges
    return. *)
Lemma intersectionPossible_overflow_counterexample :
  linesIntersect (mkVector 0 0) (mkVector 0x1p513 0) (mkVector 0 (-1)) (mkVector 0 1)
    = Some (mkVector 0 0) /\
  forall (d1 d2 : Vector -> number) (n1 n2 : Vector -> Vector) (m1 m2 : Vector -> number)
         (swell : number),
    intersect linesIntersect (longEdge d1 n1 m1) (shortEdge d2 n2 m2) = Some (mkVector 0 0) /\
    fst (intersectionPossible swell (longEdge d1 n1 m1, shortEdge d2 n2 m2)) = Normal false.
Proof.
  split; [vm_compute; reflexivity|].
  intros d1 d2 n1 n2 m1 m2 swell.
  split; [vm_compute; reflexivity|].
  rewrite intersectionPossible_value
    by (right; vm_compute; discriminate).
  assert (Hdist : lengthSquared (subtract (centroidWorldValue (longEdge d1 n1 m1))
                                   (centroidWorldValue (shortEdge d2 n2 m2))) = infinity)
    by (vm_compute; reflexivity).
  rewrite Hdist, FloatFacts.ltb_infinity_l. reflexivity.
Qed.

(** Witness of [improveAccuracy_keeps_the_record_consistent]: the floor and
    the hovering block. *)
Lemma improveAccuracy_keeps_the_record_consistent_witness :
  exists rbc',
    improveAccuracy linesIntersect (EdgeEdgeCollision_new floorTop hovering) floorTop hovering
      = Normal rbc' /\
    r1 rbc' = subtract (impact1 rbc') (getPosition (getBody floorTop)) /\
    (distance rbc' >? 0)%float = true.
Proof.
  eexists. split; [apply improveAccuracy_hovering|].
  destruct (improveAccuracy_keeps_the_record_consistent linesIntersect
              (EdgeEdgeCollision_new floorTop hovering) _ floorTop hovering
              improveAccuracy_hovering)
    as (Hr1 & _ & _ & Hdistance).
  split; [exact Hr1|].
  assert (Hpt : intersect linesIntersect floorTop hovering = None)
    by (vm_compute; reflexivity).
  rewrite Hpt in Hdistance. apply Hdistance.
Defined.

(** Witness of [intersectionPossible_symmetric]: the floor and the side of
    the block. *)
Lemma intersectionPossible_symmetric_witness :
  fst (intersectionPossible 0 (floorTop, blockSide)) =
  fst (intersectionPossible 0 (blockSide, floorTop)).
Proof.
  apply (intersectionPossible_symmetric floorTop blockSide 0%float);
    right; vm_compute; discriminate.
Defined.

(** An edge that its body does not list. *)
Definition strayEdge : Edge :=
  segment 5 (atRest 2 [0]) (mkVector 4 1.875) (mkVector 4 (-0.125)) (mkVector (-1) 0).

(** Witness of [intersectionPossible_needs_registered_edges]. *)
Lemma intersectionPossible_needs_registered_edges_witness :
  fst (intersectionPossible 0 (strayEdge, floorTop)) = Throw (mkError ""%string) /\
  fst (intersectionPossible 0 (floorTop, strayEdge)) = Throw (mkError ""%string).
Proof.
  assert (Hstray : ~ registered strayEdge).
  { intros [H|H]; apply H; vm_compute; reflexivity. }
  assert (Hfloor : registered floorTop) by (right; vm_compute; discriminate).
  split.
  - apply (proj1 (intersectionPossible_needs_registered_edges strayEdge floorTop 0%float)).
    exact Hstray.
  - apply (proj2 (intersectionPossible_needs_registered_edges floorTop strayEdge 0%float));
      assumption.
Defined.


End Engine2D.

(* ------------------------------------------------------------------ *)
(** * lab/model/SimList.js                                              *)
(* ------------------------------------------------------------------ *)

Module SimListModel.

Section SimList.

(** A [SimObject] is a reference to an object; two references are equal
    when they are the same object.  [SimObject] is an interface: its
    methods [getExpireTime] and [similar] are given by the implementing
    classes, which are not part of these sources. *)
Variable SimObject : Type.
Variable SimObject_eq_dec : forall a b : SimObject, {a = b} + {a <> b}.
Variable getExpireTime : SimObject -> number.
(** [similar obj simObj tol] is [obj.similar(simObj, tol)]. *)
Variable similar : SimObject -> SimObject -> number -> bool.

(** The events a SimList broadcasts, with the SimObject they carry. *)
Inductive GenericEvent : Type :=
| OBJECT_ADDED (obj : SimObject)
| OBJECT_MODIFIED (obj : SimObject)
| OBJECT_REMOVED (obj : SimObject).

(** The SimList object.  [broadcasts_] is the sequence of events handed to
    [AbstractSubject.broadcast] so far (the observers are outside of these
    sources; what reaches them is recorded in order). *)
Record SimList : Type := mkSimList {
  elements_ : list SimObject;
  tolerance_ : number;
  broadcasts_ : list GenericEvent
}.

(** The constructor. *)
Definition new : SimList :=
  {| elements_ := []; tolerance_ := 0.1%float; broadcasts_ := [] |}.

Definition broadcast (evt : GenericEvent) (this : SimList) : SimList :=
  {| elements_ := elements_ this;
     tolerance_ := tolerance_ this;
     broadcasts_ := broadcasts_ this ++ [evt] |}.

Definition set_elements (arr : list SimObject) (this : SimList) : SimList :=
  {| elements_ := arr;
     tolerance_ := tolerance_ this;
     broadcasts_ := broadcasts_ this |}.

Definition contains (this : SimList) (simObj : SimObject) : bool :=
  goog_array.contains SimObject_eq_dec (elements_ this) simObj.

Definition getTolerance (this : SimList) : number := tolerance_ this.

Definition setTolerance (tolerance : number) (this : SimList) : SimList :=
  {| elements_ := elements_ this;
     tolerance_ := tolerance;
     broadcasts_ := broadcasts_ this |}.

(** [getSimilar(simObj, tolerance)]; [None] for [tolerance] is the omitted
    argument. *)
Definition getSimilar (this : SimList) (simObj : SimObject)
    (tolerance : option number) : option SimObject :=
  let tol := match tolerance with
             | None => tolerance_ this
             | Some t => t
             end in
  goog_array.find (elements_ this) (fun obj => similar obj simObj tol).

Definition remove (simObj : SimObject) (this : SimList) : SimList :=
  let (removed, arr) := goog_array.remove SimObject_eq_dec (elements_ this) simObj in
  if removed
  then broadcast (OBJECT_REMOVED simObj) (set_elements arr this)
  else this.

Fixpoint removeAll (objList : list SimObject) (this : SimList) : SimList :=
  match objList with
  | [] => this
  | obj :: rest => removeAll rest (remove obj this)
  end.

Definition toArray (this : SimList) : list SimObject := elements_ this.

Definition clear (this : SimList) : SimList := removeAll (toArray this) this.

(** An element found by [goog.array.find] is removed by [goog.array.remove],
    so the array gets shorter: the loop of [add] terminates. *)
Lemma find_remove_shorter (f : SimObject -> bool) (arr : list SimObject) (x : SimObject) :
  goog_array.find arr f = Some x ->
  fst (goog_array.remove SimObject_eq_dec arr x) = true /\
  S (length (snd (goog_array.remove SimObject_eq_dec arr x))) = length arr.
Proof.
  unfold goog_array.find.
  induction arr as [|a rest IH]; simpl; intros Hfind.
  - discriminate.
  - destruct (SimObject_eq_dec a x) as [->|Hne]; simpl.
    + split; reflexivity.
    + destruct (f a).
      * congruence.
      * destruct (IH Hfind) as [Hfst Hlen].
        destruct (goog_array.remove SimObject_eq_dec rest x) as [found rest'].
        simpl in *. split; [assumption | now rewrite Hlen].
Qed.

Lemma remove_similar_shorter (this : SimList) (element sim : SimObject) :
  getSimilar this element None = Some sim ->
  length (elements_ (remove sim this)) < length (elements_ this).
Proof.
  unfold getSimilar, remove. intros Hfind.
  destruct (find_remove_shorter _ _ _ Hfind) as [Hfst Hlen].
  destruct (goog_array.remove SimObject_eq_dec (elements_ this) sim) as [found arr].
  simpl in *. subst found. simpl. lia.
Qed.

(** The loop [while (similar = this.getSimilar(element)) this.remove(similar)]
    of [add]. *)
Equations removeSimilar (element : SimObject) (this : SimList) : SimList
  by wf (length (elements_ this)) lt :=
removeSimilar element this with Logic.inspect (getSimilar this element None) := {
  | exist _ (Some sim) Hsim => removeSimilar element (remove sim this)
  | exist _ None _ => this }.
Next Obligation.
  apply remove_similar_shorter with (element := element). assumption.
Qed.

(** The body of the [for] loop of [add], for one argument; [None] is a
    [null] or [undefined] argument. *)
Definition add1 (arg : option SimObject) (this : SimList) : Completion unit * SimList :=
  match arg with
  | None => (Throw (mkError "cannot add invalid SimObject"%string), this)
  | Some element =>
      let expire := getExpireTime element in
      let this1 := if isFinite expire then removeSimilar element this else this in
      if negb (goog_array.contains SimObject_eq_dec (elements_ this1) element)
      then (Normal tt,
            broadcast (OBJECT_ADDED element)
              (set_elements (elements_ this1 ++ [element]) this1))
      else (Normal tt, this1)
  end.

(** [add(simObjs...)]: the arguments are handled from left to right; a
    throw leaves the list as the earlier arguments made it. *)
Fixpoint add (arguments : list (option SimObject)) (this : SimList)
    : Completion unit * SimList :=
  match arguments with
  | [] => (Normal tt, this)
  | arg :: rest =>
      match add1 arg this with
      | (Normal _, this') => add rest this'
      | (failed, this') => (failed, this')
      end
  end.

(** [addAll(objList)] calls [add] with one argument per element. *)
Fixpoint addAll (objList : list (option SimObject)) (this : SimList)
    : Completion unit * SimList :=
  match objList with
  | [] => (Normal tt, this)
  | obj :: rest =>
      match add [obj] this with
      | (Normal _, this') => addAll rest this'
      | (failed, this') => (failed, this')
      end
  end.

(** [removeTemporary(time)]: the loop runs from the last index down to 0;
    [removeTemporaryFrom n] handles the indices below [n]. *)
Fixpoint removeTemporaryFrom (n : nat) (time : number) (this : SimList) : SimList :=
  match n with
  | O => this
  | S i =>
      match nth_error (elements_ this) i with
      | Some simobj =>
          if (getExpireTime simobj <? time)%float
          then removeTemporaryFrom i time
                 (broadcast (OBJECT_REMOVED simobj)
                    (set_elements (goog_array.splice1 (elements_ this) i) this))
          else removeTemporaryFrom i time this
      | None => removeTemporaryFrom i time this
      end
  end.

Definition removeTemporary (time : number) (this : SimList) : SimList :=
  removeTemporaryFrom (length (elements_ this)) time this.

(** The calls a client can make on a SimList that change its elements. *)
Inductive Operation : Type :=
| OpAdd (simObjs : list (option SimObject))
| OpAddAll (objList : list (option SimObject))
| OpRemove (simObj : SimObject)
| OpRemoveAll (objList : list SimObject)
| OpRemoveTemporary (time : number)
| OpClear.

(** The list after one call; a call that throws leaves the list as it was
    when the error was thrown. *)
Definition perform (op : Operation) (this : SimList) : SimList :=
  match op with
  | OpAdd simObjs => snd (add simObjs this)
  | OpAddAll objList => snd (addAll objList this)
  | OpRemove simObj => remove simObj this
  | OpRemoveAll objList => removeAll objList this
  | OpRemoveTemporary time => removeTemporary time this
  | OpClear => clear this
  end.

Definition performAll (ops : list Operation) (this : SimList) : SimList :=
  fold_left (fun s op => perform op s) ops this.

(** ** Facts about the array functions *)

Lemma contains_true (arr : list SimObject) (x : SimObject) :
  goog_array.contains SimObject_eq_dec arr x = true <-> In x arr.
Proof.
  unfold goog_array.contains.
  destruct (in_dec SimObject_eq_dec x arr); split; intros; try easy.
Qed.

Lemma contains_false (arr : list SimObject) (x : SimObject) :
  goog_array.contains SimObject_eq_dec arr x = false <-> ~ In x arr.
Proof.
  unfold goog_array.contains.
  destruct (in_dec SimObject_eq_dec x arr); split; intros; try easy.
Qed.

Lemma array_remove_found (arr : list SimObject) (x : SimObject) :
  fst (goog_array.remove SimObject_eq_dec arr x) = true <-> In x arr.
Proof.
  induction arr as [|a rest IH]; simpl.
  - split; [discriminate | tauto].
  - destruct (SimObject_eq_dec a x) as [->|Hne]; simpl.
    + split; auto.
    + destruct (goog_array.remove SimObject_eq_dec rest x) as [found rest'].
      simpl in *. rewrite IH. split; [auto | intros [H|H]; [contradiction | exact H]].
Qed.

Lemma array_remove_absent (arr : list SimObject) (x : SimObject) :
  ~ In x arr -> goog_array.remove SimObject_eq_dec arr x = (false, arr).
Proof.
  induction arr as [|a rest IH]; simpl; intros Hnot.
  - reflexivity.
  - destruct (SimObject_eq_dec a x) as [->|Hne].
    + exfalso. apply Hnot. now left.
    + rewrite IH by tauto. reflexivity.
Qed.

Lemma array_remove_subset (arr : list SimObject) (x y : SimObject) :
  In y (snd (goog_array.remove SimObject_eq_dec arr x)) -> In y arr.
Proof.
  induction arr as [|a rest IH]; simpl.
  - tauto.
  - destruct (SimObject_eq_dec a x) as [->|Hne]; simpl.
    + auto.
    + destruct (goog_array.remove SimObject_eq_dec rest x) as [found rest'].
      simpl in *. intros [H|H]; [left; exact H | right; exact (IH H)].
Qed.

Lemma array_remove_NoDup (arr : list SimObject) (x : SimObject) :
  NoDup arr -> NoDup (snd (goog_array.remove SimObject_eq_dec arr x)).
Proof.
  induction 1 as [|a rest Hnotin Hnodup IH]; simpl.
  - constructor.
  - destruct (SimObject_eq_dec a x) as [->|Hne]; simpl.
    + exact Hnodup.
    + pose proof (array_remove_subset rest x a) as Hsub.
      destruct (goog_array.remove SimObject_eq_dec rest x) as [found rest'].
      simpl in *. constructor; [tauto | exact IH].
Qed.

Lemma splice1_subset (arr : list SimObject) (i : nat) (y : SimObject) :
  In y (goog_array.splice1 arr i) -> In y arr.
Proof.
  revert i. induction arr as [|a rest IH]; intros [|j]; simpl; auto.
  intros [H|H]; [left; exact H | right; exact (IH _ H)].
Qed.

Lemma splice1_NoDup (arr : list SimObject) (i : nat) :
  NoDup arr -> NoDup (goog_array.splice1 arr i).
Proof.
  intros Hnodup. revert i.
  induction Hnodup as [|a rest Hnotin Hnodup IH]; intros [|j]; simpl;
    try constructor; auto.
  intros Hin. apply Hnotin. exact (splice1_subset _ _ _ Hin).
Qed.

(** The first element that satisfies [f] is the one [goog.array.remove]
    takes out: the elements satisfying [f] lose their head, the others stay. *)
Lemma find_remove_filter (f : SimObject -> bool) (arr : list SimObject) (x : SimObject) :
  goog_array.find arr f = Some x ->
  filter f arr = x :: filter f (snd (goog_array.remove SimObject_eq_dec arr x)) /\
  filter (fun a => negb (f a)) (snd (goog_array.remove SimObject_eq_dec arr x))
    = filter (fun a => negb (f a)) arr.
Proof.
  unfold goog_array.find.
  induction arr as [|a rest IH]; simpl; intros Hfind.
  - discriminate.
  - destruct (f a) eqn:Hfa.
    + injection Hfind as ->.
      destruct (SimObject_eq_dec x x) as [_|Hne]; [|contradiction].
      simpl. split; reflexivity.
    + destruct (SimObject_eq_dec a x) as [->|Hne].
      * apply find_some in Hfind. destruct Hfind as [_ Hfx]. congruence.
      * destruct (IH Hfind) as [Hyes Hno].
        destruct (goog_array.remove SimObject_eq_dec rest x) as [found rest'].
        simpl in *. rewrite Hfa. simpl. rewrite Hno. split; [exact Hyes | reflexivity].
Qed.

Lemma find_none_filter (f : SimObject -> bool) (arr : list SimObject) :
  goog_array.find arr f = None ->
  filter f arr = [] /\ filter (fun a => negb (f a)) arr = arr.
Proof.
  unfold goog_array.find.
  induction arr as [|a rest IH]; simpl; intros Hfind.
  - split; reflexivity.
  - destruct (f a) eqn:Hfa; [discriminate|].
    destruct (IH Hfind) as [Hyes Hno]. simpl. rewrite Hno. split; [exact Hyes | reflexivity].
Qed.

(** ** What the methods do to the list *)

Lemma remove_present (simObj : SimObject) (this : SimList) :
  In simObj (elements_ this) ->
  remove simObj this =
    {| elements_ := snd (goog_array.remove SimObject_eq_dec (elements_ this) simObj);
       tolerance_ := tolerance_ this;
       broadcasts_ := broadcasts_ this ++ [OBJECT_REMOVED simObj] |}.
Proof.
  intros Hin. unfold remove.
  apply array_remove_found in Hin.
  destruct (goog_array.remove SimObject_eq_dec (elements_ this) simObj) as [found arr].
  simpl in Hin. subst found. reflexivity.
Qed.

Lemma remove_absent (simObj : SimObject) (this : SimList) :
  ~ In simObj (elements_ this) -> remove simObj this = this.
Proof.
  intros Hnot. unfold remove. rewrite array_remove_absent by assumption. reflexivity.
Qed.

Lemma remove_tolerance (simObj : SimObject) (this : SimList) :
  tolerance_ (remove simObj this) = tolerance_ this.
Proof.
  unfold remove.
  destruct (goog_array.remove SimObject_eq_dec (elements_ this) simObj) as [[|] arr];
    reflexivity.
Qed.

(** The loop of [add] removes exactly the elements similar to [element], in
    the order of the list, with one [OBJECT_REMOVED] for each. *)
Lemma removeSimilar_spec (element : SimObject) (this : SimList) :
  removeSimilar element this =
    {| elements_ :=
         filter (fun obj => negb (similar obj element (tolerance_ this))) (elements_ this);
       tolerance_ := tolerance_ this;
       broadcasts_ :=
         broadcasts_ this
           ++ map OBJECT_REMOVED
                (filter (fun obj => similar obj element (tolerance_ this)) (elements_ this)) |}.
Proof.
  funelim (removeSimilar element this).
  - (* an element [sim] was found and removed; the loop goes on *)
    match goal with
    | IH : removeSimilar _ _ = mkSimList _ _ _ |- _ => rewrite IH
    end.
    rewrite remove_tolerance.
    pose proof Hsim as Hfind. unfold getSimilar in Hfind.
    destruct (find_remove_filter _ _ _ Hfind) as [Hyes Hno].
    assert (Hin : In sim (elements_ this)).
    { apply find_some in Hfind. tauto. }
    rewrite (remove_present _ _ Hin). simpl.
    rewrite Hno, Hyes. simpl. rewrite <- app_assoc. reflexivity.
  - (* no similar element is left *)
    match goal with H : getSimilar _ _ _ = None |- _ =>
      unfold getSimilar in H; destruct (find_none_filter _ _ H) as [Hyes Hno] end.
    rewrite Hyes, Hno. simpl. rewrite app_nil_r. destruct this; reflexivity.
Qed.

(** [kept element this] is the list as the loop of [add] leaves it, before
    [element] itself is pushed. *)
Definition kept (element : SimObject) (this : SimList) : SimList :=
  if isFinite (getExpireTime element) then removeSimilar element this else this.

Lemma add1_pushes_when_absent (element : SimObject) (this : SimList) :
  ~ In element (elements_ (kept element this)) ->
  add1 (Some element) this =
    (Normal tt,
     {| elements_ := elements_ (kept element this) ++ [element];
        tolerance_ := tolerance_ (kept element this);
        broadcasts_ := broadcasts_ (kept element this) ++ [OBJECT_ADDED element] |}).
Proof.
  intros Hnot. apply contains_false in Hnot.
  unfold add1, kept in *. rewrite Hnot. reflexivity.
Qed.

Lemma add1_keeps_when_present (element : SimObject) (this : SimList) :
  In element (elements_ (kept element this)) ->
  add1 (Some element) this = (Normal tt, kept element this).
Proof.
  intros Hin. apply contains_true in Hin.
  unfold add1, kept in *. rewrite Hin. reflexivity.
Qed.

Lemma add_app (l1 l2 : list (option SimObject)) (this : SimList) :
  add (l1 ++ l2) this =
    match add l1 this with
    | (Normal _, this') => add l2 this'
    | (failed, this') => (failed, this')
    end.
Proof.
  revert this. induction l1 as [|arg rest IH]; intros this; simpl.
  - reflexivity.
  - destruct (add1 arg this) as [[[]|e|] this']; [apply IH | reflexivity | reflexivity].
Qed.

(** ** The elements stay free of duplicates *)

Lemma remove_NoDup (simObj : SimObject) (this : SimList) :
  NoDup (elements_ this) -> NoDup (elements_ (remove simObj this)).
Proof.
  intros Hnodup. unfold remove.
  pose proof (array_remove_NoDup (elements_ this) simObj Hnodup) as H.
  destruct (goog_array.remove SimObject_eq_dec (elements_ this) simObj) as [[|] arr];
    simpl in *; assumption.
Qed.

Lemma removeAll_NoDup (objList : list SimObject) (this : SimList) :
  NoDup (elements_ this) -> NoDup (elements_ (removeAll objList this)).
Proof.
  revert this. induction objList as [|obj rest IH]; intros this Hnodup; simpl.
  - exact Hnodup.
  - apply IH. apply remove_NoDup. exact Hnodup.
Qed.

Lemma kept_NoDup (element : SimObject) (this : SimList) :
  NoDup (elements_ this) -> NoDup (elements_ (kept element this)).
Proof.
  intros Hnodup. unfold kept.
  destruct (isFinite (getExpireTime element)); [|exact Hnodup].
  rewrite removeSimilar_spec. simpl. apply NoDup_filter. exact Hnodup.
Qed.

Lemma add1_NoDup (arg : option SimObject) (this : SimList) :
  NoDup (elements_ this) -> NoDup (elements_ (snd (add1 arg this))).
Proof.
  intros Hnodup. destruct arg as [element|]; [|exact Hnodup].
  pose proof (kept_NoDup element this Hnodup) as Hkept.
  destruct (in_dec SimObject_eq_dec element (elements_ (kept element this))) as [Hin|Hnot].
  - rewrite add1_keeps_when_present by assumption. exact Hkept.
  - rewrite add1_pushes_when_absent by assumption. simpl.
    apply NoDup_app; [exact Hkept | repeat constructor; simpl; tauto |].
    intros x Hx [<-|[]]. exact (Hnot Hx).
Qed.

Lemma add_NoDup (simObjs : list (option SimObject)) (this : SimList) :
  NoDup (elements_ this) -> NoDup (elements_ (snd (add simObjs this))).
Proof.
  revert this. induction simObjs as [|arg rest IH]; intros this Hnodup; simpl.
  - exact Hnodup.
  - pose proof (add1_NoDup arg this Hnodup) as H1.
    destruct (add1 arg this) as [[[]|e|] this']; simpl in *; auto.
Qed.

Lemma addAll_NoDup (objList : list (option SimObject)) (this : SimList) :
  NoDup (elements_ this) -> NoDup (elements_ (snd (addAll objList this))).
Proof.
  revert this. induction objList as [|obj rest IH]; intros this Hnodup.
  - exact Hnodup.
  - pose proof (add_NoDup [obj] this Hnodup) as H1.
    cbn [addAll]. destruct (add [obj] this) as [[[]|e|] this']; simpl in *; auto.
Qed.

Lemma removeTemporaryFrom_NoDup (n : nat) (time : number) (this : SimList) :
  NoDup (elements_ this) -> NoDup (elements_ (removeTemporaryFrom n time this)).
Proof.
  revert this. induction n as [|i IH]; intros this Hnodup; simpl.
  - exact Hnodup.
  - destruct (nth_error (elements_ this) i) as [simobj|]; [|auto].
    destruct (getExpireTime simobj <? time)%float; [|auto].
    apply IH. simpl. apply splice1_NoDup. exact Hnodup.
Qed.

Lemma perform_NoDup (op : Operation) (this : SimList) :
  NoDup (elements_ this) -> NoDup (elements_ (perform op this)).
Proof.
  intros Hnodup. destruct op; simpl.
  - apply add_NoDup. exact Hnodup.
  - apply addAll_NoDup. exact Hnodup.
  - apply remove_NoDup. exact Hnodup.
  - apply removeAll_NoDup. exact Hnodup.
  - apply removeTemporaryFrom_NoDup. exact Hnodup.
  - apply removeAll_NoDup. exact Hnodup.
Qed.

Lemma performAll_NoDup (ops : list Operation) (this : SimList) :
  NoDup (elements_ this) -> NoDup (elements_ (performAll ops this)).
Proof.
  unfold performAll. revert this.
  induction ops as [|op rest IH]; intros this Hnodup; simpl.
  - exact Hnodup.
  - apply IH. apply perform_NoDup. exact Hnodup.
Qed.

(** C9.  Whatever sequence of [add], [addAll], [remove], [removeAll],
    [removeTemporary] (and [clear]) calls is made on a new SimList, no
    SimObject occurs twice in its element list.  [add] pushes its argument
    and broadcasts [OBJECT_ADDED] only when the argument is not contained
    (otherwise the list is left as the loop over the similar objects left
    it), and [remove] broadcasts [OBJECT_REMOVED] exactly when the object
    was present (otherwise nothing changes). *)
Theorem SimList_elements_never_duplicated :
  (forall ops : list Operation, NoDup (elements_ (performAll ops new))) /\
  (forall (this : SimList) (element : SimObject),
      let before := kept element this in
      let after := snd (add [Some element] this) in
      (In element (elements_ before) -> after = before) /\
      (~ In element (elements_ before) ->
         elements_ after = elements_ before ++ [element] /\
         broadcasts_ after = broadcasts_ before ++ [OBJECT_ADDED element])) /\
  (forall (this : SimList) (simObj : SimObject),
      (In simObj (elements_ this) ->
         broadcasts_ (remove simObj this) = broadcasts_ this ++ [OBJECT_REMOVED simObj]) /\
      (~ In simObj (elements_ this) -> remove simObj this = this)).
Proof.
  split; [|split].
  - intros ops. apply performAll_NoDup. simpl. constructor.
  - intros this element before after. subst before after. split.
    + intros Hin. cbn [add]. rewrite add1_keeps_when_present by assumption. reflexivity.
    + intros Hnot. cbn [add]. rewrite add1_pushes_when_absent by assumption.
      split; reflexivity.
  - intros this simObj. split.
    + intros Hin. rewrite remove_present by assumption. reflexivity.
    + apply remove_absent.
Qed.

(** C8 (amended).  When [add] has handled the arguments before [element]
    and [element] is its last (or only) argument, with a finite expiration
    time: every object of the list that is similar to [element] within the
    list's tolerance has been removed, with one [OBJECT_REMOVED] broadcast
    for each, in the order of the list and before [element] is added; after
    [add] returns the list contains [element] and no other object similar
    to it. *)
Theorem add_last_replaces_similar
    (simObjs : list (option SimObject)) (element : SimObject) (this before : SimList) :
  add simObjs this = (Normal tt, before) ->
  isFinite (getExpireTime element) = true ->
  let similarTo := fun obj => similar obj element (tolerance_ before) in
  let result := add (simObjs ++ [Some element]) this in
  fst result = Normal tt /\
  In element (elements_ (snd result)) /\
  (forall obj, In obj (elements_ (snd result)) -> obj <> element -> similarTo obj = false) /\
  (forall obj, In obj (elements_ (snd result)) -> obj <> element ->
               In obj (elements_ before)) /\
  exists added,
    (added = [] \/ added = [OBJECT_ADDED element]) /\
    broadcasts_ (snd result) =
      broadcasts_ before
        ++ map OBJECT_REMOVED (filter similarTo (elements_ before)) ++ added.
Proof.
  intros Hbefore Hfinite similarTo result. subst result.
  rewrite add_app, Hbefore. cbn [add].
  assert (Hkept : kept element before = removeSimilar element before).
  { unfold kept. rewrite Hfinite. reflexivity. }
  destruct (in_dec SimObject_eq_dec element (elements_ (kept element before))) as [Hin|Hnot].
  - rewrite add1_keeps_when_present by assumption.
    rewrite Hkept in *. rewrite removeSimilar_spec in *. simpl in *.
    split; [reflexivity|]. split; [exact Hin|].
    split; [|split].
    + intros obj Hobj _. apply filter_In in Hobj. destruct Hobj as [_ Hobj].
      apply negb_true_iff in Hobj. exact Hobj.
    + intros obj Hobj _. apply filter_In in Hobj. tauto.
    + exists []. split; [now left|]. rewrite app_nil_r. reflexivity.
  - rewrite add1_pushes_when_absent by assumption.
    rewrite Hkept in *. rewrite removeSimilar_spec in *. simpl in *.
    split; [reflexivity|]. split; [apply in_or_app; right; now left|].
    split; [|split].
    + intros obj Hobj Hne. apply in_app_or in Hobj. destruct Hobj as [Hobj|[Heq|[]]].
      * apply filter_In in Hobj. destruct Hobj as [_ Hobj].
        apply negb_true_iff in Hobj. exact Hobj.
      * congruence.
    + intros obj Hobj Hne. apply in_app_or in Hobj. destruct Hobj as [Hobj|[Heq|[]]].
      * apply filter_In in Hobj. tauto.
      * congruence.
    + exists [OBJECT_ADDED element]. split; [now right|].
      rewrite <- app_assoc. reflexivity.
Qed.

(** ** Expired objects

    [removeTemporary] looks at the indices from the last one down; when it
    arrives at index [n], the elements from [n] on are the ones it decided
    to keep. *)

(** The test of [removeTemporary]: [simobj.getExpireTime() < time]. *)
Definition expired (time : number) (simobj : SimObject) : bool :=
  (getExpireTime simobj <? time)%float.

Lemma splice1_firstn_skipn (arr : list SimObject) (i : nat) :
  goog_array.splice1 arr i = firstn i arr ++ skipn (S i) arr.
Proof.
  revert i. induction arr as [|a rest IH]; intros [|j]; simpl; try reflexivity.
  rewrite IH. reflexivity.
Qed.

Lemma nth_error_firstn_skipn (arr : list SimObject) (i : nat) (x : SimObject) :
  nth_error arr i = Some x ->
  firstn (S i) arr = firstn i arr ++ [x] /\ skipn i arr = x :: skipn (S i) arr.
Proof.
  revert i. induction arr as [|a rest IH]; intros [|j]; simpl; try discriminate.
  - intros H. injection H as ->. split; reflexivity.
  - intros H. destruct (IH j H) as [Hfirst Hskip]. simpl in Hfirst.
    rewrite Hfirst. split; [reflexivity | exact Hskip].
Qed.

Lemma firstn_skipn_prefix (arr rest : list SimObject) (i : nat) :
  i <= length arr ->
  firstn i (firstn i arr ++ rest) = firstn i arr /\
  skipn i (firstn i arr ++ rest) = rest.
Proof.
  intros Hle.
  assert (Hlen : length (firstn i arr) = i) by (apply firstn_length_le; exact Hle).
  split.
  - rewrite firstn_app, Hlen, Nat.sub_diag, firstn_firstn, Nat.min_id. simpl.
    apply app_nil_r.
  - rewrite skipn_app, Hlen, Nat.sub_diag. simpl.
    rewrite <- Hlen at 1. rewrite skipn_all. reflexivity.
Qed.

Lemma removeTemporaryFrom_spec (n : nat) (time : number) (this : SimList) :
  n <= length (elements_ this) ->
  removeTemporaryFrom n time this =
    {| elements_ :=
         filter (fun obj => negb (expired time obj)) (firstn n (elements_ this))
           ++ skipn n (elements_ this);
       tolerance_ := tolerance_ this;
       broadcasts_ :=
         broadcasts_ this
           ++ map OBJECT_REMOVED (rev (filter (expired time) (firstn n (elements_ this)))) |}.
Proof.
  revert this. induction n as [|i IH]; intros this Hle.
  - simpl. rewrite app_nil_r. destruct this; reflexivity.
  - cbn [removeTemporaryFrom].
    destruct (nth_error (elements_ this) i) as [simobj|] eqn:Hnth.
    + destruct (nth_error_firstn_skipn _ _ _ Hnth) as [Hfirst Hskip].
      rewrite Hfirst, !filter_app. cbn [filter]. fold (expired time simobj).
      destruct (expired time simobj) eqn:Hexpired; cbn [negb].
      * rewrite IH.
        -- cbn [elements_ tolerance_ broadcasts_ set_elements broadcast].
           rewrite splice1_firstn_skipn.
           destruct (firstn_skipn_prefix (elements_ this) (skipn (S i) (elements_ this)) i)
             as [Hf Hs]; [lia|].
           rewrite Hf, Hs, rev_app_distr, app_nil_r. cbn [rev app map].
           rewrite <- app_assoc. reflexivity.
        -- cbn [elements_ set_elements broadcast]. rewrite splice1_firstn_skipn.
           rewrite length_app, firstn_length_le by lia. lia.
      * rewrite IH by lia. rewrite Hskip, app_nil_r, <- app_assoc. reflexivity.
    + apply nth_error_None in Hnth. lia.
Qed.

Lemma removeTemporary_eq (time : number) (this : SimList) :
  removeTemporary time this =
    {| elements_ := filter (fun obj => negb (expired time obj)) (elements_ this);
       tolerance_ := tolerance_ this;
       broadcasts_ :=
         broadcasts_ this
           ++ map OBJECT_REMOVED (rev (filter (expired time) (elements_ this))) |}.
Proof.
  unfold removeTemporary. rewrite removeTemporaryFrom_spec by lia.
  rewrite firstn_all, skipn_all, app_nil_r. reflexivity.
Qed.

(** X2.  [removeTemporary(time)] takes out exactly the objects whose
    expiration time is below [time] and keeps the others in their order; it
    broadcasts one [OBJECT_REMOVED] for each object taken out, from the
    last one in the list to the first.  An object whose expiration time is
    [Infinity] or [NaN] stays, whatever [time] is. *)
Theorem removeTemporary_removes_the_expired (time : number) (this : SimList) :
  removeTemporary time this =
    {| elements_ := filter (fun obj => negb (expired time obj)) (elements_ this);
       tolerance_ := tolerance_ this;
       broadcasts_ :=
         broadcasts_ this
           ++ map OBJECT_REMOVED (rev (filter (expired time) (elements_ this))) |} /\
  (forall obj, In obj (elements_ this) ->
     getExpireTime obj = POSITIVE_INFINITY \/ isNaN (getExpireTime obj) = true ->
     In obj (elements_ (removeTemporary time this))).
Proof.
  split; [apply removeTemporary_eq|].
  intros obj Hin Hnever. rewrite removeTemporary_eq. cbn [elements_].
  apply filter_In. split; [exact Hin|].
  unfold expired. destruct Hnever as [-> | Hnan].
  - unfold POSITIVE_INFINITY. rewrite FloatFacts.ltb_infinity_l. reflexivity.
  - rewrite (FloatFacts.ltb_nan_l _ time Hnan). reflexivity.
Qed.

(** ** Emptying the list *)

Lemma removeAll_prefix (objList rest : list SimObject) (this : SimList) :
  elements_ this = objList ++ rest ->
  removeAll objList this =
    {| elements_ := rest;
       tolerance_ := tolerance_ this;
       broadcasts_ := broadcasts_ this ++ map OBJECT_REMOVED objList |}.
Proof.
  revert this. induction objList as [|obj more IH]; intros this Helems; simpl.
  - rewrite app_nil_r. destruct this; simpl in *; subst; reflexivity.
  - rewrite IH with (this := remove obj this).
    + rewrite remove_tolerance. unfold remove. rewrite Helems. simpl.
      destruct (SimObject_eq_dec obj obj) as [_|Hne]; [|contradiction].
      simpl. rewrite <- app_assoc. reflexivity.
    + unfold remove. rewrite Helems. simpl.
      destruct (SimObject_eq_dec obj obj) as [_|Hne]; [|contradiction].
      reflexivity.
Qed.

(** X3.  [clear()] leaves the list empty, whatever it held, and broadcasts
    one [OBJECT_REMOVED] for each element, in the order of the list; the
    tolerance stays. *)
Theorem clear_empties_the_list (this : SimList) :
  clear this =
    {| elements_ := [];
       tolerance_ := tolerance_ this;
       broadcasts_ := broadcasts_ this ++ map OBJECT_REMOVED (elements_ this) |}.
Proof.
  unfold clear, toArray. apply removeAll_prefix. rewrite app_nil_r. reflexivity.
Qed.

(** ** [indexOf] and [length] *)

Definition indexOf (this : SimList) (simObj : SimObject) : Z :=
  goog_array.indexOf SimObject_eq_dec (elements_ this) simObj.

Definition length (this : SimList) : nat := List.length (elements_ this).

Lemma indexOf_absent (simObj : SimObject) (this : SimList) :
  ~ In simObj (elements_ this) -> indexOf this simObj = (-1)%Z.
Proof.
  unfold indexOf. induction (elements_ this) as [|a rest IH]; simpl; intros Hnot.
  - reflexivity.
  - destruct (SimObject_eq_dec a simObj) as [->|Hne].
    + exfalso. apply Hnot. now left.
    + rewrite IH by tauto. reflexivity.
Qed.

(** ** An invalid argument *)

Lemma add_objects_completes (simObjs : list SimObject) (this : SimList) :
  fst (add (map Some simObjs) this) = Normal tt.
Proof.
  revert this. induction simObjs as [|element rest IH]; intros this; simpl.
  - reflexivity.
  - destruct (negb (goog_array.contains SimObject_eq_dec
                      (elements_ (if isFinite (getExpireTime element)
                                  then removeSimilar element this else this)) element));
      apply IH.
Qed.

(** X4.  [add] with a [null] or [undefined] among its arguments throws
    'cannot add invalid SimObject' when it arrives there: the objects
    before it have been added as if they were the only arguments, and the
    arguments after it are not looked at. *)
Theorem add_stops_at_invalid_argument
    (before : list SimObject) (after : list (option SimObject)) (this : SimList) :
  fst (add (map Some before) this) = Normal tt /\
  add (map Some before ++ None :: after) this =
    (Throw (mkError "cannot add invalid SimObject"%string),
     snd (add (map Some before) this)).
Proof.
  split; [apply add_objects_completes|].
  rewrite add_app. pose proof (add_objects_completes before this) as Hbefore.
  destruct (add (map Some before) this) as [[[]|e|] this']; try discriminate.
  reflexivity.
Qed.

(** ** Following the list through its events

    An observer that starts with a copy of the elements and applies every
    event it is sent: it appends the object of an [OBJECT_ADDED] and takes
    out the object of an [OBJECT_REMOVED]. *)

Definition mirror (copy : list SimObject) (evt : GenericEvent) : list SimObject :=
  match evt with
  | OBJECT_ADDED obj => copy ++ [obj]
  | OBJECT_MODIFIED _ => copy
  | OBJECT_REMOVED obj => snd (goog_array.remove SimObject_eq_dec copy obj)
  end.

Definition mirrorAll (events : list GenericEvent) (copy : list SimObject) : list SimObject :=
  fold_left mirror events copy.

(** [Mirrored this this']: the events broadcast between [this] and [this']
    turn the elements of [this] into those of [this']. *)
Definition Mirrored (this this' : SimList) : Prop :=
  exists events,
    broadcasts_ this' = broadcasts_ this ++ events /\
    mirrorAll events (elements_ this) = elements_ this'.

Lemma Mirrored_refl (this : SimList) : Mirrored this this.
Proof. exists []. split; [now rewrite app_nil_r | reflexivity]. Qed.

Lemma Mirrored_trans (a b c : SimList) : Mirrored a b -> Mirrored b c -> Mirrored a c.
Proof.
  intros (e1 & Hb1 & Hm1) (e2 & Hb2 & Hm2). exists (e1 ++ e2). split.
  - rewrite Hb2, Hb1, app_assoc. reflexivity.
  - unfold mirrorAll in *. rewrite fold_left_app, Hm1. exact Hm2.
Qed.

(** In an array without duplicates, removing the first occurrence of [x]
    removes [x]. *)
Definition isNot (x a : SimObject) : bool :=
  if SimObject_eq_dec a x then false else true.

Lemma array_remove_filter (arr : list SimObject) (x : SimObject) :
  NoDup arr -> snd (goog_array.remove SimObject_eq_dec arr x) = filter (isNot x) arr.
Proof.
  induction 1 as [|a rest Hnotin Hnodup IH]; simpl.
  - reflexivity.
  - unfold isNot at 1. destruct (SimObject_eq_dec a x) as [->|Hne]; simpl.
    + symmetry. apply forallb_filter_id. apply forallb_forall. intros y Hy.
      unfold isNot. destruct (SimObject_eq_dec y x) as [->|_]; [contradiction | reflexivity].
    + destruct (goog_array.remove SimObject_eq_dec rest x) as [found rest'].
      simpl in *. rewrite IH. reflexivity.
Qed.

Lemma mirrorAll_removed (removed arr : list SimObject) :
  NoDup arr ->
  mirrorAll (map OBJECT_REMOVED removed) arr =
    filter (fun a => negb (goog_array.contains SimObject_eq_dec removed a)) arr.
Proof.
  revert arr. induction removed as [|x rest IH]; intros arr Hnodup; simpl.
  - symmetry. apply forallb_filter_id. apply forallb_forall. reflexivity.
  - unfold mirrorAll in *. rewrite array_remove_filter by exact Hnodup.
    rewrite IH by (apply NoDup_filter; exact Hnodup).
    clear. induction arr as [|a arr IH]; simpl; [reflexivity|].
    unfold isNot at 1 3. unfold goog_array.contains at 2.
    destruct (in_dec SimObject_eq_dec a (x :: rest)) as [Hin|Hnot];
      destruct (SimObject_eq_dec a x) as [->|Hne]; simpl.
    + exact IH.
    + destruct Hin as [Heq|Hin]; [congruence|].
      apply (contains_true rest a) in Hin. rewrite Hin. simpl. exact IH.
    + exfalso. apply Hnot. now left.
    + assert (Hrest : ~ In a rest) by (intros Hin; apply Hnot; now right).
      apply (contains_false rest a) in Hrest. rewrite Hrest. simpl. rewrite IH. reflexivity.
Qed.

(** Taking out, one by one, the elements of [arr] that satisfy [f] leaves
    the ones that do not. *)
Lemma mirrorAll_removed_filter (f : SimObject -> bool) (removed arr : list SimObject) :
  NoDup arr ->
  (forall a, In a arr -> (In a removed <-> f a = true)) ->
  mirrorAll (map OBJECT_REMOVED removed) arr = filter (fun a => negb (f a)) arr.
Proof.
  intros Hnodup Hremoved. rewrite mirrorAll_removed by exact Hnodup.
  apply filter_ext_in. intros a Ha. f_equal.
  destruct (f a) eqn:Hfa.
  - apply contains_true. apply Hremoved; assumption.
  - apply contains_false. intros Hin. apply Hremoved in Hin; [congruence | exact Ha].
Qed.

Lemma remove_Mirrored (simObj : SimObject) (this : SimList) :
  Mirrored this (remove simObj this).
Proof.
  destruct (in_dec SimObject_eq_dec simObj (elements_ this)) as [Hin|Hnot].
  - rewrite remove_present by exact Hin. exists [OBJECT_REMOVED simObj].
    split; reflexivity.
  - rewrite remove_absent by exact Hnot. apply Mirrored_refl.
Qed.

Lemma removeAll_Mirrored (objList : list SimObject) (this : SimList) :
  Mirrored this (removeAll objList this).
Proof.
  revert this. induction objList as [|obj rest IH]; intros this; simpl.
  - apply Mirrored_refl.
  - eapply Mirrored_trans; [apply remove_Mirrored | apply IH].
Qed.

Lemma kept_Mirrored (element : SimObject) (this : SimList) :
  NoDup (elements_ this) -> Mirrored this (kept element this).
Proof.
  intros Hnodup. unfold kept.
  destruct (isFinite (getExpireTime element)); [|apply Mirrored_refl].
  rewrite removeSimilar_spec. eexists. split; [reflexivity|]. cbn [elements_].
  apply mirrorAll_removed_filter; [exact Hnodup|].
  intros a Ha. rewrite filter_In. tauto.
Qed.

Lemma add1_Mirrored (arg : option SimObject) (this : SimList) :
  NoDup (elements_ this) -> Mirrored this (snd (add1 arg this)).
Proof.
  intros Hnodup. destruct arg as [element|]; [|apply Mirrored_refl].
  eapply Mirrored_trans; [apply (kept_Mirrored element this Hnodup)|].
  destruct (in_dec SimObject_eq_dec element (elements_ (kept element this))) as [Hin|Hnot].
  - rewrite add1_keeps_when_present by exact Hin. apply Mirrored_refl.
  - rewrite add1_pushes_when_absent by exact Hnot.
    exists [OBJECT_ADDED element]. split; reflexivity.
Qed.

Lemma add_Mirrored (simObjs : list (option SimObject)) (this : SimList) :
  NoDup (elements_ this) -> Mirrored this (snd (add simObjs this)).
Proof.
  revert this. induction simObjs as [|arg rest IH]; intros this Hnodup; simpl.
  - apply Mirrored_refl.
  - pose proof (add1_Mirrored arg this Hnodup) as Hstep.
    pose proof (add1_NoDup arg this Hnodup) as Hnodup1.
    destruct (add1 arg this) as [[[]|e|] this']; simpl in *; try exact Hstep.
    eapply Mirrored_trans; [exact Hstep | apply IH; exact Hnodup1].
Qed.

Lemma addAll_Mirrored (objList : list (option SimObject)) (this : SimList) :
  NoDup (elements_ this) -> Mirrored this (snd (addAll objList this)).
Proof.
  revert this. induction objList as [|obj rest IH]; intros this Hnodup.
  - apply Mirrored_refl.
  - pose proof (add_Mirrored [obj] this Hnodup) as Hstep.
    pose proof (add_NoDup [obj] this Hnodup) as Hnodup1.
    cbn [addAll]. destruct (add [obj] this) as [[[]|e|] this']; simpl in *; try exact Hstep.
    eapply Mirrored_trans; [exact Hstep | apply IH; exact Hnodup1].
Qed.

Lemma removeTemporary_Mirrored (time : number) (this : SimList) :
  NoDup (elements_ this) -> Mirrored this (removeTemporary time this).
Proof.
  intros Hnodup. rewrite removeTemporary_eq. eexists. split; [reflexivity|].
  cbn [elements_]. apply mirrorAll_removed_filter; [exact Hnodup|].
  intros a Ha. rewrite <- in_rev, filter_In. tauto.
Qed.

Lemma perform_Mirrored (op : Operation) (this : SimList) :
  NoDup (elements_ this) -> Mirrored this (perform op this).
Proof.
  intros Hnodup. destruct op; simpl.
  - apply add_Mirrored. exact Hnodup.
  - apply addAll_Mirrored. exact Hnodup.
  - apply remove_Mirrored.
  - apply removeAll_Mirrored.
  - apply removeTemporary_Mirrored. exact Hnodup.
  - apply removeAll_Mirrored.
Qed.

Lemma performAll_Mirrored (ops : list Operation) (this : SimList) :
  NoDup (elements_ this) -> Mirrored this (performAll ops this).
Proof.
  unfold performAll. revert this.
  induction ops as [|op rest IH]; intros this Hnodup; simpl.
  - apply Mirrored_refl.
  - eapply Mirrored_trans; [apply (perform_Mirrored op this Hnodup)|].
    apply IH. apply perform_NoDup. exact Hnodup.
Qed.

(** X5.  The events tell the whole story of the list.  An observer that
    copies the elements ([toArray()]) at some moment of the life of a
    SimList and from then on applies each event it is sent (appending the
    object of an [OBJECT_ADDED], taking out the object of an
    [OBJECT_REMOVED]) holds, after any further calls of [add], [addAll],
    [remove], [removeAll], [removeTemporary] and [clear], the elements of
    the list, in the order of the list. *)
Theorem events_mirror_the_list (before after : list Operation) :
  let this := performAll before new in
  let this' := performAll after this in
  exists events,
    broadcasts_ this' = broadcasts_ this ++ events /\
    mirrorAll events (toArray this) = toArray this'.
Proof.
  intros this this'. apply performAll_Mirrored.
  apply performAll_NoDup. simpl. constructor.
Qed.

(** ** Removing *)

Lemma remove_not_In (simObj : SimObject) (this : SimList) :
  NoDup (elements_ this) -> ~ In simObj (elements_ (remove simObj this)).
Proof.
  intros Hnodup.
  destruct (in_dec SimObject_eq_dec simObj (elements_ this)) as [Hin|Hnot].
  - rewrite remove_present by exact Hin. cbn [elements_].
    rewrite array_remove_filter by exact Hnodup. rewrite filter_In. unfold isNot.
    destruct (SimObject_eq_dec simObj simObj) as [_|Hne]; [|contradiction].
    intros [_ H]. discriminate.
  - rewrite remove_absent by exact Hnot. exact Hnot.
Qed.

Lemma remove_keeps_within (simObj obj : SimObject) (this : SimList) :
  In obj (elements_ (remove simObj this)) -> In obj (elements_ this).
Proof.
  unfold remove. pose proof (array_remove_subset (elements_ this) simObj obj) as Hsub.
  destruct (goog_array.remove SimObject_eq_dec (elements_ this) simObj) as [[|] arr];
    simpl in *; auto.
Qed.

Lemma removeAll_subset (objList : list SimObject) (obj : SimObject) (this : SimList) :
  In obj (elements_ (removeAll objList this)) -> In obj (elements_ this).
Proof.
  revert this. induction objList as [|x rest IH]; intros this; simpl.
  - auto.
  - intros Hin. apply (remove_keeps_within x). apply IH. exact Hin.
Qed.

Lemma removeAll_not_In (objList : list SimObject) (obj : SimObject) (this : SimList) :
  NoDup (elements_ this) -> In obj objList ->
  ~ In obj (elements_ (removeAll objList this)).
Proof.
  revert this. induction objList as [|x rest IH]; intros this Hnodup; simpl.
  - tauto.
  - intros [->|Hin].
    + intros Hobj. apply removeAll_subset in Hobj.
      exact (remove_not_In obj this Hnodup Hobj).
    + apply IH; [apply remove_NoDup; exact Hnodup | exact Hin].
Qed.

(** X6.  On a list that was built by calls of its methods, [remove(obj)]
    does remove: afterwards [contains(obj)] is false and [indexOf(obj)] is
    -1; after [removeAll(objList)] the same holds for every object of
    [objList].  The other elements stay, in their order. *)
Theorem removed_objects_are_gone
    (ops : list Operation) (simObj : SimObject) (objList : list SimObject) :
  let this := performAll ops new in
  contains (remove simObj this) simObj = false /\
  indexOf (remove simObj this) simObj = (-1)%Z /\
  elements_ (remove simObj this) = filter (isNot simObj) (elements_ this) /\
  (forall obj, In obj objList -> contains (removeAll objList this) obj = false).
Proof.
  intros this.
  assert (Hnodup : NoDup (elements_ this)).
  { apply performAll_NoDup. simpl. constructor. }
  split; [|split; [|split]].
  - apply contains_false. apply remove_not_In. exact Hnodup.
  - apply indexOf_absent. apply remove_not_In. exact Hnodup.
  - destruct (in_dec SimObject_eq_dec simObj (elements_ this)) as [Hin|Hnot].
    + rewrite remove_present by exact Hin. cbn [elements_].
      apply array_remove_filter. exact Hnodup.
    + rewrite remove_absent by exact Hnot. symmetry.
      apply forallb_filter_id. apply forallb_forall. intros y Hy. unfold isNot.
      destruct (SimObject_eq_dec y simObj) as [->|_]; [contradiction | reflexivity].
  - intros obj Hobj. apply contains_false. apply removeAll_not_In; assumption.
Qed.

End SimList.

Arguments OBJECT_ADDED {SimObject} obj.
Arguments OBJECT_MODIFIED {SimObject} obj.
Arguments OBJECT_REMOVED {SimObject} obj.
Arguments elements_ {SimObject} s.
Arguments tolerance_ {SimObject} s.
Arguments broadcasts_ {SimObject} s.
Arguments add {SimObject} SimObject_eq_dec getExpireTime similar arguments this.

(** ** A concrete list: point-like objects on a line

    Objects are numbered; object [n] sits at position [n / 100] and expires
    at time 5.  Two objects are similar when their positions differ by at
    most the tolerance (as [PointMass.similar] compares positions). *)

Definition positionOf (obj : nat) : number :=
  (of_uint63 (Uint63.of_nat obj) / 100)%float.

Definition expireAt5 (obj : nat) : number := 5%float.

Definition near (obj simObj : nat) (tol : number) : bool :=
  (abs (positionOf obj - positionOf simObj) <=? tol)%float.

Definition addNear := add Nat.eq_dec expireAt5 near.

(** The witness of [add_last_replaces_similar]: object 2 is added to a list
    that holds the similar object 1 and the distant object 90. *)
Lemma add_last_replaces_similar_witness :
  fst (addNear [Some 1; Some 90; Some 2] (new nat)) = Normal tt /\
  elements_ (snd (addNear [Some 1; Some 90; Some 2] (new nat))) = [90; 2] /\
  broadcasts_ (snd (addNear [Some 1; Some 90; Some 2] (new nat)))
    = [OBJECT_ADDED 1; OBJECT_ADDED 90; OBJECT_REMOVED 1; OBJECT_ADDED 2] /\
  In 2 (elements_ (snd (addNear [Some 1; Some 90; Some 2] (new nat)))) /\
  near 90 2 (tolerance_ (new nat)) = false.
Proof.
  pose proof (add_last_replaces_similar nat Nat.eq_dec expireAt5 near
                [Some 1; Some 90] 2 (new nat)
                (snd (addNear [Some 1; Some 90] (new nat)))
                ltac:(vm_compute; reflexivity) ltac:(vm_compute; reflexivity)) as H.
  cbv zeta in H. destruct H as (Hfst & Hin & Hsim & _ & _).
  split; [exact Hfst|]. split; [vm_compute; reflexivity|].
  split; [vm_compute; reflexivity|]. split; [exact Hin|].
  apply Hsim; [vm_compute; tauto | discriminate].
Defined.

(** C8 as stated fails for an object that is not the last argument: in
    [add(obj1, obj2)] with two similar objects of finite expiration time,
    handling [obj2] removes [obj1] again, so that after [add] returns the
    list does not contain [obj1], which was passed to [add]. *)
Lemma add_every_argument_counterexample :
  isFinite (expireAt5 1) = true /\
  isFinite (expireAt5 2) = true /\
  fst (addNear [Some 1; Some 2] (new nat)) = Normal tt /\
  ~ In 1 (elements_ (snd (addNear [Some 1; Some 2] (new nat)))).
Proof.
  assert (Helems : elements_ (snd (addNear [Some 1; Some 2] (new nat))) = [2])
    by (vm_compute; reflexivity).
  repeat split; try (vm_compute; reflexivity).
  rewrite Helems. simpl. intros [H|[]]. discriminate.
Qed.

End SimListModel.

(* ------------------------------------------------------------------ *)
(** * lab/util/Clock.js and lab/app/SimRunner.js                        *)
(* ------------------------------------------------------------------ *)

Module Runner.

(** The names of the events a Clock broadcasts. *)
Inductive ClockEvent : Set :=
| CLOCK_PAUSE
| CLOCK_RESUME
| CLOCK_SET_TIME
| CLOCK_STEP.

(** A [ClockTask]: an object with a time at which it wants to run; its
    methods [schedule(delay)] and [cancel()] set and clear a browser timer. *)
Record ClockTask : Set := mkClockTask {
  task_id : nat;
  task_time : number
}.

(** What the Clock and the SimRunner do to the objects around them (the
    observers, the Timer, the tasks, the canvases, the browser), in the
    order in which it happens. *)
Inductive Effect : Set :=
| Broadcast (name : ClockEvent)
| BroadcastParameter (name : String.string)
| TaskCancel (task : nat)
| TaskSchedule (task : nat) (delay : number)
| CallBackStarted
| FireAfter (delay : option number)
| FinishAt (sysTime : number)
| Memorized (memorizable : nat)
| Painted (canvas : nat)
| NotifyError (observer : nat) (error : Error)
| Alert (error : Error).

(** The fields of a Clock. *)
Record Clock : Set := mkClock {
  clockStart_sys_secs_ : number;
  realStart_sys_secs_ : number;
  timeRate_ : number;
  saveTime_secs_ : number;
  saveRealTime_secs_ : number;
  isRunning_ : bool;
  stepMode_ : bool;
  tasks_ : list ClockTask
}.

Definition set_clockStart_sys_secs (v : number) (c : Clock) : Clock :=
  mkClock v (realStart_sys_secs_ c) (timeRate_ c) (saveTime_secs_ c)
    (saveRealTime_secs_ c) (isRunning_ c) (stepMode_ c) (tasks_ c).

Definition set_realStart_sys_secs (v : number) (c : Clock) : Clock :=
  mkClock (clockStart_sys_secs_ c) v (timeRate_ c) (saveTime_secs_ c)
    (saveRealTime_secs_ c) (isRunning_ c) (stepMode_ c) (tasks_ c).

Definition set_saveTime_secs (v : number) (c : Clock) : Clock :=
  mkClock (clockStart_sys_secs_ c) (realStart_sys_secs_ c) (timeRate_ c) v
    (saveRealTime_secs_ c) (isRunning_ c) (stepMode_ c) (tasks_ c).

Definition set_saveRealTime_secs (v : number) (c : Clock) : Clock :=
  mkClock (clockStart_sys_secs_ c) (realStart_sys_secs_ c) (timeRate_ c)
    (saveTime_secs_ c) v (isRunning_ c) (stepMode_ c) (tasks_ c).

Definition set_isRunning (v : bool) (c : Clock) : Clock :=
  mkClock (clockStart_sys_secs_ c) (realStart_sys_secs_ c) (timeRate_ c)
    (saveTime_secs_ c) (saveRealTime_secs_ c) v (stepMode_ c) (tasks_ c).

Definition set_stepMode (v : bool) (c : Clock) : Clock :=
  mkClock (clockStart_sys_secs_ c) (realStart_sys_secs_ c) (timeRate_ c)
    (saveTime_secs_ c) (saveRealTime_secs_ c) (isRunning_ c) v (tasks_ c).

(** [clockToSystem(clockTime)] and [systemToClock(systemTime)]. *)
Definition clockToSystem (c : Clock) (clockTime : number) : number :=
  (clockTime / timeRate_ c + clockStart_sys_secs_ c)%float.

Definition systemToClock (c : Clock) (systemTime : number) : number :=
  ((systemTime - clockStart_sys_secs_ c) * timeRate_ c)%float.

Section World.

(** An [AdvanceStrategy] is an interface; the simulation behind it is a
    value of type [Sim], [getTime] reads its time and [advance] is
    [strategy.advance(timeStep, memoList)], which may throw.  The SimRunner
    hands itself to [advance] as the [memoList], and "the AdvanceStrategy
    is what actually calls `memorize`": [memorizeCalls timeStep sim] is the
    number of times that call of [advance] calls [memoList.memorize()]
    before it returns or throws. *)
Variable Sim : Type.
Variable getTime : Sim -> number.
Variable advance : number -> Sim -> Completion unit * Sim.
Variable memorizeCalls : number -> Sim -> nat.

(** [UtilityCore.getSystemTime()]: the wall clock.  [systemTime k] is what
    the call number [k] returns. *)
Variable systemTime : nat -> number.

(** A SimRunner with its Clock, and what surrounds them.  [observed_] says
    whether the SimRunner is registered as an observer of the Clock, as its
    constructor does; a Clock on its own has no such observer. *)
Record World : Type := mkWorld {
  clock_ : Clock;
  observed_ : bool;
  advanceList_ : list Sim;
  timeStep_ : number;
  displayPeriod_ : number;
  canvasList_ : list nat;
  memorizables_ : list nat;
  errorObservers_ : list nat;
  systemReads_ : nat;
  effects_ : list Effect
}.

Definition set_clock (c : Clock) (w : World) : World :=
  mkWorld c (observed_ w) (advanceList_ w) (timeStep_ w) (displayPeriod_ w)
    (canvasList_ w) (memorizables_ w) (errorObservers_ w) (systemReads_ w) (effects_ w).

Definition set_advanceList (l : list Sim) (w : World) : World :=
  mkWorld (clock_ w) (observed_ w) l (timeStep_ w) (displayPeriod_ w)
    (canvasList_ w) (memorizables_ w) (errorObservers_ w) (systemReads_ w) (effects_ w).

Definition set_systemReads (n : nat) (w : World) : World :=
  mkWorld (clock_ w) (observed_ w) (advanceList_ w) (timeStep_ w) (displayPeriod_ w)
    (canvasList_ w) (memorizables_ w) (errorObservers_ w) n (effects_ w).

Definition set_effects (l : list Effect) (w : World) : World :=
  mkWorld (clock_ w) (observed_ w) (advanceList_ w) (timeStep_ w) (displayPeriod_ w)
    (canvasList_ w) (memorizables_ w) (errorObservers_ w) (systemReads_ w) l.

Definition addEffects (more : list Effect) (w : World) : World :=
  set_effects (effects_ w ++ more) w.

Definition emit (e : Effect) : M World unit := modify (addEffects [e]).

Definition modifyClock (f : Clock -> Clock) : M World unit :=
  modify (fun w => set_clock (f (clock_ w)) w).

Definition getClock : M World Clock := gets clock_.

Definition getSystemTime : M World number :=
  fun w => (Normal (systemTime (systemReads_ w)), set_systemReads (S (systemReads_ w)) w).

(** ** Clock *)

Definition Clock_isRunning : M World bool := gets (fun w => isRunning_ (clock_ w)).

Definition Clock_isStepping : M World bool := gets (fun w => stepMode_ (clock_ w)).

Definition Clock_getTimeRate : M World number := gets (fun w => timeRate_ (clock_ w)).

Definition Clock_clearStepMode : M World unit := modifyClock (set_stepMode false).

Definition Clock_getTime : M World number :=
  c <- getClock ;;
  if isRunning_ c
  then now <- getSystemTime ;;
       ret ((now - clockStart_sys_secs_ c) * timeRate_ c)%float
  else ret (saveTime_secs_ c).

Definition Clock_getRealTime : M World number :=
  c <- getClock ;;
  if isRunning_ c
  then now <- getSystemTime ;;
       ret ((now - realStart_sys_secs_ c) * timeRate_ c)%float
  else ret (saveRealTime_secs_ c).

Definition Clock_cancelAllTasks : M World unit :=
  c <- getClock ;;
  forEach (tasks_ c) (fun task => emit (TaskCancel (task_id task))).

Definition Clock_executeTasks (startTime timeStep : number) : M World unit :=
  c <- getClock ;;
  forEach (tasks_ c) (fun task =>
    if (task_time task >=? startTime)%float && (task_time task <=? startTime + timeStep)%float
    then emit (TaskSchedule (task_id task) 0%float)
    else ret tt).

Definition Clock_scheduleTask (task : ClockTask) : M World unit :=
  emit (TaskCancel (task_id task)) ;;
  c <- getClock ;;
  if isRunning_ c
  then t <- Clock_getTime ;;
       c' <- getClock ;;
       let nowTime := clockToSystem c' t in
       let taskTime := clockToSystem c' (task_time task) in
       if (taskTime >=? nowTime)%float
       then emit (TaskSchedule (task_id task) (taskTime - nowTime)%float)
       else ret tt
  else ret tt.

Definition Clock_setRealTime (time_secs : number) : M World unit :=
  c <- getClock ;;
  if isRunning_ c
  then now <- getSystemTime ;;
       modifyClock (set_realStart_sys_secs (now - time_secs / timeRate_ c)%float)
  else modifyClock (set_saveRealTime_secs time_secs).

Definition Clock_setTimePrivate (time_secs : number) : M World unit :=
  c <- getClock ;;
  if isRunning_ c
  then now <- getSystemTime ;;
       modifyClock (set_clockStart_sys_secs (now - time_secs / timeRate_ c)%float) ;;
       forEach (tasks_ c) Clock_scheduleTask
  else modifyClock (set_saveTime_secs time_secs).

(** ** SimRunner, as the observer of its Clock

    [Clock.broadcast(event)] hands the event to every observer; the one
    observer of a Clock in these sources is the SimRunner.  [observe] calls
    [Clock.setTime], which broadcasts again; the calls are laid out in the
    order of that nesting: first what happens for [CLOCK_SET_TIME]. *)

Definition SimRunner_memorize : M World unit :=
  l <- gets memorizables_ ;;
  forEach l (fun c => emit (Memorized c)).

(** [advanceList_[i].getTime()] and [advanceList_[i].advance(timeStep, this)];
    a missing element is [undefined], whose method call is a [TypeError]. *)
Definition Strategy_getTime (i : nat) : M World number :=
  l <- gets advanceList_ ;;
  match nth_error l i with
  | Some strategy => ret (getTime strategy)
  | None => throw (mkError "TypeError"%string)
  end.

Fixpoint replace_nth (l : list Sim) (i : nat) (v : Sim) : list Sim :=
  match l, i with
  | [], _ => []
  | _ :: rest, O => v :: rest
  | a :: rest, S j => a :: replace_nth rest j v
  end.

(** [memoList.memorize()], called [n] times. *)
Fixpoint memorizeTimes (n : nat) : M World unit :=
  match n with
  | O => ret tt
  | S n' => SimRunner_memorize ;; memorizeTimes n'
  end.

Definition Strategy_advance (i : nat) (timeStep : number) : M World unit :=
  fun w =>
    match nth_error (advanceList_ w) i with
    | Some strategy =>
        let (completion, strategy') := advance timeStep strategy in
        let w' := set_advanceList (replace_nth (advanceList_ w) i strategy') w in
        (completion, snd (memorizeTimes (memorizeCalls timeStep strategy) w'))
    | None => (Throw (mkError "TypeError"%string), w)
    end.

(** [SimRunner.observe(event)] for the event [CLOCK_SET_TIME]. *)
Definition SimRunner_observe_SET_TIME : M World unit := SimRunner_memorize.

(** [Clock.setTime(time_secs)]. *)
Definition Clock_setTime (time_secs : number) : M World unit :=
  Clock_setTimePrivate time_secs ;;
  emit (Broadcast CLOCK_SET_TIME) ;;
  observed <- gets observed_ ;;
  if observed then SimRunner_observe_SET_TIME else ret tt.

(** [SimRunner.observe(event)]; the subject of [event] is the Clock. *)
Definition SimRunner_observe (event : ClockEvent) : M World unit :=
  match event with
  | CLOCK_RESUME | CLOCK_PAUSE =>
      (* sync clock to simulation time *)
      t <- Strategy_getTime 0 ;;
      Clock_setTime t ;;
      Clock_setRealTime t ;;
      emit (BroadcastParameter "RUNNING"%string)
  | CLOCK_SET_TIME => SimRunner_observe_SET_TIME
  | CLOCK_STEP => ret tt
  end.

(** [Clock.broadcast(new GenericEvent(this, name))]. *)
Definition Clock_broadcast (name : ClockEvent) : M World unit :=
  emit (Broadcast name) ;;
  observed <- gets observed_ ;;
  if observed then SimRunner_observe name else ret tt.

Definition Clock_pause : M World unit :=
  c <- getClock ;;
  if isRunning_ c
  then t <- Clock_getTime ;;
       modifyClock (set_saveTime_secs t) ;;
       rt <- Clock_getRealTime ;;
       modifyClock (set_saveRealTime_secs rt) ;;
       Clock_cancelAllTasks ;;
       modifyClock (set_isRunning false) ;;
       Clock_broadcast CLOCK_PAUSE
  else ret tt.

Definition Clock_resume : M World unit :=
  c <- getClock ;;
  if negb (isRunning_ c)
  then modifyClock (set_isRunning true) ;;
       Clock_setTimePrivate (saveTime_secs_ c) ;;
       Clock_setRealTime (saveRealTime_secs_ c) ;;
       Clock_broadcast CLOCK_RESUME
  else ret tt.

Definition Clock_step (timeStep : number) : M World unit :=
  Clock_pause ;;
  modifyClock (set_stepMode true) ;;
  c <- getClock ;;
  let startStepTime := saveTime_secs_ c in
  modifyClock (fun c => set_saveTime_secs (saveTime_secs_ c + timeStep)%float c) ;;
  modifyClock (fun c => set_saveRealTime_secs (saveRealTime_secs_ c + timeStep)%float c) ;;
  Clock_broadcast CLOCK_STEP ;;
  (* execute tasks that should fire during this step *)
  Clock_executeTasks startStepTime timeStep.

(** ** SimRunner *)

Definition Timer_callBackStarted : M World unit := emit CallBackStarted.
Definition Timer_fireAfter (delay : option number) : M World unit := emit (FireAfter delay).
Definition Timer_finishAt (sysTime : number) : M World unit := emit (FinishAt sysTime).

Definition SimRunner_paintAll : M World unit :=
  l <- gets canvasList_ ;;
  forEach l (fun c => emit (Painted c)).

Definition SimRunner_pause : M World unit := Clock_pause.

Definition SimRunner_resume : M World unit := Clock_resume.

Definition SimRunner_step : M World unit :=
  (* advance clock to be exactly one timeStep past current sim time *)
  simTime <- Strategy_getTime 0 ;;
  timeStep <- gets timeStep_ ;;
  clockTime <- Clock_getTime ;;
  let dt := (simTime + timeStep - clockTime)%float in
  Clock_step dt.

Definition SimRunner_handleException (error : Error) : M World unit :=
  SimRunner_pause ;;
  l <- gets errorObservers_ ;;
  forEach l (fun e => emit (NotifyError e error)) ;;
  emit (Alert error).

(** The [while] loop of [advanceSims]; [fuel] bounds the number of
    iterations the model follows. *)
Fixpoint advanceSims_loop (fuel : nat) (strategy : nat) (targetTime simTime : number)
    : M World unit :=
  if (simTime <? targetTime)%float
  then match fuel with
       | O => unfinished
       | S fuel' =>
           timeStep <- gets timeStep_ ;;
           (* the AdvanceStrategy is what actually calls `memorize` *)
           Strategy_advance strategy timeStep ;;
           (* Prevent infinite loop when time doesn't advance. *)
           let lastSimTime := simTime in
           simTime' <- Strategy_getTime strategy ;;
           if (simTime' - lastSimTime <=? 1e-15)%float
           then throw (mkError "SimRunner time did not advance"%string)
           else advanceSims_loop fuel' strategy targetTime simTime'
       end
  else ret tt.

Definition SimRunner_advanceSims (fuel : nat) (strategy : nat) (targetTime : number)
    : M World unit :=
  simTime <- Strategy_getTime strategy ;;
  advanceSims_loop fuel strategy targetTime simTime.

(** [for (i = 0, n = advanceList_.length; i < n; i++) advanceSims(advanceList_[i], targetTime)];
    [advanceAll fuel targetTime i k] handles the [k] indices from [i] on. *)
Fixpoint advanceAll (fuel : nat) (targetTime : number) (i k : nat) : M World unit :=
  match k with
  | O => ret tt
  | S k' =>
      SimRunner_advanceSims fuel i targetTime ;;
      advanceAll fuel targetTime (S i) k'
  end.

(** The [try] block of [callback]. *)
Definition callback_try (fuel : nat) : M World unit :=
  Timer_callBackStarted ;;
  running <- Clock_isRunning ;;
  stepping <- Clock_isStepping ;;
  displayPeriod <- gets displayPeriod_ ;;
  timeStep <- gets timeStep_ ;;
  (if negb running && negb stepping
   then Timer_fireAfter (Some displayPeriod)
   else
     clockTime <- Clock_getTime ;;
     simTime <- Strategy_getTime 0 ;;
     (* If clockTime is VERY far ahead or behind of simTime, assume simTime was
        intentionally modified. *)
     clockTime <-
       (if (clockTime >? simTime + 1)%float || (clockTime <? simTime - 1)%float
        then let t := (simTime + timeStep)%float in
             Clock_setTime t ;;
             Clock_setRealTime t ;;
             ret t
        else ret clockTime) ;;
     let startTime := clockTime in
     (* If sim reaches almost current clock time, that is good enough. *)
     let targetTime := (startTime - timeStep / 10)%float in
     n <- gets (fun w => length (advanceList_ w)) ;;
     advanceAll fuel targetTime 0 n ;;
     stepping <- Clock_isStepping ;;
     if stepping
     then Timer_fireAfter (Some displayPeriod) ;;
          Clock_clearStepMode
     else
       clockTime <- Clock_getTime ;;
       simTime <- Strategy_getTime 0 ;;
       let limit := (20 * timeStep)%float in
       let retard := (clockTime - simTime >? limit)%float in
       if retard
       then (* Retard the clock because we are too far behind. *)
            Clock_setTime simTime ;;
            Timer_fireAfter (Some 0%float)
       else (* we want the next callback to finish at simTime + displayPeriod *)
            rate <- Clock_getTimeRate ;;
            let t := (simTime + displayPeriod * rate)%float in
            c <- getClock ;;
            Timer_finishAt (clockToSystem c t)) ;;
  SimRunner_paintAll.

Definition SimRunner_callback (fuel : nat) : M World unit :=
  tryCatch (callback_try fuel)
    (fun ex =>
       SimRunner_handleException ex ;;
       Timer_fireAfter None).

(** ** Facts about the statements *)

Lemma nth_error_replace_nth (l : list Sim) (i : nat) (old v : Sim) :
  nth_error l i = Some old -> nth_error (replace_nth l i v) i = Some v.
Proof.
  revert i. induction l as [|a rest IH]; intros [|j]; simpl; try discriminate.
  - reflexivity.
  - apply IH.
Qed.

Lemma length_replace_nth (l : list Sim) (i : nat) (v : Sim) :
  length (replace_nth l i v) = length l.
Proof.
  revert i. induction l as [|a rest IH]; intros [|j]; simpl; auto.
Qed.

Lemma addEffects_nil (w : World) : addEffects [] w = w.
Proof. destruct w. unfold addEffects, set_effects. simpl. rewrite app_nil_r. reflexivity. Qed.

Lemma addEffects_addEffects (l1 l2 : list Effect) (w : World) :
  addEffects l2 (addEffects l1 w) = addEffects (l1 ++ l2) w.
Proof.
  destruct w. unfold addEffects, set_effects. simpl. rewrite app_assoc. reflexivity.
Qed.

(** A loop whose body only adds effects adds the effects of all its
    iterations, in order. *)
Lemma forEach_addEffects {A : Type} (arr : list A) (f : A -> M World unit)
    (g : A -> list Effect) :
  (forall a w, f a w = (Normal tt, addEffects (g a) w)) ->
  forall w, forEach arr f w = (Normal tt, addEffects (flat_map g arr) w).
Proof.
  intros Hf. induction arr as [|a rest IH]; intros w; simpl.
  - unfold ret. rewrite addEffects_nil. reflexivity.
  - unfold bind. rewrite Hf, IH, addEffects_addEffects. reflexivity.
Qed.

Lemma forEach_emit {A : Type} (arr : list A) (f : A -> Effect) (w : World) :
  forEach arr (fun a => emit (f a)) w = (Normal tt, addEffects (map f arr) w).
Proof.
  rewrite (forEach_addEffects arr _ (fun a => [f a])) by reflexivity.
  rewrite flat_map_concat_map. f_equal. f_equal.
  induction arr as [|a rest IH]; simpl; [reflexivity | now rewrite IH].
Qed.

(** The tasks that [executeTasks(startTime, timeStep)] schedules. *)
Definition tasksDue (startTime timeStep : number) (task : ClockTask) : list Effect :=
  if (task_time task >=? startTime)%float && (task_time task <=? startTime + timeStep)%float
  then [TaskSchedule (task_id task) 0%float]
  else [].

Lemma Clock_executeTasks_eq (startTime timeStep : number) (w : World) :
  Clock_executeTasks startTime timeStep w =
    (Normal tt, addEffects (flat_map (tasksDue startTime timeStep) (tasks_ (clock_ w))) w).
Proof.
  unfold Clock_executeTasks, bind, getClock, gets.
  apply forEach_addEffects. intros task w'. unfold tasksDue.
  destruct ((task_time task >=? startTime)%float && (task_time task <=? startTime + timeStep)%float).
  - reflexivity.
  - unfold ret. rewrite addEffects_nil. reflexivity.
Qed.

Lemma SimRunner_memorize_eq (w : World) :
  SimRunner_memorize w = (Normal tt, addEffects (map Memorized (memorizables_ w)) w).
Proof.
  unfold SimRunner_memorize, bind, gets. apply forEach_emit.
Qed.

(** The effects of [n] calls of [memorize()]: each call tells every
    Memorizable, in the order of the list. *)
Definition rounds (n : nat) (w : World) : list Effect :=
  concat (repeat (map Memorized (memorizables_ w)) n).

Definition memorized (n : nat) (w : World) : World := addEffects (rounds n w) w.

Lemma memorizeTimes_eq (n : nat) (w : World) :
  memorizeTimes n w = (Normal tt, memorized n w).
Proof.
  revert w. induction n as [|n IH]; intros w.
  - unfold memorized, rounds. simpl. unfold ret. rewrite addEffects_nil. reflexivity.
  - cbn [memorizeTimes]. unfold bind. rewrite SimRunner_memorize_eq, IH.
    unfold memorized, rounds. destruct w. cbn. unfold addEffects, set_effects. cbn.
    rewrite <- app_assoc. reflexivity.
Qed.

Lemma rounds_add (n m : nat) (w : World) : rounds (n + m) w = rounds n w ++ rounds m w.
Proof.
  unfold rounds. rewrite repeat_app, concat_app. reflexivity.
Qed.

(** The world with the simulation [sim'] in the place of the one with
    index [i]. *)
Definition replaced (i : nat) (sim' : Sim) (w : World) : World :=
  set_advanceList (replace_nth (advanceList_ w) i sim') w.

(** The world after [advanceList_[i].advance(timeStep_, this)] left the
    simulation [sim'] behind: the Memorizables have been told as often as
    that call of [advance] called [memorize()]. *)
Definition advanced (i : nat) (sim' : Sim) (w : World) : World :=
  match nth_error (advanceList_ w) i with
  | Some sim => memorized (memorizeCalls (timeStep_ w) sim) (replaced i sim' w)
  | None => replaced i sim' w
  end.

Lemma Strategy_advance_eq (i : nat) (w : World) (sim sim' : Sim) (c : Completion unit) :
  nth_error (advanceList_ w) i = Some sim ->
  advance (timeStep_ w) sim = (c, sim') ->
  Strategy_advance i (timeStep_ w) w = (c, advanced i sim' w).
Proof.
  intros Hnth Hadv. unfold Strategy_advance, advanced. rewrite Hnth, Hadv.
  rewrite memorizeTimes_eq. reflexivity.
Qed.

Lemma advanceList_advanced (i : nat) (w : World) (sim' : Sim) :
  advanceList_ (advanced i sim' w) = replace_nth (advanceList_ w) i sim'.
Proof.
  unfold advanced. destruct (nth_error (advanceList_ w) i); reflexivity.
Qed.

Lemma Strategy_getTime_advanced (i : nat) (w : World) (sim sim' : Sim) :
  nth_error (advanceList_ w) i = Some sim ->
  Strategy_getTime i (advanced i sim' w) = (Normal (getTime sim'), advanced i sim' w).
Proof.
  intros Hnth. unfold Strategy_getTime, bind, gets. rewrite advanceList_advanced.
  rewrite (nth_error_replace_nth _ _ sim sim' Hnth). reflexivity.
Qed.

(** What the observers of the Clock add when they are told of
    [CLOCK_SET_TIME]. *)
Definition onSetTime (w : World) : list Effect :=
  Broadcast CLOCK_SET_TIME :: (if observed_ w then map Memorized (memorizables_ w) else []).

(** [Clock.setTime] and [Clock.setRealTime] on a Clock that is not running. *)
Lemma Clock_setTime_paused (time_secs : number) (w : World) :
  isRunning_ (clock_ w) = false ->
  Clock_setTime time_secs w =
    (Normal tt, addEffects (onSetTime w) (set_clock (set_saveTime_secs time_secs (clock_ w)) w)).
Proof.
  intros Hpaused.
  unfold Clock_setTime, Clock_setTimePrivate, SimRunner_observe_SET_TIME, onSetTime.
  unfold bind, getClock, gets, emit, modify, modifyClock. rewrite Hpaused.
  destruct w as [c obs sims ts dp cv ms eo reads effs]. cbn.
  destruct obs.
  - rewrite SimRunner_memorize_eq. unfold addEffects, set_effects. cbn.
    rewrite <- app_assoc. reflexivity.
  - reflexivity.
Qed.

Lemma Clock_setRealTime_paused (time_secs : number) (w : World) :
  isRunning_ (clock_ w) = false ->
  Clock_setRealTime time_secs w =
    (Normal tt, set_clock (set_saveRealTime_secs time_secs (clock_ w)) w).
Proof.
  intros Hpaused.
  unfold Clock_setRealTime, bind, getClock, gets, modify, modifyClock.
  rewrite Hpaused. reflexivity.
Qed.

(** The Clock as [pause()] leaves it when it broadcasts [CLOCK_PAUSE] to a
    registered SimRunner whose first simulation is at time [t]: both saved
    times are set to the simulation time. *)
Definition syncedTo (t : number) (c : Clock) : Clock :=
  set_saveRealTime_secs t (set_saveTime_secs t c).

Lemma Clock_broadcast_PAUSE_paused (w : World) :
  isRunning_ (clock_ w) = false ->
  Clock_broadcast CLOCK_PAUSE w =
    if observed_ w
    then match advanceList_ w with
         | sim :: _ =>
             (Normal tt,
              addEffects
                (Broadcast CLOCK_PAUSE :: Broadcast CLOCK_SET_TIME
                   :: map Memorized (memorizables_ w) ++ [BroadcastParameter "RUNNING"%string])
                (set_clock (syncedTo (getTime sim) (clock_ w)) w))
         | [] => (Throw (mkError "TypeError"%string), addEffects [Broadcast CLOCK_PAUSE] w)
         end
    else (Normal tt, addEffects [Broadcast CLOCK_PAUSE] w).
Proof.
  intros Hpaused.
  unfold Clock_broadcast, SimRunner_observe.
  unfold bind at 1. unfold emit at 1. unfold modify at 1.
  unfold bind at 1. unfold gets at 1.
  destruct w as [c obs sims ts dp cv ms eo reads effs]. cbn in Hpaused. cbn.
  destruct obs; [|reflexivity].
  unfold bind at 1. unfold Strategy_getTime at 1. unfold bind at 1, gets at 1.
  cbn -[Clock_setTime Clock_setRealTime].
  destruct sims as [|sim rest]; [reflexivity|].
  cbn -[Clock_setTime Clock_setRealTime].
  unfold bind at 1. rewrite Clock_setTime_paused by exact Hpaused.
  unfold bind at 1. rewrite Clock_setRealTime_paused by exact Hpaused.
  unfold emit, modify, addEffects, set_effects, onSetTime, syncedTo. cbn.
  repeat rewrite <- app_assoc. reflexivity.
Qed.

(** The world when a running Clock has saved its times, cancelled its
    tasks and cleared [isRunning_], just before [pause()] broadcasts
    [CLOCK_PAUSE].  The two times come from two readings of the system
    time. *)
Definition stopped (w : World) : World :=
  let c := clock_ w in
  let t := ((systemTime (systemReads_ w) - clockStart_sys_secs_ c) * timeRate_ c)%float in
  let rt := ((systemTime (S (systemReads_ w)) - realStart_sys_secs_ c) * timeRate_ c)%float in
  addEffects (map (fun task => TaskCancel (task_id task)) (tasks_ c))
    (set_clock (set_isRunning false (set_saveRealTime_secs rt (set_saveTime_secs t c)))
       (set_systemReads (S (S (systemReads_ w))) w)).

Lemma Clock_pause_paused (w : World) :
  isRunning_ (clock_ w) = false -> Clock_pause w = (Normal tt, w).
Proof.
  intros Hpaused. unfold Clock_pause, bind, getClock, gets. rewrite Hpaused. reflexivity.
Qed.

Lemma Clock_pause_running (w : World) :
  isRunning_ (clock_ w) = true ->
  Clock_pause w = Clock_broadcast CLOCK_PAUSE (stopped w).
Proof.
  intros Hrunning. unfold Clock_pause.
  unfold bind at 1. unfold getClock at 1, gets at 1. rewrite Hrunning.
  unfold bind at 1.
  unfold Clock_getTime, bind, getClock, gets, getSystemTime, ret. rewrite Hrunning.
  unfold modifyClock, modify, Clock_getRealTime, bind, getClock, gets, getSystemTime, ret.
  destruct w as [c obs sims ts dp cv ms eo reads effs].
  cbn -[Clock_broadcast Clock_cancelAllTasks]. cbn in Hrunning. rewrite Hrunning.
  unfold Clock_cancelAllTasks, bind, getClock, gets.
  cbn -[Clock_broadcast forEach]. rewrite forEach_emit.
  destruct c. reflexivity.
Qed.

Lemma stopped_paused (w : World) : isRunning_ (clock_ (stopped w)) = false.
Proof. reflexivity. Qed.

(** What a completed [pause()] guarantees. *)
Lemma Clock_pause_done (w w1 : World) :
  Clock_pause w = (Normal tt, w1) ->
  isRunning_ (clock_ w1) = false /\
  stepMode_ (clock_ w1) = stepMode_ (clock_ w) /\
  tasks_ (clock_ w1) = tasks_ (clock_ w) /\
  observed_ w1 = observed_ w /\
  advanceList_ w1 = advanceList_ w /\
  errorObservers_ w1 = errorObservers_ w /\
  canvasList_ w1 = canvasList_ w /\
  displayPeriod_ w1 = displayPeriod_ w /\
  exists more, effects_ w1 = effects_ w ++ more.
Proof.
  destruct (isRunning_ (clock_ w)) eqn:Hrun.
  - rewrite (Clock_pause_running w Hrun).
    rewrite (Clock_broadcast_PAUSE_paused (stopped w) (stopped_paused w)).
    destruct w as [c obs sims ts dp cv ms eo reads effs]. cbn.
    destruct obs; [destruct sims as [|sim rest]|]; intros H; inversion H; subst; cbn;
      repeat split; try reflexivity; rewrite <- app_assoc; eexists; reflexivity.
  - rewrite (Clock_pause_paused w Hrun). intros H. inversion H; subst.
    repeat split; try assumption. exists []. rewrite app_nil_r. reflexivity.
Qed.

(** [pause()] completes when the SimRunner has a simulation to read the
    time from, as every constructed SimRunner has. *)
Lemma Clock_pause_completes (w : World) :
  advanceList_ w <> [] -> exists w1, Clock_pause w = (Normal tt, w1).
Proof.
  intros Hsims. destruct (isRunning_ (clock_ w)) eqn:Hrun.
  - rewrite (Clock_pause_running w Hrun).
    rewrite (Clock_broadcast_PAUSE_paused (stopped w) (stopped_paused w)).
    destruct w as [c obs sims ts dp cv ms eo reads effs]. cbn in *.
    destruct obs; [destruct sims as [|sim rest]; [contradiction|]|]; eexists; reflexivity.
  - rewrite (Clock_pause_paused w Hrun). eexists; reflexivity.
Qed.

(** The Clock fields after the assignments of [step(timeStep)]. *)
Definition stepped (timeStep : number) (c : Clock) : Clock :=
  set_saveRealTime_secs (saveRealTime_secs_ c + timeStep)%float
    (set_saveTime_secs (saveTime_secs_ c + timeStep)%float (set_stepMode true c)).

Lemma Clock_step_eq (timeStep : number) (w w1 : World) :
  Clock_pause w = (Normal tt, w1) ->
  Clock_step timeStep w =
    (Normal tt,
     addEffects
       (Broadcast CLOCK_STEP
          :: flat_map (tasksDue (saveTime_secs_ (clock_ w1)) timeStep) (tasks_ (clock_ w1)))
       (set_clock (stepped timeStep (clock_ w1)) w1)).
Proof.
  intros Hpause. unfold Clock_step. unfold bind at 1. rewrite Hpause.
  unfold bind at 1, modifyClock at 1, modify at 1.
  unfold bind at 1, getClock at 1, gets at 1.
  unfold bind at 1, modifyClock at 1, modify at 1.
  unfold bind at 1, modifyClock at 1, modify at 1.
  unfold bind at 1.
  unfold Clock_broadcast, SimRunner_observe, bind, emit, modify, gets, ret.
  destruct w1 as [c obs sims ts dp cv ms eo reads effs].
  cbn -[Clock_executeTasks].
  destruct obs; rewrite Clock_executeTasks_eq; destruct c; cbn;
    unfold addEffects, set_effects; cbn; rewrite <- app_assoc; reflexivity.
Qed.

(** ** What no statement of the SimRunner or of the Clock changes

    The registered observers and the number of simulations stay, and
    effects are only ever added. *)
Definition Stable (w w' : World) : Prop :=
  length (advanceList_ w') = length (advanceList_ w) /\
  errorObservers_ w' = errorObservers_ w /\
  exists more, effects_ w' = effects_ w ++ more.

Definition Keeps {A : Type} (m : M World A) : Prop :=
  forall w, Stable w (snd (m w)).

Lemma Stable_refl (w : World) : Stable w w.
Proof.
  repeat split. exists []. rewrite app_nil_r. reflexivity.
Qed.

Lemma Stable_trans (w1 w2 w3 : World) : Stable w1 w2 -> Stable w2 w3 -> Stable w1 w3.
Proof.
  intros (Hl1 & He1 & m1 & Hm1) (Hl2 & He2 & m2 & Hm2).
  repeat split; try congruence.
  exists (m1 ++ m2). rewrite Hm2, Hm1, app_assoc. reflexivity.
Qed.

Lemma Keeps_ret {A : Type} (a : A) : Keeps (ret a).
Proof. intros w. apply Stable_refl. Qed.

Lemma Keeps_throw {A : Type} (e : Error) : Keeps (@throw World A e).
Proof. intros w. apply Stable_refl. Qed.

Lemma Keeps_unfinished {A : Type} : Keeps (@unfinished World A).
Proof. intros w. apply Stable_refl. Qed.

Lemma Keeps_gets {A : Type} (f : World -> A) : Keeps (gets f).
Proof. intros w. apply Stable_refl. Qed.

Lemma Keeps_bind {A B : Type} (m : M World A) (k : A -> M World B) :
  Keeps m -> (forall a, Keeps (k a)) -> Keeps (bind m k).
Proof.
  intros Hm Hk w. unfold bind. specialize (Hm w).
  destruct (m w) as [[a|e|] w']; simpl in *; try exact Hm.
  eapply Stable_trans; [exact Hm | apply Hk].
Qed.

Lemma Keeps_tryCatch {A : Type} (body : M World A) (handler : Error -> M World A) :
  Keeps body -> (forall ex, Keeps (handler ex)) -> Keeps (tryCatch body handler).
Proof.
  intros Hm Hk w. unfold tryCatch. specialize (Hm w).
  destruct (body w) as [[a|e|] w']; simpl in *; try exact Hm.
  eapply Stable_trans; [exact Hm | apply Hk].
Qed.

Lemma Keeps_emit (e : Effect) : Keeps (emit e).
Proof.
  intros w. repeat split. exists [e]. reflexivity.
Qed.

Lemma Keeps_modifyClock (f : Clock -> Clock) : Keeps (modifyClock f).
Proof.
  intros w. repeat split. exists []. simpl. rewrite app_nil_r. reflexivity.
Qed.

Lemma Keeps_getSystemTime : Keeps getSystemTime.
Proof.
  intros w. repeat split. exists []. simpl. rewrite app_nil_r. reflexivity.
Qed.

Lemma Keeps_forEach {A : Type} (arr : list A) (f : A -> M World unit) :
  (forall a, Keeps (f a)) -> Keeps (forEach arr f).
Proof.
  intros Hf. induction arr as [|a rest IH]; simpl.
  - apply Keeps_ret.
  - apply Keeps_bind; [apply Hf | intros _; exact IH].
Qed.

Lemma Keeps_Strategy_advance (i : nat) (timeStep : number) :
  Keeps (Strategy_advance i timeStep).
Proof.
  intros w. unfold Strategy_advance.
  destruct (nth_error (advanceList_ w) i) as [sim|]; [|apply Stable_refl].
  destruct (advance timeStep sim) as [c sim']. rewrite memorizeTimes_eq.
  repeat split; simpl.
  - apply length_replace_nth.
  - eexists. reflexivity.
Qed.

Create HintDb keeps.

#[local] Hint Resolve Keeps_ret Keeps_throw Keeps_unfinished Keeps_gets Keeps_emit
  Keeps_modifyClock Keeps_getSystemTime Keeps_Strategy_advance : keeps.

(** Proves [Keeps m] for a statement [m] made of statements that are known
    to keep the world stable. *)
Ltac keeps :=
  cbv zeta;
  repeat first
    [ solve [auto with keeps nocore]
    | apply Keeps_forEach; intros
    | apply Keeps_bind; [|intros]
    | apply Keeps_tryCatch; [|intros]
    | match goal with
      | |- Keeps (if ?b then _ else _) => destruct b
      | |- Keeps (match ?x with _ => _ end) => destruct x
      end ].

Lemma Keeps_Clock_getTime : Keeps Clock_getTime.
Proof. unfold Clock_getTime, getClock. keeps. Qed.

#[local] Hint Resolve Keeps_Clock_getTime : keeps.

Lemma Keeps_Clock_scheduleTask (task : ClockTask) : Keeps (Clock_scheduleTask task).
Proof. unfold Clock_scheduleTask, getClock. keeps. Qed.

#[local] Hint Resolve Keeps_Clock_scheduleTask : keeps.

Lemma Keeps_Clock_setRealTime (t : number) : Keeps (Clock_setRealTime t).
Proof. unfold Clock_setRealTime, getClock. keeps. Qed.

Lemma Keeps_Clock_setTime (t : number) : Keeps (Clock_setTime t).
Proof.
  unfold Clock_setTime, Clock_setTimePrivate, SimRunner_observe_SET_TIME,
    SimRunner_memorize, getClock.
  keeps.
Qed.

Lemma Keeps_Strategy_getTime (i : nat) : Keeps (Strategy_getTime i).
Proof. unfold Strategy_getTime. keeps. Qed.

#[local] Hint Resolve Keeps_Clock_setRealTime Keeps_Clock_setTime Keeps_Strategy_getTime
  : keeps.

Lemma Keeps_advanceSims_loop (fuel i : nat) (targetTime simTime : number) :
  Keeps (advanceSims_loop fuel i targetTime simTime).
Proof.
  revert simTime. induction fuel as [|fuel IH]; intros simTime; simpl; keeps.
Qed.

#[local] Hint Resolve Keeps_advanceSims_loop : keeps.

Lemma Keeps_advanceAll (fuel : nat) (targetTime : number) (i k : nat) :
  Keeps (advanceAll fuel targetTime i k).
Proof.
  revert i. induction k as [|k IH]; intros i; simpl.
  - keeps.
  - unfold SimRunner_advanceSims. keeps.
Qed.

#[local] Hint Resolve Keeps_advanceAll : keeps.

Lemma Keeps_callback_try (fuel : nat) : Keeps (callback_try fuel).
Proof.
  unfold callback_try, Timer_callBackStarted, Timer_fireAfter, Timer_finishAt,
    Clock_isRunning, Clock_isStepping, Clock_getTimeRate, Clock_clearStepMode,
    SimRunner_paintAll, getClock.
  keeps.
Qed.

(** One iteration of the loop of [advanceSims], when [advance] returns. *)
Lemma advanceSims_loop_step (fuel i : nat) (targetTime simTime : number)
    (w : World) (sim sim' : Sim) :
  (simTime <? targetTime)%float = true ->
  nth_error (advanceList_ w) i = Some sim ->
  advance (timeStep_ w) sim = (Normal tt, sim') ->
  advanceSims_loop (S fuel) i targetTime simTime w =
    if (getTime sim' - simTime <=? 1e-15)%float
    then (Throw (mkError "SimRunner time did not advance"%string), advanced i sim' w)
    else advanceSims_loop fuel i targetTime (getTime sim') (advanced i sim' w).
Proof.
  intros Hlt Hnth Hadv. cbn [advanceSims_loop]. rewrite Hlt.
  unfold bind at 1. unfold gets at 1. unfold bind at 1.
  rewrite (Strategy_advance_eq i w sim sim' (Normal tt) Hnth Hadv).
  unfold bind at 1. rewrite (Strategy_getTime_advanced i w sim sim' Hnth).
  destruct (getTime sim' - simTime <=? 1e-15)%float; reflexivity.
Qed.

(** When [advance] throws, the loop ends with that error. *)
Lemma advanceSims_loop_advance_throws (fuel i : nat) (targetTime simTime : number)
    (w : World) (sim sim' : Sim) (e : Error) :
  (simTime <? targetTime)%float = true ->
  nth_error (advanceList_ w) i = Some sim ->
  advance (timeStep_ w) sim = (Throw e, sim') ->
  advanceSims_loop (S fuel) i targetTime simTime w = (Throw e, advanced i sim' w).
Proof.
  intros Hlt Hnth Hadv. cbn [advanceSims_loop]. rewrite Hlt.
  unfold bind at 1. unfold gets at 1. unfold bind at 1.
  rewrite (Strategy_advance_eq i w sim sim' (Throw e) Hnth Hadv). reflexivity.
Qed.


(** [handleException(error)] once [pause()] has completed in [w1]. *)
Lemma SimRunner_handleException_eq (error : Error) (w w1 : World) :
  Clock_pause w = (Normal tt, w1) ->
  SimRunner_handleException error w =
    (Normal tt,
     addEffects (map (fun e => NotifyError e error) (errorObservers_ w1) ++ [Alert error]) w1).
Proof.
  intros Hpause. unfold SimRunner_handleException, SimRunner_pause.
  unfold bind at 1. rewrite Hpause.
  unfold bind at 1, gets at 1. unfold bind at 1.
  rewrite (forEach_emit (errorObservers_ w1) (fun e => NotifyError e error)).
  unfold emit, modify. rewrite addEffects_addEffects. reflexivity.
Qed.

(** A callback on a Clock that is neither running nor stepping re-arms the
    Timer and paints the canvases; no simulation is advanced. *)
Lemma SimRunner_callback_idle (fuel : nat) (w : World) :
  isRunning_ (clock_ w) = false ->
  stepMode_ (clock_ w) = false ->
  SimRunner_callback fuel w =
    (Normal tt,
     addEffects
       (CallBackStarted :: FireAfter (Some (displayPeriod_ w)) :: map Painted (canvasList_ w))
       w).
Proof.
  intros Hrun Hstep.
  unfold SimRunner_callback, tryCatch, callback_try.
  unfold Timer_callBackStarted, Timer_fireAfter, Clock_isRunning, Clock_isStepping,
    SimRunner_paintAll.
  unfold bind, emit, modify, gets.
  destruct w as [c obs sims ts dp cv ms eo reads effs]. cbn in Hrun, Hstep.
  cbn -[forEach]. rewrite Hrun, Hstep. cbn -[forEach].
  rewrite (forEach_emit cv Painted). unfold addEffects, set_effects. cbn.
  repeat rewrite <- app_assoc. reflexivity.
Qed.

(** X1 (the part of C7 that holds).  When the [try] block of
    [SimRunner.callback] throws [ex] (as it does when [advance] throws, or
    when [advanceSims] finds the time stuck), the exception does not leave
    [callback]: [handleException] runs, after which the Clock is not
    running ([Clock.pause]), and every registered ErrorObserver has been
    sent [notifyError(ex)], once each and in the order of registration,
    before the alert is shown and the Timer is restarted.  When the Clock
    is then not in step mode either, the next callback advances no
    simulation. *)
Theorem callback_reports_exception (fuel : nat) (w w1 : World) (ex : Error) :
  advanceList_ w <> [] ->
  callback_try fuel w = (Throw ex, w1) ->
  exists (w2 : World) (before : list Effect),
    SimRunner_callback fuel w = (Normal tt, w2) /\
    isRunning_ (clock_ w2) = false /\
    effects_ w2 =
      effects_ w ++ before
        ++ map (fun e => NotifyError e ex) (errorObservers_ w)
        ++ [Alert ex; FireAfter None] /\
    (stepMode_ (clock_ w2) = false ->
     forall fuel', exists more,
       SimRunner_callback fuel' w2 = (Normal tt, addEffects more w2)).
Proof.
  intros Hsims Htry.
  pose proof (Keeps_callback_try fuel w) as Hstable. rewrite Htry in Hstable.
  destruct Hstable as (Hlen & Hobs & m1 & Hm1). simpl in Hlen, Hobs, Hm1.
  assert (Hsims1 : advanceList_ w1 <> []).
  { intros Hnil. rewrite Hnil in Hlen. destruct (advanceList_ w); [congruence | discriminate]. }
  destruct (Clock_pause_completes w1 Hsims1) as [w1' Hpause].
  destruct (Clock_pause_done w1 w1' Hpause)
    as (Hrun & Hstep & _ & _ & _ & Hobs' & _ & _ & m2 & Hm2).
  exists (addEffects [FireAfter None]
            (addEffects (map (fun e => NotifyError e ex) (errorObservers_ w1') ++ [Alert ex]) w1')).
  exists (m1 ++ m2).
  split; [|split; [|split]].
  - unfold SimRunner_callback, tryCatch. rewrite Htry.
    unfold bind. rewrite (SimRunner_handleException_eq ex w1 w1' Hpause). reflexivity.
  - destruct w1'. exact Hrun.
  - rewrite addEffects_addEffects.
    replace (effects_ (addEffects
               ((map (fun e => NotifyError e ex) (errorObservers_ w1') ++ [Alert ex])
                  ++ [FireAfter None]) w1'))
      with (effects_ w1' ++ (map (fun e => NotifyError e ex) (errorObservers_ w1') ++ [Alert ex])
              ++ [FireAfter None]) by (destruct w1'; reflexivity).
    rewrite Hm2, Hm1, Hobs', Hobs. repeat rewrite <- app_assoc. reflexivity.
  - intros Hnostep fuel'. eexists.
    apply SimRunner_callback_idle.
    + destruct w1'. exact Hrun.
    + exact Hnostep.
Qed.

(** C10 (amended).  [step(timeStep)] first calls [pause()]; when that call
    completes, leaving the world [w1], then after [step]: [isRunning()] is
    false, [isStepping()] is true, and [getTime()] and [getRealTime()]
    return the times that [pause()] left saved, plus [timeStep].  For a
    Clock that was not running [pause()] does nothing, so these are the
    values that [getTime()] and [getRealTime()] returned just before the
    call, plus [timeStep]. *)
Theorem Clock_step_adds_to_saved_time (timeStep : number) (w w1 : World) :
  Clock_pause w = (Normal tt, w1) ->
  exists w2 : World,
    Clock_step timeStep w = (Normal tt, w2) /\
    Clock_isRunning w2 = (Normal false, w2) /\
    Clock_isStepping w2 = (Normal true, w2) /\
    Clock_getTime w2 = (Normal (saveTime_secs_ (clock_ w1) + timeStep)%float, w2) /\
    Clock_getRealTime w2 = (Normal (saveRealTime_secs_ (clock_ w1) + timeStep)%float, w2) /\
    (isRunning_ (clock_ w) = false ->
     exists t rt : number,
       Clock_getTime w = (Normal t, w) /\
       Clock_getRealTime w = (Normal rt, w) /\
       Clock_getTime w2 = (Normal (t + timeStep)%float, w2) /\
       Clock_getRealTime w2 = (Normal (rt + timeStep)%float, w2)).
Proof.
  intros Hpause.
  destruct (Clock_pause_done w w1 Hpause) as (Hrun & _).
  eexists. split; [apply (Clock_step_eq timeStep w w1 Hpause)|].
  assert (Hafter : forall l,
             isRunning_ (clock_ (addEffects l (set_clock (stepped timeStep (clock_ w1)) w1)))
               = false).
  { intros l. destruct w1 as [c ? ? ? ? ? ? ? ? ?]. destruct c. exact Hrun. }
  unfold Clock_isRunning, Clock_isStepping, Clock_getTime, Clock_getRealTime,
    bind, getClock, gets, ret.
  rewrite !Hafter.
  split; [reflexivity|]. split; [destruct w1; reflexivity|].
  split; [destruct w1; reflexivity|]. split; [destruct w1; reflexivity|].
  intros Hpaused. rewrite (Clock_pause_paused w Hpaused) in Hpause.
  inversion Hpause; subst w1. rewrite Hpaused.
  exists (saveTime_secs_ (clock_ w)), (saveRealTime_secs_ (clock_ w)).
  repeat split; destruct w; reflexivity.
Qed.

(** ** What a statement leaves as it is

    [Leaves f m]: the statement [m] does not change what [f] reads off the
    world, however it completes. *)

Section Frames.

Context {T : Type} (f : World -> T).

Definition Leaves {A : Type} (m : M World A) : Prop :=
  forall w, f (snd (m w)) = f w.

Lemma Leaves_ret {A : Type} (a : A) : Leaves (ret a).
Proof. intros w. reflexivity. Qed.

Lemma Leaves_throw {A : Type} (e : Error) : Leaves (@throw World A e).
Proof. intros w. reflexivity. Qed.

Lemma Leaves_unfinished {A : Type} : Leaves (@unfinished World A).
Proof. intros w. reflexivity. Qed.

Lemma Leaves_gets {A : Type} (g : World -> A) : Leaves (gets g).
Proof. intros w. reflexivity. Qed.

Lemma Leaves_bind {A B : Type} (m : M World A) (k : A -> M World B) :
  Leaves m -> (forall a, Leaves (k a)) -> Leaves (bind m k).
Proof.
  intros Hm Hk w. unfold bind. specialize (Hm w).
  destruct (m w) as [[a|e|] w']; simpl in *; try exact Hm.
  rewrite Hk. exact Hm.
Qed.

Lemma Leaves_tryCatch {A : Type} (body : M World A) (handler : Error -> M World A) :
  Leaves body -> (forall ex, Leaves (handler ex)) -> Leaves (tryCatch body handler).
Proof.
  intros Hm Hk w. unfold tryCatch. specialize (Hm w).
  destruct (body w) as [[a|e|] w']; simpl in *; try exact Hm.
  rewrite Hk. exact Hm.
Qed.

Lemma Leaves_forEach {A : Type} (arr : list A) (g : A -> M World unit) :
  (forall a, Leaves (g a)) -> Leaves (forEach arr g).
Proof.
  intros Hg. induction arr as [|a rest IH]; simpl.
  - apply Leaves_ret.
  - apply Leaves_bind; [apply Hg | intros _; exact IH].
Qed.

End Frames.

(** Proves [Leaves f m] for a statement [m] made of statements that [base]
    proves to leave [f]. *)
Ltac leaves base :=
  cbv zeta;
  repeat first
    [ apply Leaves_ret | apply Leaves_throw | apply Leaves_unfinished | apply Leaves_gets
    | solve [base]
    | apply Leaves_forEach; intros
    | apply Leaves_bind; [|intros]
    | apply Leaves_tryCatch; [|intros]
    | match goal with
      | |- Leaves _ (if ?b then _ else _) => destruct b
      | |- Leaves _ (match ?x with _ => _ end) => destruct x
      end ].

(** ** Clock time and real time *)

(** What [getRealTime()] is computed from, and what [getTime()] is computed
    from; both with the rate, the flags and the tasks of the Clock. *)
Definition realTimeOf (w : World) :=
  (realStart_sys_secs_ (clock_ w), saveRealTime_secs_ (clock_ w), timeRate_ (clock_ w),
   isRunning_ (clock_ w), stepMode_ (clock_ w), tasks_ (clock_ w)).

Definition clockTimeOf (w : World) :=
  (clockStart_sys_secs_ (clock_ w), saveTime_secs_ (clock_ w), timeRate_ (clock_ w),
   isRunning_ (clock_ w), stepMode_ (clock_ w), tasks_ (clock_ w)).

Lemma Leaves_realTimeOf_setTime (time_secs : number) :
  Leaves realTimeOf (Clock_setTime time_secs).
Proof.
  unfold Clock_setTime, Clock_setTimePrivate, Clock_scheduleTask, Clock_getTime,
    SimRunner_observe_SET_TIME, SimRunner_memorize, getClock, emit, modifyClock.
  leaves ltac:(intros w; reflexivity).
Qed.

(** X7.  [setTime] changes the clock time and never the real time:
    whether the Clock is running or not, the start and the saved value of
    the real time, the time rate, the two flags and the tasks are as
    before.  [setRealTime] in turn leaves the clock time as it is, and it
    schedules no task and broadcasts nothing.  On a Clock that is not
    running, [getTime()] then returns the time that was set, and
    [getRealTime()] the real time that was set. *)
Theorem setTime_and_setRealTime_are_independent (time_secs : number) (w : World) :
  realTimeOf (snd (Clock_setTime time_secs w)) = realTimeOf w /\
  clockTimeOf (snd (Clock_setRealTime time_secs w)) = clockTimeOf w /\
  effects_ (snd (Clock_setRealTime time_secs w)) = effects_ w /\
  (isRunning_ (clock_ w) = false ->
   fst (Clock_getTime (snd (Clock_setTime time_secs w))) = Normal time_secs /\
   fst (Clock_getRealTime (snd (Clock_setRealTime time_secs w))) = Normal time_secs).
Proof.
  split; [apply Leaves_realTimeOf_setTime|].
  split; [|split].
  - unfold Clock_setRealTime, bind, getClock, gets, getSystemTime, modifyClock, modify.
    destruct (isRunning_ (clock_ w)); reflexivity.
  - unfold Clock_setRealTime, bind, getClock, gets, getSystemTime, modifyClock, modify.
    destruct (isRunning_ (clock_ w)); reflexivity.
  - intros Hrun. split.
    + rewrite (Clock_setTime_paused time_secs w Hrun).
      unfold Clock_getTime, bind, getClock, gets, ret.
      destruct w as [c obs sims ts dp cv ms eo reads effs]. cbn in *. rewrite Hrun.
      reflexivity.
    + rewrite (Clock_setRealTime_paused time_secs w Hrun).
      unfold Clock_getRealTime, bind, getClock, gets, ret.
      destruct w as [c obs sims ts dp cv ms eo reads effs]. cbn in *. rewrite Hrun.
      reflexivity.
Qed.

(** ** Pausing a running Clock *)

(** X8.  [pause()] on a running Clock: the Clock stops running; [cancel()]
    is called on every task, in the order of the task list and before
    [CLOCK_PAUSE] is broadcast; the tasks stay on the list.  On a Clock
    without observer the time is frozen at the value [getTime()] showed
    when [pause()] read it: from then on [getTime()] returns that value
    without looking at the system time.  When a SimRunner observes the
    Clock, it answers [CLOCK_PAUSE] by setting the clock time and the real
    time to the time of its first simulation, and these are the values the
    paused Clock shows. *)
Theorem pause_cancels_tasks_and_freezes_time (w : World) :
  isRunning_ (clock_ w) = true ->
  let w1 := snd (Clock_pause w) in
  let shown :=
    ((systemTime (systemReads_ w) - clockStart_sys_secs_ (clock_ w))
     * timeRate_ (clock_ w))%float in
  fst (Clock_getTime w) = Normal shown /\
  isRunning_ (clock_ w1) = false /\
  tasks_ (clock_ w1) = tasks_ (clock_ w) /\
  (exists rest,
     effects_ w1 =
       effects_ w ++ map (fun task => TaskCancel (task_id task)) (tasks_ (clock_ w))
         ++ Broadcast CLOCK_PAUSE :: rest) /\
  (observed_ w = false ->
     fst (Clock_pause w) = Normal tt /\
     Clock_getTime w1 = (Normal shown, w1)) /\
  (forall sim rest, observed_ w = true -> advanceList_ w = sim :: rest ->
     fst (Clock_pause w) = Normal tt /\
     Clock_getTime w1 = (Normal (getTime sim), w1) /\
     Clock_getRealTime w1 = (Normal (getTime sim), w1)).
Proof.
  intros Hrun w1 shown. subst w1 shown.
  rewrite (Clock_pause_running w Hrun).
  rewrite (Clock_broadcast_PAUSE_paused (stopped w) (stopped_paused w)).
  unfold Clock_getTime, Clock_getRealTime, bind, getClock, gets, getSystemTime, ret.
  destruct w as [c obs sims ts dp cv ms eo reads effs]. cbn in Hrun.
  cbn -[map]. rewrite Hrun.
  split; [reflexivity|].
  destruct obs; [destruct sims as [|sim0 rest0]|]; cbn -[map].
  - split; [reflexivity|]. split; [reflexivity|].
    split; [eexists; rewrite <- app_assoc; reflexivity|].
    split; [discriminate|]. intros sim rest _ Hsims. discriminate.
  - split; [reflexivity|]. split; [reflexivity|].
    split; [eexists; rewrite <- app_assoc; reflexivity|].
    split; [discriminate|]. intros sim rest _ Hsims.
    injection Hsims as <- <-. repeat split.
  - split; [reflexivity|]. split; [reflexivity|].
    split; [eexists; rewrite <- app_assoc; reflexivity|].
    split; [intros _; split; reflexivity|]. discriminate.
Qed.

(** ** What [advanceSims] reaches *)

Lemma nth_error_replace_nth_other (l : list Sim) (i j : nat) (v : Sim) :
  j <> i -> nth_error (replace_nth l i v) j = nth_error l j.
Proof.
  revert i j. induction l as [|a rest IH]; intros [|i] [|j] Hne; simpl;
    try reflexivity; try contradiction.
  apply IH. congruence.
Qed.

(** [ReplacedAt i w w']: the worlds differ at most in the simulation with
    index [i]. *)
Definition ReplacedAt (i : nat) (w w' : World) : Prop :=
  exists l,
    w' = set_advanceList l w /\
    length l = length (advanceList_ w) /\
    forall j, j <> i -> nth_error l j = nth_error (advanceList_ w) j.

Lemma ReplacedAt_refl (i : nat) (w : World) : ReplacedAt i w w.
Proof.
  exists (advanceList_ w). split; [destruct w; reflexivity|]. split; reflexivity.
Qed.

Lemma ReplacedAt_replaced (i : nat) (sim' : Sim) (w : World) :
  ReplacedAt i w (replaced i sim' w).
Proof.
  exists (replace_nth (advanceList_ w) i sim'). split; [reflexivity|].
  split; [apply length_replace_nth|]. intros j Hj.
  apply nth_error_replace_nth_other. exact Hj.
Qed.

(** [AdvancedAt i w w']: the worlds differ at most in the simulation with
    index [i] and in that the Memorizables have been told a number of
    times. *)
Definition AdvancedAt (i : nat) (w w' : World) : Prop :=
  exists l n,
    w' = memorized n (set_advanceList l w) /\
    length l = length (advanceList_ w) /\
    forall j, j <> i -> nth_error l j = nth_error (advanceList_ w) j.

Lemma memorized_0 (w : World) : memorized 0 w = w.
Proof. unfold memorized, rounds. simpl. apply addEffects_nil. Qed.

Lemma memorized_again (n m : nat) (l1 l2 : list Sim) (w : World) :
  memorized m (set_advanceList l2 (memorized n (set_advanceList l1 w)))
  = memorized (n + m) (set_advanceList l2 w).
Proof.
  unfold memorized. rewrite rounds_add.
  destruct w. unfold rounds, addEffects, set_effects, set_advanceList. cbn.
  rewrite <- app_assoc. reflexivity.
Qed.

Lemma AdvancedAt_refl (i : nat) (w : World) : AdvancedAt i w w.
Proof.
  exists (advanceList_ w), 0. rewrite memorized_0.
  split; [destruct w; reflexivity|]. split; reflexivity.
Qed.

Lemma AdvancedAt_trans (i : nat) (a b c : World) :
  AdvancedAt i a b -> AdvancedAt i b c -> AdvancedAt i a c.
Proof.
  intros (l1 & n1 & -> & Hlen1 & Hnth1) (l2 & n2 & -> & Hlen2 & Hnth2).
  exists l2, (n1 + n2). split; [apply memorized_again|].
  destruct a. cbn in *. split; [congruence|].
  intros j Hj. rewrite Hnth2, Hnth1 by exact Hj. reflexivity.
Qed.

Lemma AdvancedAt_advanced (i : nat) (sim' : Sim) (w : World) :
  AdvancedAt i w (advanced i sim' w).
Proof.
  unfold advanced.
  destruct (nth_error (advanceList_ w) i) as [sim|].
  - exists (replace_nth (advanceList_ w) i sim'), (memorizeCalls (timeStep_ w) sim).
    split; [reflexivity|]. split; [apply length_replace_nth|]. intros j Hj.
    apply nth_error_replace_nth_other. exact Hj.
  - exists (replace_nth (advanceList_ w) i sim'), 0. rewrite memorized_0.
    split; [reflexivity|]. split; [apply length_replace_nth|]. intros j Hj.
    apply nth_error_replace_nth_other. exact Hj.
Qed.

Lemma advanceSims_loop_post (fuel i : nat) (targetTime : number) :
  forall (simTime : number) (w : World) (sim : Sim),
    nth_error (advanceList_ w) i = Some sim ->
    getTime sim = simTime ->
    AdvancedAt i w (snd (advanceSims_loop fuel i targetTime simTime w)) /\
    (fst (advanceSims_loop fuel i targetTime simTime w) = Normal tt ->
     exists sim',
       nth_error (advanceList_ (snd (advanceSims_loop fuel i targetTime simTime w))) i
         = Some sim' /\
       (getTime sim' <? targetTime)%float = false).
Proof.
  induction fuel as [|fuel IH]; intros simTime w sim Hnth Htime.
  - cbn [advanceSims_loop]. destruct (simTime <? targetTime)%float eqn:Hlt.
    + split; [apply AdvancedAt_refl | discriminate].
    + split; [apply AdvancedAt_refl|]. intros _. exists sim. subst simTime. split; assumption.
  - destruct (simTime <? targetTime)%float eqn:Hlt.
    + destruct (advance (timeStep_ w) sim) as [[[]|e|] sim1] eqn:Hadv.
      * rewrite (advanceSims_loop_step fuel i targetTime simTime w sim sim1 Hlt Hnth Hadv).
        destruct (getTime sim1 - simTime <=? 1e-15)%float.
        -- split; [apply AdvancedAt_advanced | discriminate].
        -- assert (Hnth1 : nth_error (advanceList_ (advanced i sim1 w)) i = Some sim1).
           { rewrite advanceList_advanced. exact (nth_error_replace_nth _ _ sim sim1 Hnth). }
           destruct (IH (getTime sim1) (advanced i sim1 w) sim1 Hnth1 eq_refl) as [Hadvanced Hpost].
           split; [|exact Hpost].
           eapply AdvancedAt_trans; [apply AdvancedAt_advanced | exact Hadvanced].
      * rewrite (advanceSims_loop_advance_throws fuel i targetTime simTime w sim sim1 e
                   Hlt Hnth Hadv).
        split; [apply AdvancedAt_advanced | discriminate].
      * assert (Heq : advanceSims_loop (S fuel) i targetTime simTime w
                        = (Unfinished, advanced i sim1 w)).
        { cbn [advanceSims_loop]. rewrite Hlt.
          unfold bind at 1. unfold gets at 1. unfold bind at 1.
          rewrite (Strategy_advance_eq i w sim sim1 Unfinished Hnth Hadv). reflexivity. }
        rewrite Heq. split; [apply AdvancedAt_advanced | discriminate].
    + cbn [advanceSims_loop]. rewrite Hlt.
      split; [apply AdvancedAt_refl|]. intros _. exists sim. subst simTime. split; assumption.
Qed.

Lemma SimRunner_advanceSims_post (fuel i : nat) (targetTime : number) (w : World) :
  AdvancedAt i w (snd (SimRunner_advanceSims fuel i targetTime w)) /\
  (fst (SimRunner_advanceSims fuel i targetTime w) = Normal tt ->
   exists sim',
     nth_error (advanceList_ (snd (SimRunner_advanceSims fuel i targetTime w))) i = Some sim' /\
     (getTime sim' <? targetTime)%float = false).
Proof.
  destruct (nth_error (advanceList_ w) i) as [sim|] eqn:Hnth.
  - assert (Heq : SimRunner_advanceSims fuel i targetTime w
                    = advanceSims_loop fuel i targetTime (getTime sim) w).
    { unfold SimRunner_advanceSims, Strategy_getTime, bind, gets, ret.
      rewrite Hnth. reflexivity. }
    rewrite Heq.
    apply (advanceSims_loop_post fuel i targetTime (getTime sim) w sim Hnth eq_refl).
  - assert (Heq : SimRunner_advanceSims fuel i targetTime w
                    = (Throw (mkError "TypeError"%string), w)).
    { unfold SimRunner_advanceSims, Strategy_getTime, bind, gets, throw.
      rewrite Hnth. reflexivity. }
    rewrite Heq. split; [apply AdvancedAt_refl | discriminate].
Qed.


(** ** A callback in step mode *)

(** [AdvancedFrom i w w']: the worlds differ at most in the simulations
    with index [i] or more and in that the Memorizables have been told a
    number of times. *)
Definition AdvancedFrom (i : nat) (w w' : World) : Prop :=
  exists l n,
    w' = memorized n (set_advanceList l w) /\
    length l = length (advanceList_ w) /\
    forall j, j < i -> nth_error l j = nth_error (advanceList_ w) j.

Lemma advanceAll_post (fuel : nat) (targetTime : number) (k : nat) :
  forall (i : nat) (w : World),
    AdvancedFrom i w (snd (advanceAll fuel targetTime i k w)) /\
    (fst (advanceAll fuel targetTime i k w) = Normal tt ->
     forall j, i <= j < i + k ->
       exists sim',
         nth_error (advanceList_ (snd (advanceAll fuel targetTime i k w))) j = Some sim' /\
         (getTime sim' <? targetTime)%float = false).
Proof.
  induction k as [|k IH]; intros i w.
  - simpl. split.
    + exists (advanceList_ w), 0. rewrite memorized_0.
      split; [destruct w; reflexivity|]. split; reflexivity.
    + intros _ j Hj. lia.
  - cbn [advanceAll]. unfold bind.
    destruct (SimRunner_advanceSims_post fuel i targetTime w) as [Hadvanced Hpost].
    destruct (SimRunner_advanceSims fuel i targetTime w) as [[[]|e|] w1]; simpl in *.
    + destruct (IH (S i) w1) as [Hfrom Hrest].
      destruct Hadvanced as (l1 & n1 & -> & Hlen1 & Hnth1).
      destruct Hfrom as (l2 & n2 & Heq2 & Hlen2 & Hnth2).
      rewrite memorized_again in Heq2.
      assert (Hlen2' : length l2 = length l1) by (destruct w; exact Hlen2).
      assert (Hnth2' : forall j, j < S i -> nth_error l2 j = nth_error l1 j)
        by (destruct w; exact Hnth2).
      split.
      * exists l2, (n1 + n2). split; [exact Heq2|]. split; [congruence|].
        intros j Hj. rewrite Hnth2', Hnth1 by lia. reflexivity.
      * intros Hnormal j Hj. destruct (Nat.eq_dec j i) as [->|Hne].
        -- destruct (Hpost eq_refl) as (sim' & Hsim' & Hreached).
           exists sim'. split; [|exact Hreached].
           rewrite Heq2. replace (advanceList_ (memorized (n1 + n2) (set_advanceList l2 w)))
             with l2 by (destruct w; reflexivity).
           rewrite Hnth2' by lia.
           replace (advanceList_ (memorized n1 (set_advanceList l1 w)))
             with l1 in Hsim' by (destruct w; reflexivity).
           exact Hsim'.
        -- apply (Hrest Hnormal). lia.
    + split; [|discriminate].
      destruct Hadvanced as (l1 & n1 & -> & Hlen1 & Hnth1).
      exists l1, n1. split; [reflexivity|]. split; [exact Hlen1|].
      intros j Hj. apply Hnth1. lia.
    + split; [|discriminate].
      destruct Hadvanced as (l1 & n1 & -> & Hlen1 & Hnth1).
      exists l1, n1. split; [reflexivity|]. split; [exact Hlen1|].
      intros j Hj. apply Hnth1. lia.
Qed.

(** Puts the world that a statement is applied to into the form of a
    record. *)
Ltac world :=
  cbn [addEffects set_effects set_clock set_advanceList set_systemReads
       effects_ clock_ observed_ advanceList_ timeStep_ displayPeriod_ canvasList_
       memorizables_ errorObservers_ systemReads_ app fst snd].

Lemma SimRunner_paintAll_eq (w : World) :
  SimRunner_paintAll w = (Normal tt, addEffects (map Painted (canvasList_ w)) w).
Proof.
  unfold SimRunner_paintAll, bind, gets. apply forEach_emit.
Qed.

(** X10.  A callback on a Clock in step mode (paused, with the step
    pending), when no exception is thrown: every simulation has been
    advanced until its time was not below the clock time minus a tenth of
    the time step; the step mode is cleared and the Clock stays paused; the
    Timer was told to fire again after the display period, and then the
    canvases were painted.  One callback consumes the step: the callbacks
    that follow advance no simulation. *)
Theorem callback_consumes_the_step (fuel : nat) (w w' : World) :
  isRunning_ (clock_ w) = false ->
  stepMode_ (clock_ w) = true ->
  callback_try fuel w = (Normal tt, w') ->
  SimRunner_callback fuel w = (Normal tt, w') /\
  isRunning_ (clock_ w') = false /\
  stepMode_ (clock_ w') = false /\
  (exists before,
     effects_ w' =
       effects_ w ++ CallBackStarted :: before
         ++ FireAfter (Some (displayPeriod_ w)) :: map Painted (canvasList_ w)) /\
  (forall i, i < length (advanceList_ w) ->
     exists sim',
       nth_error (advanceList_ w') i = Some sim' /\
       (getTime sim' <? saveTime_secs_ (clock_ w') - timeStep_ w / 10)%float = false) /\
  (forall fuel', advanceList_ (snd (SimRunner_callback fuel' w')) = advanceList_ w').
Proof.
  intros Hrun Hstep Htry.
  split; [unfold SimRunner_callback, tryCatch; rewrite Htry; reflexivity|].
  (* the world [wb] in which the simulations are advanced, and the clock time
     [start] they are advanced to *)
  destruct w as [c obs sims ts dp cv ms eo reads effs]. cbn in Hrun, Hstep. world.
  destruct sims as [|sim0 rest].
  { exfalso. revert Htry. unfold callback_try.
    unfold Timer_callBackStarted, Clock_isRunning, Clock_isStepping, Clock_getTime,
      Strategy_getTime, bind, emit, modify, gets, getClock, ret, throw.
    world. rewrite Hrun, Hstep. cbn. rewrite Hrun. discriminate. }
  (* the world [wb] in which the simulations are advanced *)
  assert (Hprefix : exists (wb : World) (before : list Effect),
    isRunning_ (clock_ wb) = false /\ stepMode_ (clock_ wb) = true /\
    effects_ wb = effs ++ CallBackStarted :: before /\
    advanceList_ wb = sim0 :: rest /\ displayPeriod_ wb = dp /\
    canvasList_ wb = cv /\
    callback_try fuel (mkWorld c obs (sim0 :: rest) ts dp cv ms eo reads effs) =
      ((advanceAll fuel (saveTime_secs_ (clock_ wb) - ts / 10) 0 (length (sim0 :: rest)) ;;
        (stepping <- Clock_isStepping ;;
         (if stepping
          then Timer_fireAfter (Some dp) ;; Clock_clearStepMode
          else
            clockTime <- Clock_getTime ;;
            simTime <- Strategy_getTime 0 ;;
            let limit := (20 * ts)%float in
            let retard := (clockTime - simTime >? limit)%float in
            if retard
            then Clock_setTime simTime ;; Timer_fireAfter (Some 0%float)
            else
              rate <- Clock_getTimeRate ;;
              let t := (simTime + dp * rate)%float in
              c <- getClock ;;
              Timer_finishAt (clockToSystem c t)))) ;;
       SimRunner_paintAll) wb).
  { destruct ((saveTime_secs_ c >? getTime sim0 + 1)%float
              || (saveTime_secs_ c <? getTime sim0 - 1)%float) eqn:Hfar.
    - exists (mkWorld
                (set_saveRealTime_secs (getTime sim0 + ts)
                   (set_saveTime_secs (getTime sim0 + ts) c))
                obs (sim0 :: rest) ts dp cv ms eo reads
                ((effs ++ [CallBackStarted])
                   ++ Broadcast CLOCK_SET_TIME :: (if obs then map Memorized ms else []))).
      exists (Broadcast CLOCK_SET_TIME :: (if obs then map Memorized ms else [])).
      split; [|split; [|split; [|split; [|split; [|split]]]]]; cycle 6.
      + unfold callback_try.
        unfold Timer_callBackStarted, Clock_isRunning, Clock_getTime.
        unfold bind at 1. unfold emit at 1, modify at 1. world.
        unfold bind at 1. unfold gets at 1. world. rewrite Hrun.
        unfold bind at 1. unfold Clock_isStepping at 1, gets at 1. world. rewrite Hstep.
        unfold bind at 1. unfold gets at 1.
        unfold bind at 1. unfold gets at 1. world. cbn [negb andb].
        unfold bind at 1. unfold bind at 1. unfold bind at 1.
        unfold getClock at 1, gets at 1. world. rewrite Hrun. unfold ret at 1.
        unfold bind at 1. unfold Strategy_getTime at 1. unfold bind at 1, gets at 1. world.
        cbn [nth_error]. unfold ret at 1. rewrite Hfar.
        unfold bind at 1. unfold bind at 1.
        rewrite Clock_setTime_paused by exact Hrun.
        unfold bind at 1. rewrite Clock_setRealTime_paused by (destruct c; exact Hrun).
        unfold ret at 1. unfold bind at 1. unfold gets at 1.
        unfold onSetTime. world. reflexivity.
      + destruct c; exact Hrun.
      + destruct c; exact Hstep.
      + world. rewrite <- app_assoc. reflexivity.
      + reflexivity.
      + reflexivity.
      + reflexivity.
    - exists (mkWorld c obs (sim0 :: rest) ts dp cv ms eo reads (effs ++ [CallBackStarted])).
      exists [].
      split; [|split; [|split; [|split; [|split; [|split]]]]]; cycle 6.
      + unfold callback_try.
        unfold Timer_callBackStarted, Clock_isRunning, Clock_getTime.
        unfold bind at 1. unfold emit at 1, modify at 1. world.
        unfold bind at 1. unfold gets at 1. world. rewrite Hrun.
        unfold bind at 1. unfold Clock_isStepping at 1, gets at 1. world. rewrite Hstep.
        unfold bind at 1. unfold gets at 1.
        unfold bind at 1. unfold gets at 1. world. cbn [negb andb].
        unfold bind at 1. unfold bind at 1. unfold bind at 1.
        unfold getClock at 1, gets at 1. world. rewrite Hrun. unfold ret at 1.
        unfold bind at 1. unfold Strategy_getTime at 1. unfold bind at 1, gets at 1. world.
        cbn [nth_error]. unfold ret at 1. rewrite Hfar.
        unfold bind at 1. unfold ret at 1. unfold bind at 1. unfold gets at 1.
        world. reflexivity.
      + exact Hrun.
      + exact Hstep.
      + reflexivity.
      + reflexivity.
      + reflexivity.
      + reflexivity. }
  destruct Hprefix as (wb & before & Hrunb & Hstepb & Heffb & Hsimsb & Hdpb & Hcvb & Heq).
  rewrite Heq in Htry. clear Heq. revert Htry.
  unfold bind at 1. unfold bind at 1.
  destruct (advanceAll_post fuel (saveTime_secs_ (clock_ wb) - ts / 10)
              (length (sim0 :: rest)) 0 wb) as [Hfrom Hpost].
  destruct (advanceAll fuel (saveTime_secs_ (clock_ wb) - ts / 10) 0
              (length (sim0 :: rest)) wb) as [[[]|e|] wc]; try discriminate.
  simpl in Hfrom, Hpost. destruct Hfrom as (l & n & -> & Hlen & _).
  destruct wb as [cb obsb simsb tsb dpb cvb msb eob readsb effsb].
  cbn in Hrunb, Hstepb, Heffb, Hsimsb, Hdpb, Hcvb, Hlen. subst simsb dpb cvb effsb.
  unfold memorized, rounds in *. world. cbn [memorizables_ set_advanceList] in *.
  unfold Clock_isStepping, Timer_fireAfter, Clock_clearStepMode.
  unfold bind, gets, emit, modifyClock, modify. world. rewrite Hstepb.
  rewrite SimRunner_paintAll_eq. world.
  intros Hw'. injection Hw' as <-. world.
  split; [destruct cb; exact Hrunb|].
  split; [destruct cb; reflexivity|].
  split; [exists (before ++ concat (repeat (map Memorized msb) n));
          repeat rewrite <- app_assoc; reflexivity|].
  split.
  - intros i Hi. destruct (Hpost eq_refl i) as (sim' & Hsim' & Hreached); [simpl in *; lia|].
    exists sim'. split; [exact Hsim'|]. destruct cb; exact Hreached.
  - intros fuel'. rewrite SimRunner_callback_idle.
    + reflexivity.
    + destruct cb; exact Hrunb.
    + destruct cb; reflexivity.
Qed.

(** ** The time rate *)

Definition set_timeRate (v : number) (c : Clock) : Clock :=
  mkClock (clockStart_sys_secs_ c) (realStart_sys_secs_ c) v (saveTime_secs_ c)
    (saveRealTime_secs_ c) (isRunning_ c) (stepMode_ c) (tasks_ c).

(** [UtilityCore.veryDifferent(arg1, arg2)] is not among the sources, and
    neither is the conversion of a number to a string (['' + x]). *)
Variable veryDifferent : number -> number -> bool.
Variable String_of_number : number -> String.string.

(** [goog.asserts.assert(condition, message)].  A failed assertion is
    handed to the error handler; the constructor of SimRunner installs one
    that pauses its Clock and throws the error. *)
Definition goog_asserts_assert (condition : bool) (message : String.string) : M World unit :=
  if condition
  then ret tt
  else
    let a := mkError (String.append "Assertion failed: " message) in
    observed <- gets observed_ ;;
    (if observed then Clock_pause else ret tt) ;;
    throw a.

Definition Clock_setTimeRate (rate : number) : M World unit :=
  c <- getClock ;;
  if veryDifferent (timeRate_ c) rate
  then
    t <- Clock_getTime ;;
    sysT <- Clock_getRealTime ;;
    modifyClock (set_timeRate rate) ;;
    Clock_setTimePrivate t ;;
    Clock_setRealTime sysT ;;
    now <- Clock_getTime ;;
    let diff := abs (t - now) in
    goog_asserts_assert (diff <? 2E-3)%float
      (String.append "time diff=" (String_of_number diff)) ;;
    realNow <- Clock_getRealTime ;;
    let diff := abs (sysT - realNow) in
    goog_asserts_assert (diff <? 2E-3)%float
      (String.append "realTime diff=" (String_of_number diff)) ;;
    emit (BroadcastParameter "TIME_RATE"%string)
  else ret tt.

(** X11.  [setTimeRate(rate)] on a Clock that is not running, whose saved
    clock time and real time are finite numbers: when the rate is very
    different from the current one, the rate is set, [getTime()] and
    [getRealTime()] return what they returned before, and the parameter
    [TIME_RATE] is broadcast; nothing else happens.  When the rate is not
    very different from the current one, nothing happens at all, whatever
    the state of the Clock. *)
Theorem setTimeRate_keeps_the_time (rate : number) (w : World) :
  (veryDifferent (timeRate_ (clock_ w)) rate = false ->
   Clock_setTimeRate rate w = (Normal tt, w)) /\
  (veryDifferent (timeRate_ (clock_ w)) rate = true ->
   isRunning_ (clock_ w) = false ->
   isFinite (saveTime_secs_ (clock_ w)) = true ->
   isFinite (saveRealTime_secs_ (clock_ w)) = true ->
   let w' := addEffects [BroadcastParameter "TIME_RATE"%string]
               (set_clock (set_timeRate rate (clock_ w)) w) in
   Clock_setTimeRate rate w = (Normal tt, w') /\
   fst (Clock_getTime w') = fst (Clock_getTime w) /\
   fst (Clock_getRealTime w') = fst (Clock_getRealTime w)).
Proof.
  split.
  - intros Hsame. unfold Clock_setTimeRate, bind, getClock, gets. rewrite Hsame. reflexivity.
  - intros Hdifferent Hpaused Htime Hreal w'. subst w'.
    unfold Clock_setTimeRate, Clock_getTime, Clock_getRealTime, Clock_setTimePrivate,
      Clock_setRealTime, goog_asserts_assert, bind, getClock, gets, modifyClock, modify,
      emit, ret.
    destruct w as [c obs sims ts dp cv ms eo reads effs].
    destruct c as [cs rs tr st srt run step tasks]. cbn in Hdifferent, Hpaused, Htime, Hreal.
    subst run. cbv. rewrite Hdifferent. cbv.
    rewrite (FloatFacts.abs_sub_diag st Htime). cbv.
    rewrite (FloatFacts.abs_sub_diag srt Hreal). cbv.
    repeat split.
Qed.

(** ** The tasks of a Clock *)

Definition spec_float_eq_dec (x y : spec_float) : {x = y} + {x <> y}.
Proof.
  decide equality; try apply Bool.bool_dec; try apply Z.eq_dec; apply Pos.eq_dec.
Defined.

Definition number_eq_dec (a b : number) : {a = b} + {a <> b}.
Proof.
  destruct (spec_float_eq_dec (Prim2SF a) (Prim2SF b)) as [Heq|Hne].
  - left. apply Prim2SF_inj. exact Heq.
  - right. intros ->. apply Hne. reflexivity.
Defined.

(** Two references to a task are [===] when they are the same object. *)
Definition ClockTask_eq_dec (a b : ClockTask) : {a = b} + {a <> b}.
Proof.
  decide equality; [apply number_eq_dec | apply Nat.eq_dec].
Defined.

Definition set_tasks (v : list ClockTask) (c : Clock) : Clock :=
  mkClock (clockStart_sys_secs_ c) (realStart_sys_secs_ c) (timeRate_ c) (saveTime_secs_ c)
    (saveRealTime_secs_ c) (isRunning_ c) (stepMode_ c) v.

Definition Clock_addTask (task : ClockTask) : M World unit :=
  c <- getClock ;;
  if negb (goog_array.contains ClockTask_eq_dec (tasks_ c) task)
  then modifyClock (fun c => set_tasks (tasks_ c ++ [task]) c) ;;
       Clock_scheduleTask task
  else ret tt.

Definition Clock_removeTask (task : ClockTask) : M World unit :=
  modifyClock (fun c => set_tasks (snd (goog_array.remove ClockTask_eq_dec (tasks_ c) task)) c) ;;
  emit (TaskCancel (task_id task)).

Definition Clock_getTasks : M World (list ClockTask) :=
  gets (fun w => tasks_ (clock_ w)).

(** The calls a client can make on a Clock. *)
Inductive ClockCall : Set :=
| CallAddTask (task : ClockTask)
| CallRemoveTask (task : ClockTask)
| CallClearStepMode
| CallPause
| CallResume
| CallSetRealTime (time_secs : number)
| CallSetTime (time_secs : number)
| CallSetTimeRate (rate : number)
| CallStep (timeStep : number).

Definition call (c : ClockCall) : M World unit :=
  match c with
  | CallAddTask task => Clock_addTask task
  | CallRemoveTask task => Clock_removeTask task
  | CallClearStepMode => Clock_clearStepMode
  | CallPause => Clock_pause
  | CallResume => Clock_resume
  | CallSetRealTime time_secs => Clock_setRealTime time_secs
  | CallSetTime time_secs => Clock_setTime time_secs
  | CallSetTimeRate rate => Clock_setTimeRate rate
  | CallStep timeStep => Clock_step timeStep
  end.

(** The world after a sequence of calls; a call that throws leaves the
    world as it was when the error was thrown. *)
Definition callAll (calls : list ClockCall) (w : World) : World :=
  fold_left (fun w c => snd (call c w)) calls w.

Definition tasksOf (w : World) : list ClockTask := tasks_ (clock_ w).

Definition changesTasks (c : ClockCall) : bool :=
  match c with
  | CallAddTask _ | CallRemoveTask _ => true
  | _ => false
  end.

Lemma Leaves_tasksOf_call (c : ClockCall) :
  changesTasks c = false -> Leaves tasksOf (call c).
Proof.
  destruct c; try discriminate; intros _; cbn [call];
    unfold Clock_clearStepMode, Clock_pause, Clock_resume, Clock_setRealTime, Clock_setTime,
      Clock_setTimeRate, Clock_step, Clock_broadcast, SimRunner_observe, Clock_executeTasks,
      Clock_cancelAllTasks, goog_asserts_assert, Clock_pause, Clock_getRealTime,
      Clock_setTime, Clock_setRealTime, Clock_setTimePrivate, Clock_scheduleTask,
      Clock_broadcast, SimRunner_observe, Strategy_getTime, Clock_setTime,
      Clock_setTimePrivate, Clock_setRealTime,
      Clock_scheduleTask, Clock_getTime, SimRunner_observe_SET_TIME, SimRunner_memorize,
      getClock, emit, modifyClock;
    leaves ltac:(intros w; reflexivity).
Qed.

Lemma Leaves_tasksOf_scheduleTask (task : ClockTask) :
  Leaves tasksOf (Clock_scheduleTask task).
Proof.
  unfold Clock_scheduleTask, Clock_getTime, getClock, emit.
  leaves ltac:(intros w; reflexivity).
Qed.

Lemma tasksOf_addTask (task : ClockTask) (w : World) :
  tasksOf (snd (Clock_addTask task w)) =
    if goog_array.contains ClockTask_eq_dec (tasksOf w) task
    then tasksOf w
    else tasksOf w ++ [task].
Proof.
  unfold Clock_addTask. unfold bind at 1. unfold getClock at 1, gets at 1.
  fold (tasksOf w).
  destruct (goog_array.contains ClockTask_eq_dec (tasksOf w) task); cbn [negb].
  - reflexivity.
  - unfold bind, modifyClock, modify.
    rewrite Leaves_tasksOf_scheduleTask. destruct w as [c ? ? ? ? ? ? ? ? ?].
    destruct c. reflexivity.
Qed.

Lemma tasksOf_removeTask (task : ClockTask) (w : World) :
  Clock_removeTask task w =
    (Normal tt,
     addEffects [TaskCancel (task_id task)]
       (set_clock
          (set_tasks (snd (goog_array.remove ClockTask_eq_dec (tasksOf w) task)) (clock_ w))
          w)).
Proof. reflexivity. Qed.

Lemma call_NoDup (c : ClockCall) (w : World) :
  NoDup (tasksOf w) -> NoDup (tasksOf (snd (call c w))).
Proof.
  intros Hnodup. destruct (changesTasks c) eqn:Hchanges.
  - destruct c; try discriminate; cbn [call].
    + rewrite tasksOf_addTask.
      destruct (goog_array.contains ClockTask_eq_dec (tasksOf w) task) eqn:Hin;
        [exact Hnodup|].
      unfold goog_array.contains in Hin.
      destruct (in_dec ClockTask_eq_dec task (tasksOf w)) as [|Hnot]; [discriminate|].
      apply NoDup_app; [exact Hnodup | repeat constructor; simpl; tauto |].
      intros x Hx [<-|[]]. exact (Hnot Hx).
    + rewrite tasksOf_removeTask. destruct w as [cl ? ? ? ? ? ? ? ? ?]. destruct cl.
      apply goog_array.removed_once. exact Hnodup.
  - rewrite (Leaves_tasksOf_call c Hchanges). exact Hnodup.
Qed.

Lemma callAll_NoDup (calls : list ClockCall) (w : World) :
  NoDup (tasksOf w) -> NoDup (tasksOf (callAll calls w)).
Proof.
  unfold callAll. revert w. induction calls as [|c rest IH]; intros w Hnodup; simpl.
  - exact Hnodup.
  - apply IH. apply call_NoDup. exact Hnodup.
Qed.

(** X12.  The task list of a Clock.  Whatever calls are made on a Clock
    that starts without tasks, no task is on its list twice.  [addTask] of
    a task that is on the list does nothing at all: the task is not
    cancelled and not scheduled again.  After [removeTask(task)] the task
    is not on the list, and it has been cancelled whether it was on the
    list or not.  The other methods ([pause], [resume], [step], [setTime],
    [setRealTime], [setTimeRate], [clearStepMode]) neither add nor drop a
    task. *)
Theorem Clock_tasks_are_a_set (calls : list ClockCall) (w : World) :
  tasksOf w = [] ->
  let w1 := callAll calls w in
  NoDup (tasksOf w1) /\
  (forall task, In task (tasksOf w1) -> Clock_addTask task w1 = (Normal tt, w1)) /\
  (forall task, In task (tasksOf (snd (Clock_addTask task w1)))) /\
  (forall task,
     fst (Clock_removeTask task w1) = Normal tt /\
     ~ In task (tasksOf (snd (Clock_removeTask task w1))) /\
     effects_ (snd (Clock_removeTask task w1)) = effects_ w1 ++ [TaskCancel (task_id task)]) /\
  (forall c, changesTasks c = false -> tasksOf (snd (call c w1)) = tasksOf w1).
Proof.
  intros Hempty w1.
  assert (Hnodup : NoDup (tasksOf w1)).
  { apply callAll_NoDup. rewrite Hempty. constructor. }
  split; [exact Hnodup|]. split; [|split; [|split]].
  - intros task Hin. unfold Clock_addTask, bind, getClock, gets.
    fold (tasksOf w1). unfold goog_array.contains.
    destruct (in_dec ClockTask_eq_dec task (tasksOf w1)) as [_|Hnot]; [reflexivity|].
    contradiction.
  - intros task. rewrite tasksOf_addTask. unfold goog_array.contains.
    destruct (in_dec ClockTask_eq_dec task (tasksOf w1)) as [Hin|_]; [exact Hin|].
    apply in_or_app. right. now left.
  - intros task. rewrite tasksOf_removeTask. split; [reflexivity|]. split.
    + destruct w1 as [cl ? ? ? ? ? ? ? ? ?]. destruct cl.
      apply goog_array.removed_once. exact Hnodup.
    + destruct w1 as [cl ? ? ? ? ? ? ? ? ?]. reflexivity.
  - intros c Hc. apply (Leaves_tasksOf_call c Hc).
Qed.

(** ** What a SimRunner keeps lists of *)

Definition set_canvasList (l : list nat) (w : World) : World :=
  mkWorld (clock_ w) (observed_ w) (advanceList_ w) (timeStep_ w) (displayPeriod_ w)
    l (memorizables_ w) (errorObservers_ w) (systemReads_ w) (effects_ w).

Definition set_memorizables (l : list nat) (w : World) : World :=
  mkWorld (clock_ w) (observed_ w) (advanceList_ w) (timeStep_ w) (displayPeriod_ w)
    (canvasList_ w) l (errorObservers_ w) (systemReads_ w) (effects_ w).

Definition set_errorObservers (l : list nat) (w : World) : World :=
  mkWorld (clock_ w) (observed_ w) (advanceList_ w) (timeStep_ w) (displayPeriod_ w)
    (canvasList_ w) (memorizables_ w) l (systemReads_ w) (effects_ w).

Definition SimRunner_addMemo (memorizable : nat) : M World unit :=
  l <- gets memorizables_ ;;
  if negb (goog_array.contains Nat.eq_dec l memorizable)
  then modify (fun w => set_memorizables (memorizables_ w ++ [memorizable]) w)
  else ret tt.

Definition SimRunner_addCanvas (canvas : nat) : M World unit :=
  l <- gets canvasList_ ;;
  if negb (goog_array.contains Nat.eq_dec l canvas)
  then modify (fun w => set_canvasList (canvasList_ w ++ [canvas]) w) ;;
       SimRunner_addMemo canvas
  else ret tt.

Definition SimRunner_addErrorObserver (errorObserver : nat) : M World unit :=
  l <- gets errorObservers_ ;;
  if negb (goog_array.contains Nat.eq_dec l errorObserver)
  then modify (fun w => set_errorObservers (errorObservers_ w ++ [errorObserver]) w)
  else ret tt.

Definition SimRunner_addStrategy (strategy : Sim) : M World unit :=
  modify (fun w => set_advanceList (advanceList_ w ++ [strategy]) w).

Definition SimRunner_removeMemo (memorizable : nat) : M World unit :=
  modify (fun w =>
    set_memorizables (snd (goog_array.remove Nat.eq_dec (memorizables_ w) memorizable)) w).

Definition SimRunner_removeCanvas (canvas : nat) : M World unit :=
  modify (fun w =>
    set_canvasList (snd (goog_array.remove Nat.eq_dec (canvasList_ w) canvas)) w) ;;
  SimRunner_removeMemo canvas.

Definition SimRunner_removeErrorObserver (errorObserver : nat) : M World unit :=
  modify (fun w =>
    set_errorObservers
      (snd (goog_array.remove Nat.eq_dec (errorObservers_ w) errorObserver)) w).

Definition SimRunner_getCanvasList : M World (list nat) := gets canvasList_.
Definition SimRunner_getMemos : M World (list nat) := gets memorizables_.

(** The calls that change what a SimRunner paints, memorizes and notifies. *)
Inductive Registration : Set :=
| AddCanvas (canvas : nat)
| AddErrorObserver (errorObserver : nat)
| AddMemo (memorizable : nat)
| RemoveCanvas (canvas : nat)
| RemoveErrorObserver (errorObserver : nat)
| RemoveMemo (memorizable : nat).

Definition register (r : Registration) : M World unit :=
  match r with
  | AddCanvas canvas => SimRunner_addCanvas canvas
  | AddErrorObserver errorObserver => SimRunner_addErrorObserver errorObserver
  | AddMemo memorizable => SimRunner_addMemo memorizable
  | RemoveCanvas canvas => SimRunner_removeCanvas canvas
  | RemoveErrorObserver errorObserver => SimRunner_removeErrorObserver errorObserver
  | RemoveMemo memorizable => SimRunner_removeMemo memorizable
  end.

Definition registerAll (rs : list Registration) (w : World) : World :=
  fold_left (fun w r => snd (register r w)) rs w.

(** No object is twice on one of the three lists. *)
Definition Registered (w : World) : Prop :=
  NoDup (canvasList_ w) /\ NoDup (memorizables_ w) /\ NoDup (errorObservers_ w).

(** Evaluates the three lists of a world that is given by its fields. *)
Ltac lists :=
  cbn [set_canvasList set_memorizables set_errorObservers set_advanceList
       canvasList_ memorizables_ errorObservers_ fst snd negb].

Lemma register_Registered (r : Registration) (w : World) :
  Registered w -> Registered (snd (register r w)).
Proof.
  intros (Hcv & Hms & Heo). destruct w as [c obs sims ts dp cv ms eo reads effs].
  cbn in Hcv, Hms, Heo.
  destruct r; cbn [register];
    unfold SimRunner_addCanvas, SimRunner_addErrorObserver, SimRunner_addMemo,
      SimRunner_removeCanvas, SimRunner_removeErrorObserver, SimRunner_removeMemo,
      Registered, bind, gets, modify, ret; lists.
  - destruct (goog_array.contains Nat.eq_dec cv canvas) eqn:Hcanvas; lists.
    + repeat split; assumption.
    + destruct (goog_array.contains Nat.eq_dec ms canvas) eqn:Hmemo; lists;
        repeat split; try assumption;
        apply (goog_array.push_NoDup _ Nat.eq_dec); assumption.
  - destruct (goog_array.contains Nat.eq_dec eo errorObserver) eqn:Hobs; lists;
      repeat split; try assumption;
        apply (goog_array.push_NoDup _ Nat.eq_dec); assumption.
  - destruct (goog_array.contains Nat.eq_dec ms memorizable) eqn:Hmemo; lists;
      repeat split; try assumption;
        apply (goog_array.push_NoDup _ Nat.eq_dec); assumption.
  - repeat split; try assumption; apply goog_array.removed_once; assumption.
  - repeat split; try assumption; apply goog_array.removed_once; assumption.
  - repeat split; try assumption; apply goog_array.removed_once; assumption.
Qed.

Lemma registerAll_Registered (rs : list Registration) (w : World) :
  Registered w -> Registered (registerAll rs w).
Proof.
  unfold registerAll. revert w. induction rs as [|r rest IH]; intros w Hw; simpl.
  - exact Hw.
  - apply IH. apply register_Registered. exact Hw.
Qed.

(** X13.  The canvases, the memorizables and the error observers of a
    SimRunner that starts with empty lists (as its constructor makes them):
    whatever sequence of [addCanvas], [addMemo], [addErrorObserver],
    [removeCanvas], [removeMemo] and [removeErrorObserver] is called, no
    object is twice on a list, so that [paintAll], [memorize] and
    [handleException] reach each object once.  After [addCanvas(canvas)]
    the canvas is on the list of canvases, and, unless it was there
    before, also on the list of memorizables; after [removeCanvas(canvas)]
    it is on neither.  After [addErrorObserver] the observer is on its
    list, after [removeErrorObserver] it is not. *)
Theorem SimRunner_lists_are_sets (rs : list Registration) (w : World) :
  canvasList_ w = [] -> memorizables_ w = [] -> errorObservers_ w = [] ->
  let w1 := registerAll rs w in
  Registered w1 /\
  (forall canvas,
     let w2 := snd (SimRunner_addCanvas canvas w1) in
     In canvas (canvasList_ w2) /\
     (In canvas (canvasList_ w1) \/ In canvas (memorizables_ w2))) /\
  (forall canvas,
     let w2 := snd (SimRunner_removeCanvas canvas w1) in
     ~ In canvas (canvasList_ w2) /\ ~ In canvas (memorizables_ w2)) /\
  (forall errorObserver,
     In errorObserver (errorObservers_ (snd (SimRunner_addErrorObserver errorObserver w1))) /\
     ~ In errorObserver
         (errorObservers_ (snd (SimRunner_removeErrorObserver errorObserver w1)))).
Proof.
  intros Hcv Hms Heo w1.
  assert (Hw1 : Registered w1).
  { apply registerAll_Registered. unfold Registered. rewrite Hcv, Hms, Heo.
    repeat split; constructor. }
  split; [exact Hw1|]. destruct Hw1 as (Hcv1 & Hms1 & Heo1).
  destruct w1 as [c obs sims ts dp cv ms eo reads effs]. cbn in Hcv1, Hms1, Heo1.
  unfold SimRunner_addCanvas, SimRunner_addErrorObserver, SimRunner_addMemo,
    SimRunner_removeCanvas, SimRunner_removeErrorObserver, SimRunner_removeMemo,
    bind, gets, modify, ret. lists.
  split; [|split].
  - intros canvas.
    destruct (goog_array.contains Nat.eq_dec cv canvas) eqn:Hcanvas; lists.
    + apply goog_array.contains_In in Hcanvas. split; [exact Hcanvas | left; exact Hcanvas].
    + destruct (goog_array.contains Nat.eq_dec ms canvas) eqn:Hmemo; lists.
      * apply goog_array.contains_In in Hmemo.
        split; [apply in_or_app; right; now left | right; exact Hmemo].
      * split; [apply in_or_app; right; now left | right; apply in_or_app; right; now left].
  - intros canvas. lists. split; apply goog_array.removed_once; assumption.
  - intros errorObserver.
    destruct (goog_array.contains Nat.eq_dec eo errorObserver) eqn:Hobs; lists.
    + apply goog_array.contains_In in Hobs.
      split; [exact Hobs | apply goog_array.removed_once; assumption].
    + split; [apply in_or_app; right; now left | apply goog_array.removed_once; assumption].
Qed.

(** ** Resetting *)

(** [strategy.reset()], which may throw. *)
Variable reset : Sim -> Completion unit * Sim.

Definition Strategy_reset (i : nat) : M World unit :=
  fun w =>
    match nth_error (advanceList_ w) i with
    | Some strategy =>
        let (completion, strategy') := reset strategy in
        (completion, set_advanceList (replace_nth (advanceList_ w) i strategy') w)
    | None => (Throw (mkError "TypeError"%string), w)
    end.

(** [goog.array.forEach(this.advanceList_, function(strategy) { strategy.reset(); })];
    [resetAll i k] handles the [k] indices from [i] on. *)
Fixpoint resetAll (i k : nat) : M World unit :=
  match k with
  | O => ret tt
  | S k' => Strategy_reset i ;; resetAll (S i) k'
  end.

(** The events that the SimRunner itself broadcasts to its observers.  A
    SimRunner is its world together with the events it has broadcast. *)
Inductive SimRunnerEvent : Set :=
| RESET.

Definition SimRunner : Type := (World * list SimRunnerEvent)%type.

Definition onWorld {A : Type} (m : M World A) : M SimRunner A :=
  fun this => let (r, w') := m (fst this) in (r, (w', snd this)).

Definition SimRunner_broadcast (evt : SimRunnerEvent) : M SimRunner unit :=
  modify (fun this => (fst this, snd this ++ [evt])).

Definition SimRunner_reset : M SimRunner unit :=
  onWorld (n <- gets (fun w => length (advanceList_ w)) ;; resetAll 0 n) ;;
  (* sync clock to simulation time *)
  t <- onWorld (Strategy_getTime 0) ;;
  onWorld (Clock_setTime t) ;;
  onWorld (Clock_setRealTime t) ;;
  onWorld Clock_pause ;;
  onWorld SimRunner_paintAll ;;
  SimRunner_broadcast RESET.

Definition SimRunner_getRunning : M World bool := Clock_isRunning.

Definition SimRunner_setRunning (value : bool) : M World unit :=
  if value then SimRunner_resume else SimRunner_pause.

(** [Completes m]: the statement [m] returns, it never throws. *)
Definition Completes {A : Type} (m : M World A) : Prop :=
  forall w, exists a, fst (m w) = Normal a.

Lemma Completes_ret {A : Type} (a : A) : Completes (ret a).
Proof. intros w. exists a. reflexivity. Qed.

Lemma Completes_gets {A : Type} (g : World -> A) : Completes (gets g).
Proof. intros w. eexists. reflexivity. Qed.

Lemma Completes_modify (g : World -> World) : Completes (modify g).
Proof. intros w. eexists. reflexivity. Qed.

Lemma Completes_getSystemTime : Completes getSystemTime.
Proof. intros w. eexists. reflexivity. Qed.

Lemma Completes_bind {A B : Type} (m : M World A) (k : A -> M World B) :
  Completes m -> (forall a, Completes (k a)) -> Completes (bind m k).
Proof.
  intros Hm Hk w. unfold bind. destruct (Hm w) as [a Ha].
  destruct (m w) as [c w']. simpl in Ha. subst c. apply Hk.
Qed.

Lemma Completes_forEach {A : Type} (arr : list A) (g : A -> M World unit) :
  (forall a, Completes (g a)) -> Completes (forEach arr g).
Proof.
  intros Hg. induction arr as [|a rest IH]; simpl.
  - apply Completes_ret.
  - apply Completes_bind; [apply Hg | intros _; exact IH].
Qed.

Ltac completes :=
  cbv zeta;
  repeat first
    [ apply Completes_ret | apply Completes_gets | apply Completes_modify
    | apply Completes_getSystemTime
    | apply Completes_forEach; intros
    | apply Completes_bind; [|intros]
    | match goal with
      | |- Completes (if ?b then _ else _) => destruct b
      end ].

Lemma Completes_setTime (time_secs : number) : Completes (Clock_setTime time_secs).
Proof.
  unfold Clock_setTime, Clock_setTimePrivate, Clock_scheduleTask, Clock_getTime,
    SimRunner_observe_SET_TIME, SimRunner_memorize, getClock, emit, modifyClock.
  completes.
Qed.

Lemma Completes_setRealTime (time_secs : number) : Completes (Clock_setRealTime time_secs).
Proof.
  unfold Clock_setRealTime, getClock, modifyClock. completes.
Qed.

(** What [setTime] and [setRealTime] leave as it is, besides the real time
    and the clock time. *)
Definition settingsOf (w : World) :=
  (observed_ w, advanceList_ w, canvasList_ w, isRunning_ (clock_ w), stepMode_ (clock_ w)).

Lemma Leaves_settingsOf_setTime (time_secs : number) :
  Leaves settingsOf (Clock_setTime time_secs).
Proof.
  unfold Clock_setTime, Clock_setTimePrivate, Clock_scheduleTask, Clock_getTime,
    SimRunner_observe_SET_TIME, SimRunner_memorize, getClock, emit, modifyClock.
  leaves ltac:(intros w; reflexivity).
Qed.

Lemma Leaves_settingsOf_setRealTime (time_secs : number) :
  Leaves settingsOf (Clock_setRealTime time_secs).
Proof.
  unfold Clock_setRealTime, getClock, modifyClock.
  leaves ltac:(intros w; reflexivity).
Qed.

Lemma effects_grow_setTime (time_secs : number) (w : World) :
  exists more, effects_ (snd (Clock_setTime time_secs w)) = effects_ w ++ more.
Proof. apply Keeps_Clock_setTime. Qed.

Lemma effects_grow_setRealTime (time_secs : number) (w : World) :
  exists more, effects_ (snd (Clock_setRealTime time_secs w)) = effects_ w ++ more.
Proof. apply Keeps_Clock_setRealTime. Qed.

(** The Clock of a SimRunner after [setTime(t); setRealTime(t); pause()],
    where [t] is the time of the first simulation: paused at [t]. *)
Lemma sync_and_pause (w : World) (sim0 : Sim) (rest : list Sim) :
  observed_ w = true ->
  advanceList_ w = sim0 :: rest ->
  exists w',
    (Clock_setTime (getTime sim0) ;; Clock_setRealTime (getTime sim0) ;; Clock_pause) w
      = (Normal tt, w') /\
    isRunning_ (clock_ w') = false /\
    saveTime_secs_ (clock_ w') = getTime sim0 /\
    saveRealTime_secs_ (clock_ w') = getTime sim0 /\
    advanceList_ w' = advanceList_ w /\
    canvasList_ w' = canvasList_ w /\
    stepMode_ (clock_ w') = stepMode_ (clock_ w) /\
    exists more, effects_ w' = effects_ w ++ more.
Proof.
  intros Hobserved Hsims.
  destruct (isRunning_ (clock_ w)) eqn:Hrun.
  - destruct (Completes_setTime (getTime sim0) w) as [[] H1].
    pose proof (Leaves_settingsOf_setTime (getTime sim0) w) as Hf1.
    destruct (effects_grow_setTime (getTime sim0) w) as [m1 Hm1].
    unfold bind at 1.
    destruct (Clock_setTime (getTime sim0) w) as [c1 w1]. simpl in H1, Hf1, Hm1. subst c1.
    destruct (Completes_setRealTime (getTime sim0) w1) as [[] H2].
    pose proof (Leaves_settingsOf_setRealTime (getTime sim0) w1) as Hf2.
    destruct (effects_grow_setRealTime (getTime sim0) w1) as [m2 Hm2].
    unfold bind at 1.
    destruct (Clock_setRealTime (getTime sim0) w1) as [c2 w2].
    simpl in H2, Hf2, Hm2. subst c2.
    unfold settingsOf in Hf1, Hf2. rewrite Hf1 in Hf2.
    injection Hf2 as Hobs2 Hsims2 Hcv2 Hrun2 Hstep2.
    rewrite Hrun in Hrun2.
    rewrite (Clock_pause_running w2 Hrun2).
    rewrite (Clock_broadcast_PAUSE_paused (stopped w2) (stopped_paused w2)).
    destruct w2 as [cl obs sims ts dp cv ms eo reads effs].
    cbn in Hobs2, Hsims2, Hcv2, Hrun2, Hstep2, Hm2. subst obs sims cv.
    cbn. rewrite Hobserved, Hsims. eexists. split; [reflexivity|]. cbn.
    repeat split; try assumption.
    rewrite Hm2, Hm1. repeat rewrite <- app_assoc. eexists. reflexivity.
  - destruct w as [cl obs sims ts dp cv ms eo reads effs].
    destruct cl as [cs rs tr st srt run step tasks]. cbn in Hrun. subst run.
    unfold bind at 1. rewrite Clock_setTime_paused by reflexivity.
    unfold bind at 1. rewrite Clock_setRealTime_paused by reflexivity.
    rewrite Clock_pause_paused by reflexivity.
    eexists. split; [reflexivity|]. cbn. repeat split. eexists. reflexivity.
Qed.

Lemma Strategy_reset_ReplacedAt (i : nat) (w : World) :
  ReplacedAt i w (snd (Strategy_reset i w)).
Proof.
  unfold Strategy_reset.
  destruct (nth_error (advanceList_ w) i) as [sim|]; [|apply ReplacedAt_refl].
  destruct (reset sim) as [c sim']. apply ReplacedAt_replaced.
Qed.

Lemma resetAll_only_sims (k : nat) :
  forall (i : nat) (w : World),
  exists l, snd (resetAll i k w) = set_advanceList l w /\ length l = length (advanceList_ w).
Proof.
  induction k as [|k IH]; intros i w; simpl.
  - exists (advanceList_ w). split; [destruct w; reflexivity | reflexivity].
  - unfold bind. pose proof (Strategy_reset_ReplacedAt i w) as Hat.
    destruct (Strategy_reset i w) as [[[]|e|] w1]; simpl in Hat;
      destruct Hat as (l1 & -> & Hlen1 & _).
    + destruct (IH (S i) (set_advanceList l1 w)) as (l2 & Heq2 & Hlen2).
      exists l2. rewrite Heq2. simpl in *. split; [reflexivity | congruence].
    + exists l1. split; [reflexivity | exact Hlen1].
    + exists l1. split; [reflexivity | exact Hlen1].
Qed.

(** X14.  [reset()] of a SimRunner that observes its Clock, when every
    [strategy.reset()] returns: the Clock is not running afterwards, and
    [getTime()] and [getRealTime()] both return exactly the time of the
    first simulation after its reset, whether the Clock was running or
    paused before.  The canvases are painted after that, and the [RESET]
    event is broadcast.  The step mode of the Clock is as before: [reset]
    does not clear it. *)
Theorem reset_syncs_the_clock
    (w w0 : World) (events : list SimRunnerEvent) (sim0 : Sim) (rest : list Sim) :
  observed_ w = true ->
  resetAll 0 (length (advanceList_ w)) w = (Normal tt, w0) ->
  advanceList_ w0 = sim0 :: rest ->
  exists w',
    SimRunner_reset (w, events) = (Normal tt, (w', events ++ [RESET])) /\
    isRunning_ (clock_ w') = false /\
    Clock_getTime w' = (Normal (getTime sim0), w') /\
    Clock_getRealTime w' = (Normal (getTime sim0), w') /\
    advanceList_ w' = advanceList_ w0 /\
    stepMode_ (clock_ w') = stepMode_ (clock_ w) /\
    exists before, effects_ w' = effects_ w ++ before ++ map Painted (canvasList_ w).
Proof.
  intros Hobserved Hreset Hsims.
  destruct (resetAll_only_sims (length (advanceList_ w)) 0 w) as (l & Heq & _).
  rewrite Hreset in Heq. simpl in Heq.
  assert (Hobserved0 : observed_ w0 = true) by (rewrite Heq; exact Hobserved).
  destruct (sync_and_pause w0 sim0 rest Hobserved0 Hsims)
    as (w3 & Hsync & Hrun3 & Htime3 & Hreal3 & Hsims3 & Hcv3 & Hstep3 & more & Hmore).
  exists (addEffects (map Painted (canvasList_ w3)) w3).
  split; [|split; [|split; [|split; [|split; [|split]]]]].
  - unfold SimRunner_reset.
    unfold bind at 1. unfold onWorld at 1. cbn [fst snd].
    unfold bind at 1. unfold gets at 1. rewrite Hreset.
    unfold bind at 1. unfold onWorld at 1. cbn [fst snd].
    unfold Strategy_getTime. unfold bind at 1. unfold gets at 1. rewrite Hsims.
    cbn [nth_error]. unfold ret at 1.
    unfold bind at 1. unfold onWorld at 1. cbn [fst snd].
    unfold bind at 1 in Hsync.
    destruct (Clock_setTime (getTime sim0) w0) as [[[]|e|] w1]; try discriminate.
    cbn [fst snd].
    unfold bind at 1. unfold onWorld at 1. cbn [fst snd].
    unfold bind at 1 in Hsync.
    destruct (Clock_setRealTime (getTime sim0) w1) as [[[]|e|] w2]; try discriminate.
    cbn [fst snd].
    unfold bind at 1. unfold onWorld at 1. cbn [fst snd]. rewrite Hsync.
    unfold bind at 1. unfold onWorld at 1. cbn [fst snd].
    rewrite SimRunner_paintAll_eq. reflexivity.
  - destruct w3. exact Hrun3.
  - unfold Clock_getTime, bind, getClock, gets, ret.
    destruct w3 as [cl ? ? ? ? ? ? ? ? ?]. cbn in *. rewrite Hrun3, Htime3. reflexivity.
  - unfold Clock_getRealTime, bind, getClock, gets, ret.
    destruct w3 as [cl ? ? ? ? ? ? ? ? ?]. cbn in *. rewrite Hrun3, Hreal3. reflexivity.
  - destruct w3. exact Hsims3.
  - rewrite Heq in Hstep3. destruct w3. exact Hstep3.
  - exists more. rewrite Heq in Hmore, Hcv3. destruct w3. cbn in *.
    rewrite Hmore, Hcv3, app_assoc. reflexivity.
Qed.

(** ** Running and paused *)

Definition runningOf (w : World) : bool := isRunning_ (clock_ w).

Lemma Leaves_runningOf_setTime (time_secs : number) :
  Leaves runningOf (Clock_setTime time_secs).
Proof.
  unfold Clock_setTime, Clock_setTimePrivate, Clock_scheduleTask, Clock_getTime,
    SimRunner_observe_SET_TIME, SimRunner_memorize, getClock, emit, modifyClock.
  leaves ltac:(intros w; reflexivity).
Qed.

Lemma Leaves_runningOf_setTimePrivate (time_secs : number) :
  Leaves runningOf (Clock_setTimePrivate time_secs).
Proof.
  unfold Clock_setTimePrivate, Clock_scheduleTask, Clock_getTime, getClock, emit, modifyClock.
  leaves ltac:(intros w; reflexivity).
Qed.

Lemma Leaves_runningOf_setRealTime (time_secs : number) :
  Leaves runningOf (Clock_setRealTime time_secs).
Proof.
  unfold Clock_setRealTime, getClock, modifyClock.
  leaves ltac:(intros w; reflexivity).
Qed.

(** The observers of a Clock do not switch it: no broadcast changes
    whether it is running. *)
Lemma Leaves_runningOf_broadcast (name : ClockEvent) :
  Leaves runningOf (Clock_broadcast name).
Proof.
  unfold Clock_broadcast, SimRunner_observe, Strategy_getTime, SimRunner_observe_SET_TIME,
    SimRunner_memorize, emit.
  leaves ltac:(first [ apply Leaves_runningOf_setTime | apply Leaves_runningOf_setRealTime
                     | intros w; reflexivity ]).
Qed.

Lemma Completes_setTimePrivate (time_secs : number) :
  Completes (Clock_setTimePrivate time_secs).
Proof.
  unfold Clock_setTimePrivate, Clock_scheduleTask, Clock_getTime, getClock, emit, modifyClock.
  completes.
Qed.

Lemma Leaves_settingsOf_setTimePrivate (time_secs : number) :
  Leaves settingsOf (Clock_setTimePrivate time_secs).
Proof.
  unfold Clock_setTimePrivate, Clock_scheduleTask, Clock_getTime, getClock, emit, modifyClock.
  leaves ltac:(intros w; reflexivity).
Qed.

(** A broadcast of the Clock returns when its SimRunner has a simulation to
    read the time from, and also when nobody observes the Clock. *)
Lemma Clock_broadcast_returns (name : ClockEvent) (w : World) :
  observed_ w = false \/ advanceList_ w <> [] ->
  fst (Clock_broadcast name w) = Normal tt.
Proof.
  intros Hsims.
  assert (Hsync : forall t, Completes (Clock_setTime t ;; Clock_setRealTime t ;;
                                        emit (BroadcastParameter "RUNNING"%string))).
  { intros t. unfold emit.
    apply Completes_bind; [apply Completes_setTime | intros _].
    apply Completes_bind; [apply Completes_setRealTime | intros _].
    apply Completes_modify. }
  assert (Hmemo : Completes SimRunner_memorize).
  { unfold SimRunner_memorize, emit. completes. }
  unfold Clock_broadcast. unfold bind at 1. unfold emit at 1, modify at 1.
  unfold bind at 1. unfold gets at 1. cbn [fst snd].
  destruct w as [c obs sims ts dp cv ms eo reads effs]. cbn [observed_ addEffects set_effects
    clock_ advanceList_ timeStep_ displayPeriod_ canvasList_ memorizables_ errorObservers_
    systemReads_ effects_] in *.
  destruct obs; [|reflexivity].
  destruct Hsims as [Hsims|Hsims]; [discriminate|].
  destruct sims as [|sim0 rest]; [contradiction|].
  destruct name; unfold SimRunner_observe, SimRunner_observe_SET_TIME.
  - unfold bind at 1. unfold Strategy_getTime at 1. unfold bind at 1, gets at 1.
    world. cbn [nth_error]. unfold ret at 1.
    match goal with
    | |- fst (?m ?w) = _ => destruct (Hsync (getTime sim0) w) as [[] Ha]; exact Ha
    end.
  - unfold bind at 1. unfold Strategy_getTime at 1. unfold bind at 1, gets at 1.
    world. cbn [nth_error]. unfold ret at 1.
    match goal with
    | |- fst (?m ?w) = _ => destruct (Hsync (getTime sim0) w) as [[] Ha]; exact Ha
    end.
  - match goal with
    | |- fst (?m ?w) = _ => destruct (Hmemo w) as [[] Ha]; exact Ha
    end.
  - reflexivity.
Qed.

(** [resume()] on a paused Clock: the flag is set first. *)
Lemma Clock_resume_paused (w : World) :
  isRunning_ (clock_ w) = false ->
  Clock_resume w =
    (Clock_setTimePrivate (saveTime_secs_ (clock_ w)) ;;
     Clock_setRealTime (saveRealTime_secs_ (clock_ w)) ;;
     Clock_broadcast CLOCK_RESUME) (set_clock (set_isRunning true (clock_ w)) w).
Proof.
  intros Hpaused. unfold Clock_resume.
  unfold bind at 1. unfold getClock at 1, gets at 1. rewrite Hpaused. cbn [negb].
  unfold bind at 1. unfold modifyClock at 1, modify at 1. reflexivity.
Qed.

Lemma Clock_resume_running (w : World) :
  isRunning_ (clock_ w) = true -> Clock_resume w = (Normal tt, w).
Proof.
  intros Hrunning. unfold Clock_resume, bind, getClock, gets. rewrite Hrunning. reflexivity.
Qed.

(** X19.  [setRunning(value)] and [getRunning()]: after [setRunning(value)]
    the next [getRunning()] returns [value], whatever the Clock was doing
    before and whatever its observer did with the event.  [setRunning] with
    the value that [getRunning()] shows does nothing at all: no time is
    read, no task is touched, nothing is broadcast.  The call returns
    whenever the SimRunner has a simulation (or does not observe the
    Clock). *)
Theorem setRunning_then_getRunning (value : bool) (w : World) :
  let w1 := snd (SimRunner_setRunning value w) in
  SimRunner_getRunning w1 = (Normal value, w1) /\
  (fst (SimRunner_getRunning w) = Normal value ->
   SimRunner_setRunning value w = (Normal tt, w)) /\
  (observed_ w = false \/ advanceList_ w <> [] ->
   fst (SimRunner_setRunning value w) = Normal tt).
Proof.
  intros w1. subst w1.
  unfold SimRunner_getRunning, Clock_isRunning, gets. cbn [fst].
  fold (runningOf (snd (SimRunner_setRunning value w))). fold (runningOf w).
  unfold SimRunner_setRunning, SimRunner_resume, SimRunner_pause.
  destruct value; destruct (isRunning_ (clock_ w)) eqn:Hrun; unfold runningOf at 2; rewrite ?Hrun.
  - (* resume, running *)
    rewrite (Clock_resume_running w Hrun). cbn [snd fst]. unfold runningOf. rewrite Hrun.
    repeat split.
  - (* resume, paused *)
    rewrite (Clock_resume_paused w Hrun).
    set (w0 := set_clock (set_isRunning true (clock_ w)) w).
    split; [|split; [discriminate|]].
    + f_equal. f_equal.
      assert (Hleaves : Leaves runningOf
                (Clock_setTimePrivate (saveTime_secs_ (clock_ w)) ;;
                 Clock_setRealTime (saveRealTime_secs_ (clock_ w)) ;;
                 Clock_broadcast CLOCK_RESUME)).
      { apply Leaves_bind; [apply Leaves_runningOf_setTimePrivate | intros _].
        apply Leaves_bind; [apply Leaves_runningOf_setRealTime | intros _].
        apply Leaves_runningOf_broadcast. }
      rewrite Hleaves. reflexivity.
    + intros Hsims.
      assert (Hsims0 : observed_ w0 = false \/ advanceList_ w0 <> []) by exact Hsims.
      clearbody w0.
      unfold bind at 1.
      destruct (Completes_setTimePrivate (saveTime_secs_ (clock_ w)) w0) as [[] Ha].
      pose proof (Leaves_settingsOf_setTimePrivate (saveTime_secs_ (clock_ w)) w0) as Hs.
      destruct (Clock_setTimePrivate (saveTime_secs_ (clock_ w)) w0) as [r wa].
      cbn [fst snd] in Ha, Hs. subst r.
      unfold bind at 1.
      destruct (Completes_setRealTime (saveRealTime_secs_ (clock_ w)) wa) as [[] Hb].
      pose proof (Leaves_settingsOf_setRealTime (saveRealTime_secs_ (clock_ w)) wa) as Hs'.
      destruct (Clock_setRealTime (saveRealTime_secs_ (clock_ w)) wa) as [r wb].
      cbn [fst snd] in Hb, Hs'. subst r.
      apply Clock_broadcast_returns.
      unfold settingsOf in Hs, Hs'.
      injection Hs as Hobs Hlist _ _ _. injection Hs' as Hobs' Hlist' _ _ _.
      rewrite Hobs', Hlist', Hobs, Hlist. exact Hsims0.
  - (* pause, running *)
    rewrite (Clock_pause_running w Hrun).
    split; [|split; [discriminate|]].
    + f_equal. f_equal. rewrite Leaves_runningOf_broadcast. reflexivity.
    + intros Hsims. apply Clock_broadcast_returns.
      destruct w; exact Hsims.
  - (* pause, paused *)
    rewrite (Clock_pause_paused w Hrun). cbn [snd fst]. unfold runningOf. rewrite Hrun.
    repeat split.
Qed.

End World.

Arguments mkWorld {Sim} clock_ observed_ advanceList_ timeStep_ displayPeriod_
  canvasList_ memorizables_ errorObservers_ systemReads_ effects_.
Arguments clock_ {Sim} w.
Arguments advanceList_ {Sim} w.
Arguments effects_ {Sim} w.
Arguments errorObservers_ {Sim} w.

(** ** Concrete runs

    The simulation behind the strategy is just its time.  [steady] adds the
    time step, [stuck] leaves the time where it is, [broken] throws.  A
    strategy calls [memorize()] [once] in a call of [advance], after its
    step, or [never]. *)

Definition steady (timeStep : number) (sim : number) : Completion unit * number :=
  (Normal tt, (sim + timeStep)%float).

Definition stuck (timeStep : number) (sim : number) : Completion unit * number :=
  (Normal tt, sim).

Definition broken (timeStep : number) (sim : number) : Completion unit * number :=
  (Throw (mkError "collision handling failed"%string), sim).

Definition once (timeStep : number) (sim : number) : nat := 1.

Definition never (timeStep : number) (sim : number) : nat := 0.

(** A simulation that carries a flag: while the flag is set [advance]
    throws (and clears the flag); afterwards it adds the time step. *)
Definition flaky (timeStep : number) (sim : number * bool)
    : Completion unit * (number * bool) :=
  if snd sim
  then (Throw (mkError "collision handling failed"%string), (fst sim, false))
  else (Normal tt, ((fst sim + timeStep)%float, false)).

(** [flaky] calls [memorize()] after the step it makes, and not when it
    throws. *)
Definition flakyCalls (timeStep : number) (sim : number * bool) : nat :=
  if snd sim then 0 else 1.

(** The system time stands at 10 seconds. *)
Definition at10 (k : nat) : number := 10%float.

(** A Clock started at system time 0 that is running at rate 1. *)
Definition runningClock : Clock :=
  mkClock 0 0 1 0 0 true false [].

(** A SimRunner, registered as the observer of its running Clock, with one
    simulation at time 9.5, time step 0.5, one canvas and two error
    observers. *)
Definition runningWorld : World number :=
  mkWorld runningClock true [9.5%float] 0.5 0.025 [1] [1] [7; 8] 0 [].

(** The same SimRunner after its Clock was paused at time 9.5. *)
Definition pausedWorld : World number :=
  mkWorld (mkClock 0 0 1 9.5 9.5 false false []) true [9.5%float] 0.5 0.025 [1] [1] [7; 8] 0 [].


(** Witness of [callback_reports_exception]: [advance] throws during a
    callback on the running Clock. *)
Lemma callback_reports_exception_witness :
  exists (w2 : World number) (before : list Effect),
    SimRunner_callback number (fun sim => sim) broken never at10 5 runningWorld = (Normal tt, w2) /\
    isRunning_ (clock_ w2) = false /\
    effects_ w2 =
      before
        ++ [NotifyError 7 (mkError "collision handling failed"%string);
            NotifyError 8 (mkError "collision handling failed"%string);
            Alert (mkError "collision handling failed"%string); FireAfter None].
Proof.
  destruct (callback_reports_exception number (fun sim => sim) broken never at10 5 runningWorld
              (snd (callback_try number (fun sim => sim) broken never at10 5 runningWorld))
              (mkError "collision handling failed"%string)
              ltac:(discriminate) ltac:(vm_compute; reflexivity))
    as (w2 & before & Hcallback & Hrun & Heffects & _).
  exists w2, before. split; [exact Hcallback|]. split; [exact Hrun|]. exact Heffects.
Defined.

(** A SimRunner whose Clock is in step mode: the simulation is at time 9.5
    and [SimRunner.step()] has put the paused Clock at 10.  The first call
    of [advance] will throw. *)
Definition steppingWorld : World (number * bool) :=
  mkWorld (mkClock 0 0 1 10 10 false true []) true [(9.5%float, true)]
    0.5 0.025 [1] [1] [7; 8] 0 [].

(** The same SimRunner with a running Clock that shows 10. *)
Definition runningFlakyWorld : World (number * bool) :=
  mkWorld runningClock true [(9.5%float, true)] 0.5 0.025 [1] [1] [7; 8] 0 [].

(** C7.  The exception that [advance] throws during [callback] reaches
    [handleException], which notifies both error observers; but [pause()]
    does nothing on a Clock that is not running, and the step mode, which
    only the path without exception clears, stays: the callback that the
    [catch] block schedules advances the simulation, from 9.5 to 10.  On
    the running Clock the same exception does stop the advance: the next
    callback leaves the simulation at 9.5. *)
Lemma callback_in_step_mode_advances_again :
  let failure := mkError "collision handling failed"%string in
  let callback := SimRunner_callback (number * bool) fst flaky flakyCalls at10 5 in
  let w1 := snd (callback steppingWorld) in
  let r1 := snd (callback runningFlakyWorld) in
  fst (callback steppingWorld) = Normal tt /\
  effects_ w1 =
    [CallBackStarted; NotifyError 7 failure; NotifyError 8 failure; Alert failure;
     FireAfter None] /\
  isRunning_ (clock_ w1) = false /\
  stepMode_ (clock_ w1) = true /\
  advanceList_ w1 = [(9.5%float, false)] /\
  advanceList_ (snd (callback w1)) = [(10%float, false)] /\
  advanceList_ r1 = [(9.5%float, false)] /\
  advanceList_ (snd (callback r1)) = [(9.5%float, false)].
Proof.
  cbv zeta. repeat split; vm_compute; reflexivity.
Qed.

(** Witness of [Clock_step_adds_to_saved_time]: a step of 0.5 on the Clock
    paused at 9.5. *)
Lemma Clock_step_adds_to_saved_time_witness :
  exists w2 : World number,
    Clock_step number (fun sim => sim) at10 0.5 pausedWorld = (Normal tt, w2) /\
    Clock_isRunning number w2 = (Normal false, w2) /\
    Clock_isStepping number w2 = (Normal true, w2) /\
    Clock_getTime number at10 w2 = (Normal 10%float, w2).
Proof.
  destruct (Clock_step_adds_to_saved_time number (fun sim => sim) at10 0.5%float
              pausedWorld pausedWorld ltac:(reflexivity))
    as (w2 & Hstep & Hrun & Hstepping & Htime & _).
  exists w2. split; [exact Hstep|]. split; [exact Hrun|]. split; [exact Hstepping|].
  exact Htime.
Defined.

(** C10 as stated fails for a running Clock that a SimRunner observes:
    [getTime()] returns 10 before the call; [step(0.5)] pauses the Clock,
    the SimRunner answers [CLOCK_PAUSE] by setting the Clock to the
    simulation time 9.5, and after the step [getTime()] returns 10 again,
    not 10.5.  The system time did not move meanwhile. *)
Lemma Clock_step_running_counterexample :
  fst (Clock_getTime number at10 runningWorld) = Normal 10%float /\
  fst (Clock_step number (fun sim => sim) at10 0.5 runningWorld) = Normal tt /\
  fst (Clock_getTime number at10
         (snd (Clock_step number (fun sim => sim) at10 0.5 runningWorld))) = Normal 10%float /\
  (10 + 0.5 =? 10)%float = false.
Proof.
  repeat split; vm_compute; reflexivity.
Qed.

(** ** More concrete runs *)

(** The running Clock with two tasks, observed by a SimRunner whose
    simulation is at time 9.5. *)
Definition busyWorld : World number :=
  mkWorld (mkClock 0 0 1 0 0 true false [mkClockTask 1 12; mkClockTask 2 3])
    true [9.5%float] 0.5 0.025 [1] [1] [7; 8] 0 [].

(** A SimRunner as its constructor leaves it: nothing to paint, to
    memorize or to notify. *)
Definition freshWorld : World number :=
  mkWorld (mkClock 0 0 1 9.5 9.5 false false []) true [9.5%float] 0.5 0.025 [] [] [] 0 [].

(** The SimRunner after [step()]: the simulation is at 9.5, the paused
    Clock at 10 and in step mode. *)
Definition steppedWorld : World number :=
  mkWorld (mkClock 0 0 1 10 10 false true []) true [9.5%float] 0.5 0.025 [1] [1] [7; 8] 0 [].

(** Two rates are very different when they differ by more than 1e-14. *)
Definition differ (a b : number) : bool := (1e-14 <? abs (a - b))%float.

Definition unprinted (x : number) : String.string := ""%string.

(** A simulation that [reset()] puts back to time 0. *)
Definition rewind (sim : number) : Completion unit * number := (Normal tt, 0%float).

(** Witness of [pause_cancels_tasks_and_freezes_time]: the two tasks are
    cancelled, and the paused Clock shows the simulation time 9.5. *)
Lemma pause_cancels_tasks_and_freezes_time_witness :
  let w1 := snd (Clock_pause number (fun sim => sim) at10 busyWorld) in
  isRunning_ (clock_ w1) = false /\
  (exists rest,
     effects_ w1 = [TaskCancel 1; TaskCancel 2; Broadcast CLOCK_PAUSE] ++ rest) /\
  Clock_getTime number at10 w1 = (Normal 9.5%float, w1).
Proof.
  destruct (pause_cancels_tasks_and_freezes_time number (fun sim => sim) at10 busyWorld
              ltac:(reflexivity))
    as (_ & Hrun & _ & [rest Heffects] & _ & Hobserved).
  destruct (Hobserved 9.5%float [] ltac:(reflexivity) ltac:(reflexivity)) as (_ & Htime & _).
  split; [exact Hrun|]. split; [exists rest; exact Heffects | exact Htime].
Defined.


(** Witness of [callback_consumes_the_step]: the callback advances the
    simulation to 10 and clears the step mode. *)
Lemma callback_consumes_the_step_witness :
  let w' := snd (SimRunner_callback number (fun sim => sim) steady once at10 5 steppedWorld) in
  fst (SimRunner_callback number (fun sim => sim) steady once at10 5 steppedWorld) = Normal tt /\
  isRunning_ (clock_ w') = false /\
  stepMode_ (clock_ w') = false /\
  advanceList_ w' = [10%float].
Proof.
  destruct (callback_consumes_the_step number (fun sim => sim) steady once at10 5 steppedWorld
              (snd (callback_try number (fun sim => sim) steady once at10 5 steppedWorld))
              ltac:(reflexivity) ltac:(reflexivity) ltac:(vm_compute; reflexivity))
    as (Hcallback & Hrun & Hstep & _).
  cbv zeta. rewrite Hcallback. cbn [fst snd].
  split; [reflexivity|]. split; [exact Hrun|]. split; [exact Hstep|].
  vm_compute. reflexivity.
Defined.

(** Witness of [setTimeRate_keeps_the_time]: the Clock paused at 9.5 is
    set to run twice as fast, and still shows 9.5. *)
Lemma setTimeRate_keeps_the_time_witness :
  let w' := snd (Clock_setTimeRate number (fun sim => sim) at10 differ unprinted 2 pausedWorld) in
  timeRate_ (clock_ w') = 2%float /\
  fst (Clock_getTime number at10 w') = Normal 9.5%float.
Proof.
  destruct (proj2 (setTimeRate_keeps_the_time number (fun sim => sim) at10 differ unprinted
                     2%float pausedWorld)
              ltac:(vm_compute; reflexivity) ltac:(reflexivity)
              ltac:(vm_compute; reflexivity) ltac:(vm_compute; reflexivity))
    as (Hset & Htime & _).
  cbv zeta. rewrite Hset. cbn [fst snd]. split; [reflexivity|].
  rewrite Htime. reflexivity.
Defined.

(** Witness of [Clock_tasks_are_a_set]: a task is added twice, the Clock is
    paused and resumed, and the task is on the list once. *)
Lemma Clock_tasks_are_a_set_witness :
  let task := mkClockTask 1 12 in
  let w1 :=
    callAll number (fun sim => sim) at10 differ unprinted
      [CallAddTask task; CallPause; CallAddTask task; CallResume] runningWorld in
  tasksOf number w1 = [task] /\ NoDup (tasksOf number w1).
Proof.
  cbv zeta. split; [vm_compute; reflexivity|].
  apply (Clock_tasks_are_a_set number (fun sim => sim) at10 differ unprinted
           [CallAddTask (mkClockTask 1 12); CallPause; CallAddTask (mkClockTask 1 12);
            CallResume]
           runningWorld ltac:(reflexivity)).
Defined.

(** Witness of [SimRunner_lists_are_sets]: a canvas is added twice and an
    error observer is added and removed. *)
Lemma SimRunner_lists_are_sets_witness :
  let w1 :=
    registerAll number
      [AddCanvas 1; AddCanvas 1; AddErrorObserver 7; RemoveErrorObserver 7] freshWorld in
  canvasList_ number w1 = [1] /\ memorizables_ number w1 = [1] /\
  errorObservers_ w1 = [] /\ Registered number w1.
Proof.
  cbv zeta. split; [reflexivity|]. split; [reflexivity|]. split; [reflexivity|].
  apply (SimRunner_lists_are_sets number
           [AddCanvas 1; AddCanvas 1; AddErrorObserver 7; RemoveErrorObserver 7] freshWorld
           ltac:(reflexivity) ltac:(reflexivity) ltac:(reflexivity)).
Defined.

(** Witness of [reset_syncs_the_clock]: the running Clock showed 10; after
    [reset()] it is paused and shows the time 0 of the simulation. *)
Lemma reset_syncs_the_clock_witness :
  exists w' : World number,
    SimRunner_reset number (fun sim => sim) at10 rewind (runningWorld, []) =
      (Normal tt, (w', [RESET])) /\
    isRunning_ (clock_ w') = false /\
    Clock_getTime number at10 w' = (Normal 0%float, w').
Proof.
  destruct (reset_syncs_the_clock number (fun sim => sim) at10 rewind runningWorld
              (snd (resetAll number rewind 0 1 runningWorld)) [] 0%float []
              ltac:(reflexivity) ltac:(reflexivity) ltac:(reflexivity))
    as (w' & Hreset & Hrun & Htime & _).
  exists w'. split; [exact Hreset|]. split; [exact Hrun | exact Htime].
Defined.

End Runner.
